(** * Verification of the replication-analysis harness ([analyze.py])

    The development embeds the measurement engine of [analyze.py]:
    the statistics aggregator ([calculate_stats]), the remote write
    ([write_key]), the bounded write driver ([run_concurrent_writes]),
    the consistency checker ([check_consistency]) and the quorum sweep of
    [run_analysis].

    Conventions.
    - A latency is a finite Python [float]; it is embedded as its exact
      value, a rational [Q], and [is_binary64] tells the rationals that
      are binary64 values.  Comparisons are those of the values.
    - The arithmetic of the aggregator ([statistics.mean], the average of
      the two middle values in [statistics.median]) returns the exact
      result rounded to the nearest binary64 value, ties to even
      ([round64]); a result out of range is an infinity ([float64]).
    - The duration [now - start] of a write is kept as the exact
      difference of the two clock readings: the driver only tests its
      sign and passes it on.
    - The percentile index [int(n * 0.95)] is embedded bit-exactly with
      the IEEE 754 operations of [SpecFloat] (the specification the
      kernel's primitive floats obey).
    - An operation that can raise returns [option]; [None] is the raised
      exception. *)

From Stdlib Require Import ZArith QArith Qround Qpower Qabs Lia Lqa Bool List.
From Stdlib Require Import Floats.SpecFloat.
From stdpp Require Import base option list sorting gmap strings pretty.

Local Open Scope Z_scope.

(** ** Binary64 arithmetic used by the percentile index *)

Module Float64.

Definition prec : Z := 53.
Definition emax : Z := 1024.

(** [float(n)] for a Python [int]: the nearest binary64 value, ties to
    even; CPython raises [OverflowError] when the result is not finite. *)
Definition float_of_int (n : Z) : option spec_float :=
  match binary_normalize prec emax n 0 false with
  | S754_infinity _ | S754_nan => None
  | x => Some x
  end.

(** [int(x)]: truncation toward zero; [OverflowError] on an infinity and
    [ValueError] on a NaN. *)
Definition int_of_float (x : spec_float) : option Z :=
  match x with
  | S754_zero _ => Some 0
  | S754_finite s m e =>
      let a := if 0 <=? e then Zpos m * 2 ^ e else Zpos m / 2 ^ (- e) in
      Some (if s then - a else a)
  | S754_infinity _ | S754_nan => None
  end.

(** The literals [0.95] and [0.99] as parsed by Python: the nearest
    binary64 values, [0x1.e666666666666p-1] and [0x1.fae147ae147aep-1]. *)
Definition lit_0_95 : spec_float := S754_finite false 8556839292003942 (-53).
Definition lit_0_99 : spec_float := S754_finite false 8917127262193582 (-53).

(** [int(n * c)] for an [int] [n] and a [float] [c]. *)
Definition int_mul (n : Z) (c : spec_float) : option Z :=
  match float_of_int n with
  | Some x => int_of_float (SFmul prec emax x c)
  | None => None
  end.

(** The mantissa left after dropping the [k] low bits of [m], rounded to
    nearest with ties to even: what [shr] followed by
    [round_nearest_even] computes. *)
Definition round_mant (m k : Z) : Z :=
  let q := m / 2 ^ k in
  let r := m mod 2 ^ k in
  match 2 * r ?= 2 ^ k with
  | Lt => q
  | Gt => q + 1
  | Eq => if Z.even q then q else q + 1
  end.

End Float64.

(** ** Python built-ins used by the aggregator *)

Local Open Scope Q_scope.

#[global] Instance Qle_dec (x y : Q) : Decision (x <= y) :=
  match Qlt_le_dec y x with
  | left H => right (Qlt_not_le _ _ H)
  | right H => left H
  end.

#[global] Instance Qlt_dec (x y : Q) : Decision (x < y) :=
  match Qlt_le_dec x y with
  | left H => left H
  | right H => right (Qle_not_lt _ _ H)
  end.

(** ** Python floats as values

    The result of a float operation: a finite value or an infinity.  (No
    operation used here yields a NaN from finite operands.) *)
Inductive float64 : Type :=
  | Finite (q : Q)
  | Infinite (negative : bool).

(** [x == y] and [x <= y] on floats. *)
Definition float64_eq (x y : float64) : Prop :=
  match x, y with
  | Finite a, Finite b => a == b
  | Infinite s, Infinite t => s = t
  | _, _ => False
  end.

#[global] Instance float64_eq_dec (x y : float64) : Decision (float64_eq x y).
Proof.
  destruct x as [a|s], y as [b|t]; cbn.
  - exact (Qeq_dec a b).
  - right. intros [].
  - right. intros [].
  - exact (decide (s = t)).
Defined.

Definition float64_le (x y : float64) : Prop :=
  match x, y with
  | Finite a, Finite b => a <= b
  | Infinite true, _ => True
  | _, Infinite false => True
  | _, _ => False
  end.

Definition pow2 (k : Z) : Q := 2 ^ k.
#[global] Arguments pow2 : simpl never.

(** The exponent of the smallest positive binary64 value, [2^-1074]. *)
Definition float64_emin : Z := -1074.

(** [floor (log2 a)] for a positive [a]. *)
Definition ilog2 (a : Q) : Z :=
  let k := (Z.log2 (Qnum a) - Z.log2 (Zpos (Qden a)))%Z in
  if decide (pow2 k <= a) then k else (k - 1)%Z.

(** The integer nearest to [x], the even one of two equally near. *)
Definition round_half_even (x : Q) : Z :=
  let f := Qfloor x in
  match Qcompare (x - inject_Z f) (1 # 2) with
  | Lt => f
  | Gt => (f + 1)%Z
  | Eq => if Z.even f then f else (f + 1)%Z
  end.

(** The multiple of the unit in the last place nearest to a positive
    [a]: 53 significant bits, or a multiple of [2^-1074] for a subnormal
    value. *)
Definition round_magnitude (a : Q) : Q :=
  let e := Z.max (ilog2 a - 52) float64_emin in
  inject_Z (round_half_even (a / pow2 e)) * pow2 e.

(** IEEE 754 rounding to binary64, to nearest with ties to even: what a
    float operation returns for the exact result [q].  A rounded
    magnitude of [2^1024] or more overflows to an infinity. *)
Definition round64 (q : Q) : float64 :=
  let q := Qred q in
  match Qnum q with
  | Z0 => Finite 0
  | Zpos _ =>
      let r := round_magnitude q in
      if decide (pow2 1024 <= r) then Infinite false else Finite (Qred r)
  | Zneg _ =>
      let r := round_magnitude (- q) in
      if decide (pow2 1024 <= r) then Infinite true else Finite (Qred (- r))
  end.

(** The rationals that are values of finite binary64 floats. *)
Definition is_binary64 (q : Q) : Prop := float64_eq (round64 q) (Finite q).

#[global] Instance is_binary64_dec (q : Q) : Decision (is_binary64 q).
Proof. unfold is_binary64. apply _. Defined.

(** The values with at most 53 significant bits above [2^-1074]: the
    binary64 values, and those beyond the largest of them. *)
Definition in_format (q : Q) : Prop :=
  exists m e, q == inject_Z m * pow2 e /\ (Z.abs m <= 2 ^ 53)%Z /\ (float64_emin <= e)%Z.

(** [x + y] and [x / d] on floats, for finite [x], [y] and a nonzero
    finite [d]. *)
Definition float_add (x y : Q) : float64 := round64 (x + y).

Definition float_div (x : float64) (d : Q) : float64 :=
  match x with
  | Finite a => round64 (a / d)
  | Infinite s => Infinite (xorb s (bool_decide (d < 0)))
  end.

(** The value of a [SpecFloat] datum, to compare [round64] with the
    IEEE 754 operations of [SpecFloat]. *)
Definition spec_value (x : spec_float) : option float64 :=
  match x with
  | S754_zero _ => Some (Finite 0)
  | S754_finite s m e =>
      Some (Finite (Qred ((if s then - (1) else 1) * inject_Z (Zpos m) * pow2 e)))
  | S754_infinity s => Some (Infinite s)
  | S754_nan => None
  end.

(** The largest length of a CPython list ([sys.maxsize]). *)
Definition PY_SSIZE_T_MAX : Z := 2 ^ 63 - 1.

(** [sorted(xs)]: the ascending rearrangement of [xs]. *)
Definition sorted (xs : list Q) : list Q := merge_sort Qle xs.

(** [xs[i]] for a list: a negative index counts from the end, an index
    out of range raises [IndexError]. *)
Definition py_index {A} (xs : list A) (i : Z) : option A :=
  let n := Z.of_nat (length xs) in
  if decide (0 <= i)%Z then xs !! Z.to_nat i
  else if decide (- n <= i)%Z then xs !! Z.to_nat (n + i)
  else None.

(** [min(xs)] and [max(xs)]: a left-to-right scan that keeps the first
    extremal element; [ValueError] on an empty list. *)
Definition py_min (xs : list Q) : option Q :=
  match xs with
  | [] => None
  | x :: xs' => Some (fold_left (fun m y => if decide (y < m) then y else m) xs' x)
  end.

Definition py_max (xs : list Q) : option Q :=
  match xs with
  | [] => None
  | x :: xs' => Some (fold_left (fun m y => if decide (m < y) then y else m) xs' x)
  end.

Definition py_sum (xs : list Q) : Q := fold_left Qplus xs 0.

(** [statistics.mean(xs)]: the data are summed exactly (as fractions)
    and the exact quotient by the count is converted to a float, that is
    rounded once; [StatisticsError] on empty data.  (The conversion of a
    quotient out of range raises; on binary64 data the quotient lies
    between the extremes of the sample, see [statistics_mean_bounds].) *)
Definition statistics_mean (xs : list Q) : option float64 :=
  match xs with
  | [] => None
  | _ => Some (round64 (py_sum xs / inject_Z (Z.of_nat (length xs))))
  end.

(** [statistics.median(xs)]: the middle element of the sorted data, or
    [(data[i - 1] + data[i]) / 2] in float arithmetic when the count is
    even; [StatisticsError] on empty data. *)
Definition statistics_median (xs : list Q) : option float64 :=
  let data := sorted xs in
  let n := length data in
  if decide (n = 0%nat) then None
  else if decide (n mod 2 = 1)%nat then Finite <$> data !! (n / 2)%nat
  else
    let i := (n / 2)%nat in
    a ← data !! (i - 1)%nat; b ← data !! i; Some (float_div (float_add a b) 2).

(** ** The statistics aggregator *)

Record LatencyStats : Type := mkLatencyStats {
  mean : float64;
  median : float64;
  p95 : Q;
  p99 : Q;
  min_val : Q;
  max_val : Q
}.

(** [sorted_lats[int(n * c)] if n > 1 else sorted_lats[0]] *)
Definition percentile (sorted_lats : list Q) (c : spec_float) : option Q :=
  let n := Z.of_nat (length sorted_lats) in
  if decide (1 < n)%Z then i ← Float64.int_mul n c; py_index sorted_lats i
  else py_index sorted_lats 0.

Definition calculate_stats (latencies : list Q) : option LatencyStats :=
  match latencies with
  | [] => Some (mkLatencyStats (Finite 0) (Finite 0) 0 0 0 0)
  | _ =>
      let sorted_lats := sorted latencies in
      mean ← statistics_mean latencies;
      median ← statistics_median latencies;
      p95 ← percentile sorted_lats Float64.lit_0_95;
      p99 ← percentile sorted_lats Float64.lit_0_99;
      min_val ← py_min latencies;
      max_val ← py_max latencies;
      Some (mkLatencyStats mean median p95 p99 min_val max_val)
  end.

(** The nearest-rank percentile of the specification: the 1-indexed rank
    [ceil (n * num / den)] in the ascending sample. *)
Definition nearest_rank (n num den : Z) : Z := (n * num + den - 1) / den.

Definition nearest_rank_value (xs : list Q) (num den : Z) : option Q :=
  sorted xs !! Z.to_nat (nearest_rank (Z.of_nat (length xs)) num den - 1).

(** The sample 1, 2, ..., 20. *)
Definition one_to_twenty : list Q :=
  map (fun k => inject_Z (Z.of_nat k)) (seq 1 20).

(** The sample of [explain_metrics]: 99 requests of 10 ms, one of 1000 ms. *)
Definition one_outlier : list Q := repeat (10 # 1) 99 ++ [1000 # 1].

(** ** The remote store client *)

(** A parsed JSON document. *)
#[local] Unset Elimination Schemes.
Inductive json : Type :=
  | JNull
  | JBool (b : bool)
  | JNum (q : Q)
  | JStr (s : string)
  | JArr (items : list json)
  | JObj (fields : list (string * json)).
#[local] Set Elimination Schemes.

(** Python truth value of a parsed JSON document. *)
Definition truthy (v : json) : bool :=
  match v with
  | JNull => false
  | JBool b => b
  | JNum q => negb (Qeq_bool q 0)
  | JStr EmptyString => false
  | JStr _ => true
  | JArr [] => false
  | JArr _ => true
  | JObj [] => false
  | JObj _ => true
  end.

(** The value bound to [key] in a JSON object; the decoder keeps the last
    binding of a repeated name. *)
Fixpoint obj_lookup (fields : list (string * json)) (key : string) : option json :=
  match fields with
  | [] => None
  | (k, v) :: rest =>
      match obj_lookup rest key with
      | Some v' => Some v'
      | None => if decide (k = key) then Some v else None
      end
  end.

(** [data.get(key)]: [None] (here [JNull]) when the key is absent; on a
    document that is not an object the attribute lookup raises. *)
Definition json_get (data : json) (key : string) : option json :=
  match data with
  | JObj fields => Some (default JNull (obj_lookup fields key))
  | _ => None
  end.

(** [try: body except Exception: handler] *)
Definition try_except {A} (body : option A) (handler : option A) : option A :=
  match body with
  | Some v => Some v
  | None => handler
  end.

(** What the store answers to one request: the status line and what
    [await resp.json()] yields ([None] when decoding raises). *)
Record response : Type := mkResponse {
  status : Z;
  body : option json
}.

(** What one [session.post] observes: [None] when the transport raises,
    otherwise the reading of [time.perf_counter()] on return and the
    response. *)
Definition post_outcome : Type := option (Q * response).

(** The value [write_key] returns for a failed write. *)
Definition FAILED : Q := - (1).

(** [write_key], given the clock reading [start] of line 71 and what the
    request observes.  The result is [None] if an exception leaves the
    function. *)
Definition write_key (start : Q) (post : post_outcome) : option Q :=
  try_except
    ('(now, resp) ← post;
     let elapsed := now - start in
     if decide (status resp = 200%Z) then
       data ← body resp;
       success ← json_get data "success";
       if truthy success then Some elapsed else Some FAILED
     else Some FAILED)
    (Some FAILED).

(** The Python values that count as false in [if data.get("success")]:
    [None], [False], a zero number and the empty string, list and dict. *)
Definition python_false (v : json) : Prop :=
  v = JNull \/ v = JBool false \/ (exists q, v = JNum q /\ q == 0)
  \/ v = JStr EmptyString \/ v = JArr [] \/ v = JObj [].

(** The specification's wording, "the response body explicitly signals
    success": status 200 and a body that is an object whose [success]
    member is the JSON value [true]. *)
Definition explicit_success (post : post_outcome) : Prop :=
  exists now resp fields,
    post = Some (now, resp) /\ status resp = 200%Z
    /\ body resp = Some (JObj fields)
    /\ obj_lookup fields "success" = Some (JBool true).

(** The write is classified as a success by [write_key]: status 200 and a
    decoded object whose [success] member has a true Python truth value. *)
Definition signals_success (post : post_outcome) : bool :=
  match post with
  | Some (_, resp) =>
      if decide (status resp = 200%Z) then
        match body resp with
        | Some (JObj fields) => truthy (default JNull (obj_lookup fields "success"))
        | _ => false
        end
      else false
  | None => false
  end.

(** The duration a write measures when it gets a response. *)
Definition elapsed_of (start : Q) (post : post_outcome) : option Q :=
  '(now, _) ← post; Some (now - start).

(** [set_quorum]: the observation is the status of the [/config] request,
    or [None] when the transport raises. *)
Definition set_quorum (config : option Z) : bool :=
  match config with
  | Some st => bool_decide (st = 200%Z)
  | None => false
  end.

(** ** The bounded write driver *)

(** One write as the driver sees it: the clock reading when the write
    starts and what its request observes. *)
Record observation : Type := mkObservation {
  obs_start : Q;
  obs_post : post_outcome
}.

(** The tasks of lines 106-110, in creation order. *)
Definition write_tasks (keys : list string) (num_writes_per_key : nat)
  : list (string * nat) :=
  i ← seq 0 num_writes_per_key; (fun key => (key, i)) <$> keys.

(** [asyncio.gather]: the results in task order; an exception raised by a
    task propagates. *)
Definition gather (obs : list observation) : option (list Q) :=
  mapM (fun o => write_key (obs_start o) (obs_post o)) obs.

(** Lines 113-120: wait for all the tasks, then keep the nonnegative
    results. *)
Definition collect (obs : list observation) : option (list Q) :=
  results ← gather obs;
  Some (filter (fun latency => 0 <= latency) results).

(** [run_concurrent_writes].  The world is given as the observation of
    each task, by task index: every request is answered or fails.  The
    result is [None] when the call yields no value: an exception
    propagates or, with a semaphore of zero slots and at least one task,
    no task ever starts and [gather] never completes. *)
Definition run_concurrent_writes (world : nat -> observation)
    (keys : list string) (num_writes_per_key : nat) (concurrency : nat)
  : option (list Q) :=
  let tasks := write_tasks keys num_writes_per_key in
  match concurrency, tasks with
  | O, _ :: _ => None
  | _, _ => collect (imap (fun idx _ => world idx) tasks)
  end.

(** The clock of [time.perf_counter()] does not go backwards. *)
Definition monotone_clock (o : observation) : Prop :=
  forall now resp, obs_post o = Some (now, resp) -> obs_start o <= now.

(** The duration of a write classified as a success. *)
Definition success_latency (o : observation) : option Q :=
  if signals_success (obs_post o) then elapsed_of (obs_start o) (obs_post o) else None.

(** ** The consistency checker *)

Section Consistency.
(** The values stored under a key, compared with [==]. *)
Context {V : Type} `{EqDecision V}.

(** A dump: the JSON object of [/dump] as a Python [dict], that is its
    items in insertion order. *)
Definition dump : Type := list (string * V).

(** [d.get(k)] / [k in d] on a dump. *)
Fixpoint dump_get (d : dump) (k : string) : option V :=
  match d with
  | [] => None
  | (k', v) :: rest => if decide (k' = k) then Some v else dump_get rest k
  end.

(** [get_all_data]: the dump of a node, or the empty dict when the
    request fails, the status is not 200 or the body does not decode. *)
Definition get_all_data (resp : option (Z * option dump)) : dump :=
  match resp with
  | Some (st, Some d) => if decide (st = 200%Z) then d else []
  | _ => []
  end.

(** The loop state of lines 166-168. *)
Record tally : Type := mkTally {
  matching_count_acc : nat;
  mismatched_values_acc : list string;
  missing_keys_acc : list string
}.

(** One iteration of the loop of lines 170-176, on the leader item
    [(k, leader_data[k])]. *)
Definition tally_key (follower_data : dump) (t : tally) (item : string * V) : tally :=
  let '(k, v) := item in
  match dump_get follower_data k with
  | None =>
      mkTally (matching_count_acc t) (mismatched_values_acc t) (missing_keys_acc t ++ [k])
  | Some v' =>
      if decide (v = v')
      then mkTally (S (matching_count_acc t)) (mismatched_values_acc t) (missing_keys_acc t)
      else mkTally (matching_count_acc t) (mismatched_values_acc t ++ [k]) (missing_keys_acc t)
  end.

Definition tally_all (leader_data follower_data : dump) : tally :=
  fold_left (tally_key follower_data) leader_data (mkTally 0 [] []).

(** The record appended to [results["followers"]]. *)
Record follower_report : Type := mkFollowerReport {
  follower : string;
  keys : nat;
  matches_leader : bool;
  matching_count : nat;
  mismatched_values : nat;
  missing_keys : nat;
  mismatched_examples : list string
}.

(** The body of the loop of lines 162-188 for follower number [i]. *)
Definition check_follower (i : nat) (leader_data follower_data : dump) : follower_report :=
  let t := tally_all leader_data follower_data in
  let is_consistent :=
    bool_decide (length (mismatched_values_acc t) = 0%nat)
    && bool_decide (length (missing_keys_acc t) = 0%nat) in
  mkFollowerReport
    ("f" +:+ pretty i)
    (length follower_data)
    is_consistent
    (matching_count_acc t)
    (length (mismatched_values_acc t))
    (length (missing_keys_acc t))
    (take 3 (mismatched_values_acc t)).

Record consistency_report : Type := mkConsistencyReport {
  leader_keys : nat;
  followers : list follower_report
}.

(** [check_consistency], given what each [/dump] request observes. *)
Definition check_consistency (leader_resp : option (Z * option dump))
    (follower_resps : list (option (Z * option dump))) : consistency_report :=
  let leader_data := get_all_data leader_resp in
  mkConsistencyReport
    (length leader_data)
    (imap (fun i resp => check_follower (S i) leader_data (get_all_data resp))
          follower_resps).

(** The three classes of the specification. *)
Inductive key_class : Type := Matching | Mismatched | Missing.

#[global] Instance key_class_eq_dec : EqDecision key_class.
Proof. solve_decision. Defined.

(** The class of a leader item as the specification words it: missing
    when the key is absent from the follower, matching when the values
    are equal, mismatched when the key is present with another value. *)
Definition class_of (follower_data : dump) (item : string * V) : key_class :=
  match dump_get follower_data item.1 with
  | None => Missing
  | Some v' => if decide (item.2 = v') then Matching else Mismatched
  end.

Definition keys_of_class (c : key_class) (leader_data follower_data : dump)
  : list string :=
  fst <$> filter (fun item => class_of follower_data item = c) leader_data.

End Consistency.

(** ** The campaign orchestrator *)

Definition NUM_KEYS : nat := 10.
Definition NUM_WRITES_PER_KEY : nat := 10.
Definition CONCURRENT_WRITES : nat := 10.
Definition QUORUM_VALUES : list Z := [1; 2; 3; 4; 5]%Z.

(** [[f"key_{i}" for i in range(NUM_KEYS)]] *)
Definition campaign_keys : list string :=
  (fun i => "key_" +:+ pretty i) <$> seq 0 NUM_KEYS.

(** What the store does during one iteration of the sweep: the outcome
    of the [/config] request and the observation of each write. *)
Record trial : Type := mkTrial {
  config_outcome : option Z;
  writes : nat -> observation
}.

(** The state of the loop of lines 204-232: the [all_stats] dict and, for
    the record, the quorum values whose workload was run. *)
Record sweep_state : Type := mkSweep {
  all_stats : gmap Z LatencyStats;
  tested : list Z
}.

(** One iteration of the sweep, for [quorum] against the world [tr]. *)
Definition sweep_step (st : sweep_state) (quorum : Z) (tr : trial) : option sweep_state :=
  if negb (set_quorum (config_outcome tr)) then Some st
  else
    latencies ← run_concurrent_writes (writes tr) campaign_keys NUM_WRITES_PER_KEY
                   CONCURRENT_WRITES;
    let tested' := tested st ++ [quorum] in
    match latencies with
    | [] => Some (mkSweep (all_stats st) tested')
    | _ =>
        stats ← calculate_stats latencies;
        Some (mkSweep (<[quorum := stats]> (all_stats st)) tested')
    end.

Fixpoint sweep (st : sweep_state) (iter : nat) (quorums : list Z)
    (world : nat -> trial) : option sweep_state :=
  match quorums with
  | [] => Some st
  | quorum :: quorums' =>
      st' ← sweep_step st quorum (world iter); sweep st' (S iter) quorums' world
  end.

(** The loop of lines 204-232 over [QUORUM_VALUES]; [world i] is what
    the store does during iteration [i]. *)
Definition quorum_sweep (world : nat -> trial) : option sweep_state :=
  sweep (mkSweep ∅ []) 0 QUORUM_VALUES world.

(** [run_analysis]: the sweep, then one consistency check; the function
    returns [all_stats] as the sweep left it (the report is printed and
    the statistics are handed to [plot_results], which is not modelled). *)
Definition run_analysis {V : Type} `{EqDecision V} (world : nat -> trial)
    (leader_resp : option (Z * option (@dump V)))
    (follower_resps : list (option (Z * option (@dump V))))
  : option (gmap Z LatencyStats * consistency_report) :=
  st ← quorum_sweep world;
  let consistency := check_consistency leader_resp follower_resps in
  Some (all_stats st, consistency).

(** An iteration whose quorum was set and whose workload returned a
    non-empty sample. *)
Definition productive (tr : trial) : Prop :=
  set_quorum (config_outcome tr) = true
  /\ exists latencies,
       run_concurrent_writes (writes tr) campaign_keys NUM_WRITES_PER_KEY
         CONCURRENT_WRITES = Some latencies
       /\ latencies <> [].

(** ** The concurrency limiter

    [bounded_write] runs [write_key] inside [async with semaphore].  The
    event loop interleaves the tasks at their suspension points; the
    semaphore is its counter: [acquire] proceeds only when the counter is
    positive and decrements it, [release] increments it. *)

(** Where a task stands, with the clock readings it has taken so far. *)
Inductive task_state : Type :=
  | Waiting
    (** created, or suspended in [semaphore.acquire()] *)
  | Acquired (t_acquire : Q)
    (** slot held, [write_key] not yet entered *)
  | Timing (t_acquire start : Q)
    (** lines 71-76: [start] is read, the request is in flight *)
  | ReadingBody (t_acquire start stop : Q) (resp : response)
    (** line 79: [elapsed] is computed, [resp.json()] is awaited *)
  | Done (t_acquire start : Q) (post : post_outcome) (t_release : Q).
    (** returned and slot released; [post] is what the request observed *)

Record driver_state : Type := mkDriver {
  clock : Q;
  sem_value : nat;
  tasks : list task_state
}.

Definition holds_slot (t : task_state) : bool :=
  match t with
  | Acquired _ | Timing _ _ | ReadingBody _ _ _ _ => true
  | Waiting | Done _ _ _ _ => false
  end.

(** Between the read of [start] and the computation of [elapsed]. *)
Definition in_timed_region (t : task_state) : bool :=
  match t with
  | Timing _ _ => true
  | _ => false
  end.

(** The number of tasks that satisfy [p]. *)
Definition count (p : task_state -> bool) (ts : list task_state) : nat :=
  sum_list_with (fun t => if p t then 1%nat else 0%nat) ts.

(** The suspension points a task still has to pass. *)
Definition remaining (t : task_state) : nat :=
  match t with
  | Waiting => 4
  | Acquired _ => 3
  | Timing _ _ => 2
  | ReadingBody _ _ _ _ => 1
  | Done _ _ _ _ => 0
  end.

Inductive step : driver_state -> driver_state -> Prop :=
  | step_tick now now' v ts :
      now <= now' ->
      step (mkDriver now v ts) (mkDriver now' v ts)
  | step_acquire now v ts i :
      ts !! i = Some Waiting ->
      step (mkDriver now (S v) ts) (mkDriver now v (<[i := Acquired now]> ts))
  | step_start now v ts i ta :
      ts !! i = Some (Acquired ta) ->
      step (mkDriver now v ts) (mkDriver now v (<[i := Timing ta now]> ts))
  | step_transport_error now v ts i ta start :
      ts !! i = Some (Timing ta start) ->
      step (mkDriver now v ts)
           (mkDriver now (S v) (<[i := Done ta start None now]> ts))
  | step_response_not_ok now v ts i ta start resp :
      ts !! i = Some (Timing ta start) -> status resp <> 200%Z ->
      step (mkDriver now v ts)
           (mkDriver now (S v) (<[i := Done ta start (Some (now, resp)) now]> ts))
  | step_response_ok now v ts i ta start resp :
      ts !! i = Some (Timing ta start) -> status resp = 200%Z ->
      step (mkDriver now v ts)
           (mkDriver now v (<[i := ReadingBody ta start now resp]> ts))
  | step_body now v ts i ta start stop resp :
      ts !! i = Some (ReadingBody ta start stop resp) ->
      step (mkDriver now v ts)
           (mkDriver now (S v) (<[i := Done ta start (Some (stop, resp)) now]> ts)).

(** The driver right after line 110: [Semaphore(concurrency)] and one
    task per (repetition, key) pair, none started. *)
Definition driver_init (t0 : Q) (concurrency : nat) (keys : list string)
    (num_writes_per_key : nat) : driver_state :=
  mkDriver t0 concurrency ((fun _ => Waiting) <$> write_tasks keys num_writes_per_key).

Definition reachable (s0 s : driver_state) : Prop := rtc step s0 s.

(** The clock readings of a task are in program order, and the measured
    interval lies inside the interval during which the slot is held. *)
Definition well_timed (now : Q) (t : task_state) : Prop :=
  match t with
  | Waiting => True
  | Acquired ta => ta <= now
  | Timing ta start => ta <= start /\ start <= now
  | ReadingBody ta start stop _ => ta <= start /\ start <= stop /\ stop <= now
  | Done ta start post tr =>
      ta <= start /\ start <= tr /\ tr <= now
      /\ forall stop resp, post = Some (stop, resp) -> start <= stop /\ stop <= tr
  end.

(** The invariant of the driver created with [Semaphore(c)]: the counter
    plus the slots held is [c], and every task is well timed. *)
Definition driver_inv (c : nat) (s : driver_state) : Prop :=
  (sem_value s + count holds_slot (tasks s))%nat = c
  /\ Forall (well_timed (clock s)) (tasks s).

Definition work_left (s : driver_state) : nat := sum_list_with remaining (tasks s).

(** What a finished task hands to [gather]. *)
Definition task_observation (t : task_state) : option observation :=
  match t with
  | Done _ start post _ => Some (mkObservation start post)
  | _ => None
  end.

(** What [run_concurrent_writes] returns from a state of the driver:
    nothing as long as a task is unfinished. *)
Definition driver_result (s : driver_state) : option (list Q) :=
  obs ← mapM task_observation (tasks s); collect obs.

(** ** Sample worlds *)

(** A write acknowledged one second after it starts. *)
Definition acknowledged (start : Q) : observation :=
  mkObservation start
    (Some (start + 1, mkResponse 200 (Some (JObj [("success", JBool true)])))).

(** A write whose request raises. *)
Definition unreachable (start : Q) : observation := mkObservation start None.

(** Even-numbered tasks are acknowledged, odd-numbered ones fail. *)
Definition every_other_write (idx : nat) : observation :=
  if Nat.even idx then acknowledged (inject_Z (Z.of_nat idx))
  else unreachable (inject_Z (Z.of_nat idx)).

Definition unreachable_writes (idx : nat) : observation :=
  unreachable (inject_Z (Z.of_nat idx)).

(** A campaign in which the second [/config] request is refused and no
    write of the fourth iteration succeeds. *)
Definition sample_campaign (iter : nat) : trial :=
  match iter with
  | 1%nat => mkTrial (Some 503%Z) every_other_write
  | 3%nat => mkTrial (Some 200%Z) unreachable_writes
  | _ => mkTrial (Some 200%Z) every_other_write
  end.

(** * Facts *)

(** ** Rounding in binary64 *)

Section Float64Facts.
Import Float64.
Local Open Scope Z_scope.

(** [iter_pos] is plain iteration. *)
Lemma iter_pos_nat {A} (f : A -> A) p x :
  SpecFloat.iter_pos f p x = Nat.iter (Pos.to_nat p) f x.
Proof.
  revert x. induction p as [p IH|p IH|]; intros x; cbn [SpecFloat.iter_pos].
  - rewrite !IH, Pos2Nat.inj_xI, <- Nat.iter_add, <- Nat.iter_succ_r.
    f_equal. lia.
  - rewrite !IH, Pos2Nat.inj_xO, <- Nat.iter_add. f_equal. lia.
  - reflexivity.
Qed.

(** One right shift of a nonnegative mantissa: the bit shifted out becomes
    the round bit and the old round bit joins the sticky bit. *)
Lemma shr_1_nonneg m r s : 0 <= m ->
  shr_1 (Build_shr_record m r s) = Build_shr_record (m / 2) (Z.odd m) (r || s).
Proof.
  intros Hm. destruct m as [|p|p]; [reflexivity| |lia].
  destruct p as [p|p|]; simpl shr_1.
  - f_equal. rewrite Pos2Z.inj_xI. apply Z.div_unique with 1; lia.
  - f_equal. rewrite Pos2Z.inj_xO. apply Z.div_unique with 0; lia.
  - reflexivity.
Qed.

(** After [k + 1] shifts the round bit is bit [k] of [m] and the sticky bit
    tells whether the [k] lower bits are all zero. *)
Lemma shr_iter m (k : nat) : 0 <= m ->
  Nat.iter (S k) shr_1 (Build_shr_record m false false) =
  Build_shr_record (m / 2 ^ (Z.of_nat k + 1)) (Z.odd (m / 2 ^ Z.of_nat k))
                   (negb (m mod 2 ^ Z.of_nat k =? 0)).
Proof.
  intros Hm. induction k as [|k IH].
  - change (Nat.iter 1 shr_1 ?x) with (shr_1 x).
    rewrite shr_1_nonneg by lia. cbn [Z.of_nat Z.add orb].
    change (2 ^ 0) with 1. change (2 ^ 1) with 2.
    rewrite Z.div_1_r, Z.mod_1_r. reflexivity.
  - rewrite Nat.iter_succ, IH. rewrite shr_1_nonneg by (apply Z.div_pos; lia).
    assert (Hp : 0 < 2 ^ Z.of_nat k) by (apply Z.pow_pos_nonneg; lia).
    replace (Z.of_nat (S k)) with (Z.of_nat k + 1) by lia.
    rewrite (Z.pow_add_r 2 (Z.of_nat k + 1) 1) by lia. change (2 ^ 1) with 2.
    rewrite Z.div_div by lia. f_equal.
    rewrite (Z.pow_add_r 2 (Z.of_nat k) 1) by lia. change (2 ^ 1) with 2.
    rewrite Z.rem_mul_r by lia.
    set (q := m / 2 ^ Z.of_nat k). set (r := m mod 2 ^ Z.of_nat k).
    assert (Hr : 0 <= r < 2 ^ Z.of_nat k) by (apply Z.mod_pos_bound; lia).
    rewrite (Zmod_odd q).
    destruct (Z.odd q); cbn [Z.b2z orb negb];
      destruct (Z.eqb_spec r 0) as [Hr0|Hr0];
      match goal with |- context [?a =? 0] => destruct (Z.eqb_spec a 0) end;
      cbn [negb orb]; try reflexivity; exfalso; nia.
Qed.

(** [digits2_pos m] is the bit length of [m]. *)
Lemma digits2_pos_bounds (m : positive) :
  2 ^ (Zpos (digits2_pos m) - 1) <= Zpos m < 2 ^ Zpos (digits2_pos m).
Proof.
  induction m as [m IH|m IH|]; cbn [digits2_pos].
  - rewrite Pos2Z.inj_succ. change (Zpos m~1) with (2 * Zpos m + 1).
    replace (Z.succ (Zpos (digits2_pos m)) - 1) with (Z.succ (Zpos (digits2_pos m) - 1)) by lia.
    rewrite !Z.pow_succ_r by lia.
    destruct IH as [IH1 IH2]. revert IH1 IH2.
    generalize (2 ^ (Zpos (digits2_pos m) - 1)) (2 ^ Zpos (digits2_pos m)). intros; lia.
  - rewrite Pos2Z.inj_succ. change (Zpos m~0) with (2 * Zpos m).
    replace (Z.succ (Zpos (digits2_pos m)) - 1) with (Z.succ (Zpos (digits2_pos m) - 1)) by lia.
    rewrite !Z.pow_succ_r by lia.
    destruct IH as [IH1 IH2]. revert IH1 IH2.
    generalize (2 ^ (Zpos (digits2_pos m) - 1)) (2 ^ Zpos (digits2_pos m)). intros; lia.
  - change (2 ^ (1 - 1)) with 1. change (2 ^ 1) with 2. lia.
Qed.

Lemma digits2_pos_unique (m : positive) (d : Z) :
  2 ^ (d - 1) <= Zpos m < 2 ^ d -> Zpos (digits2_pos m) = d.
Proof.
  intros [Hlo Hhi]. pose proof (digits2_pos_bounds m) as [Hlo' Hhi'].
  assert (0 < d).
  { destruct (Z_lt_le_dec 0 d); [assumption|].
    exfalso. assert (2 ^ d <= 2 ^ 0) by (apply Z.pow_le_mono_r; lia).
    change (2 ^ 0) with 1 in *. lia. }
  destruct (Z_lt_le_dec (Zpos (digits2_pos m)) d) as [Hlt|Hge].
  - assert (2 ^ Zpos (digits2_pos m) <= 2 ^ (d - 1)) by (apply Z.pow_le_mono_r; lia). lia.
  - destruct (Z_lt_le_dec d (Zpos (digits2_pos m))) as [Hlt|Hle]; [|lia].
    assert (2 ^ d <= 2 ^ (Zpos (digits2_pos m) - 1)) by (apply Z.pow_le_mono_r; lia). lia.
Qed.

(** Shifting by [k] bits and rounding to nearest even is [round_mant]. *)
Lemma shr_round (m : positive) (e k : Z) : 0 <= k ->
  let '(mrs, e') := shr (Build_shr_record (Zpos m) false false) e k in
  round_nearest_even (shr_m mrs) (loc_of_shr_record mrs) = round_mant (Zpos m) k
  /\ e' = e + k.
Proof.
  intros Hk. destruct k as [|p|p]; [| |lia]; cbn [shr].
  - cbn [shr_m loc_of_shr_record round_nearest_even]. unfold round_mant.
    change (2 ^ 0) with 1. rewrite Z.div_1_r, Z.mod_1_r. cbn. split; [reflexivity|lia].
  - split; [|reflexivity].
    rewrite iter_pos_nat.
    destruct (Pos2Nat.is_succ p) as [j Hj]. rewrite Hj.
    rewrite shr_iter by lia.
    assert (Hp : Zpos p = Z.of_nat j + 1) by lia.
    rewrite Hp. unfold round_mant.
    assert (H2j : 0 < 2 ^ Z.of_nat j) by (apply Z.pow_pos_nonneg; lia).
    rewrite (Z.pow_add_r 2 (Z.of_nat j) 1) by lia. change (2 ^ 1) with 2.
    rewrite <- Z.div_div by lia.
    rewrite Z.rem_mul_r by lia.
    set (a := Zpos m / 2 ^ Z.of_nat j). set (r := Zpos m mod 2 ^ Z.of_nat j).
    assert (Hr : 0 <= r < 2 ^ Z.of_nat j) by (apply Z.mod_pos_bound; lia).
    rewrite (Zmod_odd a). cbn [shr_m].
    destruct (Z.odd a); destruct (Z.eqb_spec r 0) as [Hr0|Hr0];
      cbn [negb loc_of_shr_record round_nearest_even];
      match goal with |- context [?x ?= ?y] => destruct (Z.compare_spec x y) end;
      try reflexivity; exfalso; lia.
Qed.

(** [round_mant] moves a mantissa by at most half a unit in the last place. *)
Lemma round_mant_bounds (m k : Z) : 0 <= k -> 0 <= m ->
  m / 2 ^ k <= round_mant m k <= m / 2 ^ k + 1 /\
  - 2 ^ k <= 2 * (round_mant m k * 2 ^ k - m) <= 2 ^ k.
Proof.
  intros Hk Hm. unfold round_mant.
  assert (Hp : 0 < 2 ^ k) by (apply Z.pow_pos_nonneg; lia).
  pose proof (Z.div_mod m (2 ^ k) ltac:(lia)) as Hdm.
  pose proof (Z.mod_pos_bound m (2 ^ k) Hp) as Hr.
  set (q := m / 2 ^ k) in *. set (r := m mod 2 ^ k) in *. set (b := 2 ^ k) in *.
  clearbody q r b.
  destruct (Z.compare_spec (2 * r) b); [destruct (Z.even q)| |]; nia.
Qed.

(** Rounding a mantissa of [53 + k] bits leaves 53 bits, or [2^53] on a
    carry. *)
Lemma round_mant_normal (m : positive) (k : Z) :
  k = Zpos (digits2_pos m) - 53 -> 0 <= k ->
  2 ^ 52 <= round_mant (Zpos m) k <= 2 ^ 53.
Proof.
  intros Hk Hk0.
  pose proof (digits2_pos_bounds m) as [Hlo Hhi].
  assert (Hp : 0 < 2 ^ k) by (apply Z.pow_pos_nonneg; lia).
  replace (Zpos (digits2_pos m) - 1) with (52 + k) in Hlo by lia.
  replace (Zpos (digits2_pos m)) with (53 + k) in Hhi by lia.
  rewrite Z.pow_add_r in Hlo, Hhi by lia.
  destruct (round_mant_bounds (Zpos m) k Hk0 ltac:(lia)) as [[Hq1 Hq2] _].
  assert (2 ^ 52 <= Zpos m / 2 ^ k) by (apply Z.div_le_lower_bound; lia).
  assert (Zpos m / 2 ^ k < 2 ^ 53) by (apply Z.div_lt_upper_bound; lia).
  lia.
Qed.

(** The exponent function of binary64 in the normal range. *)
Lemma fexp_normal (x : Z) : -1074 <= x - 53 -> fexp prec emax x = x - 53.
Proof. unfold fexp, emin, prec, emax. lia. Qed.

(** [binary_round_aux] on an exact mantissa of at least 53 bits in the
    normal range: round, and renormalise on a carry. *)
Lemma binary_round_aux_normal (m : positive) (e k : Z) :
  k = Zpos (digits2_pos m) - 53 -> 0 <= k -> -1074 <= e + k <= 970 ->
  binary_round_aux prec emax false (Zpos m) e loc_Exact =
    let m1 := round_mant (Zpos m) k in
    if m1 <? 2 ^ 53 then S754_finite false (Z.to_pos m1) (e + k)
    else S754_finite false (Z.to_pos (2 ^ 52)) (e + k + 1).
Proof.
  intros Hk Hk0 He. unfold binary_round_aux.
  unfold shr_fexp at 1. cbn [Zdigits2 shr_record_of_loc].
  rewrite (fexp_normal (Z.pos (digits2_pos m) + e)) by lia.
  replace (Zpos (digits2_pos m) + e - 53 - e) with k by lia.
  pose proof (shr_round m e k Hk0) as Hs.
  destruct (shr _ e k) as [mrs e'].
  destruct Hs as [Hs ->]. rewrite Hs. clear Hs mrs.
  pose proof (round_mant_normal m k Hk Hk0) as Hn.
  cbv zeta. set (m1 := round_mant (Zpos m) k) in *.
  destruct (Z.ltb_spec m1 (2 ^ 53)) as [Hlt|Hge].
  - destruct m1 as [|p|p] eqn:Hm1; try lia.
    assert (Hd : Zpos (digits2_pos p) = 53) by (apply digits2_pos_unique; change (53 - 1) with 52; lia).
    unfold shr_fexp. cbn [Zdigits2 shr_record_of_loc]. rewrite Hd.
    rewrite fexp_normal by lia.
    replace (53 + (e + k) - 53 - (e + k)) with 0 by lia.
    cbn [shr shr_m]. 
    replace (e + k <=? emax - prec) with true; [reflexivity|].
    symmetry. apply Z.leb_le. unfold emax, prec. lia.
  - assert (Hm1 : m1 = 2 ^ 53) by lia. rewrite Hm1.
    unfold shr_fexp. change (Zdigits2 (2 ^ 53)) with 54.
    rewrite fexp_normal by lia.
    replace (54 + (e + k) - 53 - (e + k)) with 1 by lia.
    cbn [shr shr_record_of_loc SpecFloat.iter_pos].
    change (shr_m (shr_1 _)) with (2 ^ 52).
    change (2 ^ 52) with (Zpos (Z.to_pos (2 ^ 52))) at 1. cbv iota beta.
    replace (e + k + 1 <=? emax - prec) with true; [reflexivity|].
    symmetry. apply Z.leb_le. unfold emax, prec. lia.
Qed.

End Float64Facts.

Section Float64Values.
Import Float64.
Local Open Scope Z_scope.

(** The result of [binary_round_aux], re-expressed at the input exponent,
    is the rounded mantissa. *)
Lemma binary_round_aux_value (m : positive) (e k : Z) :
  k = Zpos (digits2_pos m) - 53 -> 0 <= k -> -1074 <= e + k <= 970 ->
  exists m' e',
    binary_round_aux prec emax false (Zpos m) e loc_Exact = S754_finite false m' e'
    /\ e + k <= e' <= e + k + 1
    /\ 2 ^ 52 <= Zpos m' < 2 ^ 53
    /\ Zpos m' * 2 ^ (e' - e) = round_mant (Zpos m) k * 2 ^ k.
Proof.
  intros Hk Hk0 He.
  rewrite (binary_round_aux_normal m e k Hk Hk0 He). cbv zeta.
  pose proof (round_mant_normal m k Hk Hk0) as Hn.
  destruct (Z.ltb_spec (round_mant (Zpos m) k) (2 ^ 53)) as [Hlt|Hge].
  - eexists _, _. split; [reflexivity|].
    rewrite Z2Pos.id by lia.
    replace (e + k - e) with k by lia. repeat split; lia.
  - eexists _, _. split; [reflexivity|].
    replace (round_mant (Zpos m) k) with (2 ^ 53) by lia.
    replace (e + k + 1 - e) with (k + 1) by lia.
    rewrite Z.pow_add_r by lia. rewrite Z2Pos.id by lia.
    repeat split; lia.
Qed.

(** [int(x)] from the mantissa of [x] rescaled to an exponent [E <= 0]. *)
Lemma int_of_float_scaled (m : positive) (e E : Z) : E <= e -> E <= 0 ->
  int_of_float (S754_finite false m e) = Some ((Zpos m * 2 ^ (e - E)) / 2 ^ (- E)).
Proof.
  intros HE HE0. unfold int_of_float. f_equal.
  assert (H1 : 0 < 2 ^ (- E)) by (apply Z.pow_pos_nonneg; lia).
  destruct (Z.leb_spec 0 e) as [He|He].
  - replace (e - E) with (e + - E) by lia. rewrite Z.pow_add_r by lia.
    rewrite Z.mul_assoc, Z.div_mul by lia. reflexivity.
  - replace (- E) with ((e - E) + - e) by lia.
    assert (H2 : 0 < 2 ^ (e - E)) by (apply Z.pow_pos_nonneg; lia).
    assert (H3 : 0 < 2 ^ (- e)) by (apply Z.pow_pos_nonneg; lia).
    rewrite Z.pow_add_r by lia.
    rewrite (Z.mul_comm (Zpos m)), Z.div_mul_cancel_l by lia. reflexivity.
Qed.

(** [Pos.iter xO] is a left shift. *)
Lemma pos_iter_xO (n p : positive) : Zpos (Pos.iter xO n p) = Zpos n * 2 ^ Zpos p.
Proof.
  induction p as [|p IH] using Pos.peano_ind.
  - cbn [Pos.iter]. change (2 ^ 1) with 2. lia.
  - rewrite Pos.iter_succ, Pos2Z.inj_succ, Z.pow_succ_r by lia.
    change (Zpos (Pos.iter xO n p)~0) with (2 * Zpos (Pos.iter xO n p)). lia.
Qed.

(** [float(n)] is exact below [2^53]. *)
Lemma float_of_int_small (n : positive) (d : Z) :
  d = Zpos (digits2_pos n) -> d <= 53 ->
  float_of_int (Zpos n) =
    Some (S754_finite false (Z.to_pos (Zpos n * 2 ^ (53 - d))) (d - 53)).
Proof.
  intros Hd Hd53.
  pose proof (digits2_pos_bounds n) as [Hlo Hhi]. rewrite <- Hd in Hlo, Hhi.
  assert (H0 : 0 < 2 ^ (53 - d)) by (apply Z.pow_pos_nonneg; lia).
  assert (Hb : 2 ^ 52 <= Zpos n * 2 ^ (53 - d) < 2 ^ 53).
  { assert (E1 : 2 ^ 52 = 2 ^ (d - 1) * 2 ^ (53 - d))
      by (rewrite <- Z.pow_add_r by lia; f_equal; lia).
    assert (E2 : 2 ^ 53 = 2 ^ d * 2 ^ (53 - d))
      by (rewrite <- Z.pow_add_r by lia; f_equal; lia).
    rewrite E1, E2. nia. }
  unfold float_of_int, binary_normalize, binary_round.
  rewrite Z.add_0_r, <- Hd, fexp_normal by lia.
  assert (Hal : shl_align n 0 (d - 53) = (Z.to_pos (Zpos n * 2 ^ (53 - d)), d - 53)).
  { unfold shl_align. rewrite Z.sub_0_r.
    destruct (d - 53) as [|q|q] eqn:Hq; [|lia|].
    - replace (53 - d) with 0 by lia. change (2 ^ 0) with 1.
      rewrite Z.mul_1_r. reflexivity.
    - f_equal. apply Pos2Z.inj. rewrite pos_iter_xO, Z2Pos.id by lia.
      f_equal. f_equal. lia. }
  rewrite Hal.
  set (mz := Z.to_pos (Zpos n * 2 ^ (53 - d))).
  assert (Hmz : Zpos mz = Zpos n * 2 ^ (53 - d)) by (unfold mz; rewrite Z2Pos.id; lia).
  assert (Hdz : Zpos (digits2_pos mz) = 53).
  { apply digits2_pos_unique. change (53 - 1) with 52. lia. }
  rewrite (binary_round_aux_normal mz (d - 53) 0) by lia.
  cbv zeta. unfold round_mant. change (2 ^ 0) with 1.
  rewrite Z.div_1_r, Z.mod_1_r. change (2 * 0 ?= 1) with Lt. cbv iota.
  rewrite Z.add_0_r.
  destruct (Z.ltb_spec (Zpos mz) (2 ^ 53)); [|lia].
  rewrite Pos2Z.id. reflexivity.
Qed.

(** Above [2^53], [float(n)] is [n] rounded to 53 significant bits. *)
Lemma float_of_int_large (n : positive) (d : Z) :
  d = Zpos (digits2_pos n) -> 53 < d <= 1000 ->
  exists m1 e1,
    float_of_int (Zpos n) = Some (S754_finite false m1 e1)
    /\ d - 53 <= e1 <= d - 52
    /\ 2 ^ 52 <= Zpos m1 < 2 ^ 53
    /\ Zpos m1 * 2 ^ e1 = round_mant (Zpos n) (d - 53) * 2 ^ (d - 53).
Proof.
  intros Hd Hd53.
  unfold float_of_int, binary_normalize, binary_round.
  rewrite Z.add_0_r, <- Hd, fexp_normal by lia.
  assert (Hal : shl_align n 0 (d - 53) = (n, 0)).
  { unfold shl_align. rewrite Z.sub_0_r. destruct (d - 53) eqn:Hq; try reflexivity; lia. }
  rewrite Hal.
  destruct (binary_round_aux_value n 0 (d - 53)) as (m1 & e1 & -> & He1 & Hm1 & Hv); try lia.
  exists m1, e1. rewrite Z.sub_0_r in Hv. repeat split; try lia.
Qed.

End Float64Values.

Section Float64Index.
Import Float64.
Local Open Scope Z_scope.

(** Rounding to 53 bits moves a value by at most one part in [2^53]. *)
Lemma round_mant_rel (P k : Z) : 0 <= k -> 2 ^ (52 + k) <= P ->
  (2 ^ 53 - 1) * P <= 2 ^ 53 * (round_mant P k * 2 ^ k) <= (2 ^ 53 + 1) * P.
Proof.
  intros Hk HP.
  assert (H0 : 0 < 2 ^ k) by (apply Z.pow_pos_nonneg; lia).
  rewrite Z.pow_add_r in HP by lia.
  destruct (round_mant_bounds P k Hk ltac:(lia)) as [_ Hb].
  revert HP Hb. generalize (round_mant P k * 2 ^ k) (2 ^ k). intros R b HP Hb. lia.
Qed.

(** Bounds on a number bound its bit length. *)
Lemma pow2_digits_range (P : positive) (lo hi : Z) :
  2 ^ lo <= Zpos P < 2 ^ hi -> 0 <= lo -> lo < Zpos (digits2_pos P) <= hi.
Proof.
  intros [Hlo Hhi] H0.
  pose proof (digits2_pos_bounds P) as [Hl Hh]. split.
  - apply (Z.pow_lt_mono_r_iff 2); lia.
  - assert (Zpos (digits2_pos P) - 1 < hi); [|lia].
    assert (0 <= hi).
    { destruct (Z_lt_le_dec hi 0) as [Hn|]; [|lia].
      rewrite (Z.pow_neg_r 2 hi Hn) in Hhi. lia. }
    apply (Z.pow_lt_mono_r_iff 2); lia.
Qed.

(** [int(x * c)] for normal [x] and a constant [c] in [[1/2, 1)]. *)
Lemma int_of_mul (m1 M : positive) (e1 : Z) :
  2 ^ 52 <= Zpos m1 < 2 ^ 53 -> 2 ^ 52 <= Zpos M < 2 ^ 53 -> -900 <= e1 <= 53 ->
  exists k,
    52 <= k <= 53 /\ 2 ^ (52 + k) <= Zpos m1 * Zpos M < 2 ^ (53 + k) /\
    int_of_float (SFmul prec emax (S754_finite false m1 e1) (S754_finite false M (-53)))
    = Some ((round_mant (Zpos m1 * Zpos M) k * 2 ^ k) / 2 ^ (53 - e1)).
Proof.
  intros Hm1 HM He1. cbn [SFmul xorb].
  set (P := (m1 * M)%positive).
  assert (HP : 2 ^ 104 <= Zpos P < 2 ^ 106).
  { unfold P. rewrite Pos2Z.inj_mul.
    change (2 ^ 104) with (2 ^ 52 * 2 ^ 52). change (2 ^ 106) with (2 ^ 53 * 2 ^ 53).
    nia. }
  pose proof (pow2_digits_range P 104 106 HP ltac:(lia)) as Hd.
  pose proof (digits2_pos_bounds P) as HdP.
  set (k := Zpos (digits2_pos P) - 53).
  exists k. split; [unfold k; lia|].
  replace (52 + k) with (Zpos (digits2_pos P) - 1) by (unfold k; lia).
  replace (53 + k) with (Zpos (digits2_pos P)) by (unfold k; lia).
  rewrite <- Pos2Z.inj_mul. fold P. split; [exact HdP|].
  destruct (binary_round_aux_value P (e1 + -53) k) as (m' & e' & -> & He' & Hm' & Hv);
    [reflexivity|unfold k; lia|unfold k; lia|].
  rewrite (int_of_float_scaled m' e' (e1 + -53)) by lia.
  rewrite Hv. do 3 f_equal. lia.
Qed.

(** [float(n)] for a list length [n]: a normal number within one part in
    [2^53] of [n]. *)
Lemma float_of_int_approx (n : Z) : 0 < n < 2 ^ 63 ->
  exists m1 e1,
    float_of_int n = Some (S754_finite false m1 e1)
    /\ 2 ^ 52 <= Zpos m1 < 2 ^ 53 /\ -52 <= e1 <= 11
    /\ (2 ^ 53 - 1) * (n * 2 ^ (53 - e1)) <= 2 ^ 106 * Zpos m1
       <= (2 ^ 53 + 1) * (n * 2 ^ (53 - e1)).
Proof.
  intros Hn. destruct n as [|n|n]; try lia.
  pose proof (pow2_digits_range n 0 63 ltac:(change (2 ^ 0) with 1; lia) ltac:(lia)) as Hd.
  pose proof (digits2_pos_bounds n) as Hb.
  set (d := Zpos (digits2_pos n)) in *.
  destruct (Z_le_gt_dec d 53) as [Hs|Hl].
  - rewrite (float_of_int_small n d eq_refl Hs).
    assert (H0 : 0 < 2 ^ (53 - d)) by (apply Z.pow_pos_nonneg; lia).
    assert (E1 : 2 ^ 52 = 2 ^ (d - 1) * 2 ^ (53 - d))
      by (rewrite <- Z.pow_add_r by lia; f_equal; lia).
    assert (E2 : 2 ^ 53 = 2 ^ d * 2 ^ (53 - d))
      by (rewrite <- Z.pow_add_r by lia; f_equal; lia).
    eexists _, _. split; [reflexivity|].
    rewrite Z2Pos.id by lia.
    split; [rewrite E1, E2; nia|]. split; [lia|].
    replace (53 - (d - 53)) with ((53 - d) + 53) by lia.
    rewrite Z.pow_add_r by lia.
    revert H0. generalize (2 ^ (53 - d)). intros s Hs0.
    change (2 ^ 106) with (2 ^ 53 * 2 ^ 53). nia.
  - destruct (float_of_int_large n d eq_refl ltac:(lia)) as (m1 & e1 & -> & He1 & Hm1 & Hv).
    exists m1, e1. split; [reflexivity|]. split; [exact Hm1|]. split; [lia|].
    assert (Hrel := round_mant_rel (Zpos n) (d - 53) ltac:(lia)).
    replace (52 + (d - 53)) with (d - 1) in Hrel by lia.
    specialize (Hrel (proj1 Hb)). rewrite <- Hv in Hrel.
    assert (HW : 0 < 2 ^ (53 - e1)) by (apply Z.pow_pos_nonneg; lia).
    assert (HT : 2 ^ 53 = 2 ^ e1 * 2 ^ (53 - e1))
      by (rewrite <- Z.pow_add_r by lia; f_equal; lia).
    change (2 ^ 106) with (2 ^ 53 * 2 ^ 53). rewrite HT at 2 5.
    revert Hrel HW. generalize (2 ^ (53 - e1)) (2 ^ e1). intros W T Hrel HW.
    split.
    + apply Z.le_trans with (((2 ^ 53 - 1) * Zpos n) * W); [lia|].
      apply Z.le_trans with ((2 ^ 53 * (Zpos m1 * T)) * W); [|lia].
      apply Z.mul_le_mono_nonneg_r; lia.
    + apply Z.le_trans with ((2 ^ 53 * (Zpos m1 * T)) * W); [lia|].
      apply Z.le_trans with (((2 ^ 53 + 1) * Zpos n) * W); [|lia].
      apply Z.mul_le_mono_nonneg_r; lia.
Qed.

End Float64Index.

Section PercentileIndex.
Import Float64.
Local Open Scope Z_scope.

(** The mantissas of the two literals: [0.95] and [0.99] rounded down by
    [8 / (20 * 2^53)] and [8 / (100 * 2^53)]. *)
Lemma lit_0_95_mantissa : 20 * 8556839292003942 = 19 * 2 ^ 53 - 8.
Proof. reflexivity. Qed.

Lemma lit_0_99_mantissa : 100 * 8917127262193582 = 99 * 2 ^ 53 - 8.
Proof. reflexivity. Qed.

(** From [2^106 * m1 <= (2^53 + 1) * (n * W)] and the rounding bound on
    the product, conclude that the truncated product is below [n]. *)
Ltac index_below_length n m1 e1 Hm1 Hap HW M :=
  let k := fresh "k" in
  let Hk := fresh "Hk" in
  let HP := fresh "HP" in
  let Hr := fresh "Hr" in
  destruct (int_of_mul m1 M e1 Hm1 ltac:(lia) ltac:(lia)) as (k & Hk & HP & ->);
  pose proof (round_mant_rel _ k ltac:(lia) (proj1 HP)) as Hr;
  eexists; split; [reflexivity|];
  revert Hap HW Hr;
  generalize (round_mant (Zpos m1 * Zpos M) k * 2 ^ k) (2 ^ (53 - e1));
  intros R W Hap HW Hr; split;
  [ apply Z.div_pos; lia
  | apply Z.div_lt_upper_bound; [lia|];
    rewrite (Z.mul_comm W n); revert Hap; generalize (n * W); intros X Hap; lia ].

(** [int(n * 0.95)] and [int(n * 0.99)] are defined and index into a list
    of length [n], for every length a CPython list can have. *)
Lemma int_mul_in_range (n : Z) (c : spec_float) :
  c = lit_0_95 \/ c = lit_0_99 -> 0 < n < 2 ^ 63 ->
  exists i, int_mul n c = Some i /\ 0 <= i < n.
Proof.
  intros Hc Hn. unfold int_mul.
  destruct (float_of_int_approx n Hn) as (m1 & e1 & -> & Hm1 & He1 & Hap).
  assert (HW : 0 < 2 ^ (53 - e1)) by (apply Z.pow_pos_nonneg; lia).
  destruct Hc as [-> | ->]; unfold lit_0_95, lit_0_99.
  - index_below_length n m1 e1 Hm1 Hap HW 8556839292003942%positive.
  - index_below_length n m1 e1 Hm1 Hap HW 8917127262193582%positive.
Qed.

(** The 95th-percentile index never exceeds the 99th-percentile index. *)
Lemma int_mul_95_le_99 (n i j : Z) : 0 < n < 2 ^ 63 ->
  int_mul n lit_0_95 = Some i -> int_mul n lit_0_99 = Some j -> i <= j.
Proof.
  intros Hn. unfold int_mul.
  destruct (float_of_int_approx n Hn) as (m1 & e1 & -> & Hm1 & He1 & Hap).
  assert (HW : 0 < 2 ^ (53 - e1)) by (apply Z.pow_pos_nonneg; lia).
  unfold lit_0_95, lit_0_99.
  destruct (int_of_mul m1 8556839292003942 e1 Hm1 ltac:(lia) ltac:(lia))
    as (k & Hk & HP & ->).
  destruct (int_of_mul m1 8917127262193582 e1 Hm1 ltac:(lia) ltac:(lia))
    as (k' & Hk' & HP' & ->).
  intros [= <-] [= <-].
  pose proof (round_mant_rel _ k ltac:(lia) (proj1 HP)) as Hr.
  pose proof (round_mant_rel _ k' ltac:(lia) (proj1 HP')) as Hr'.
  apply Z.div_le_mono; [lia|].
  revert Hr Hr'.
  generalize (round_mant (Zpos m1 * 8556839292003942) k * 2 ^ k)
             (round_mant (Zpos m1 * 8917127262193582) k' * 2 ^ k').
  intros R R' Hr Hr'. lia.
Qed.
End PercentileIndex.

Section PercentileIndexExact.
Import Float64.
Local Open Scope Z_scope.

(** Shared set-up: [float(n)] is exact, the product mantissa is
    [n * s * M] with [s] a power of two, and the result is the rounded
    mantissa over [s * 2^53]. *)
Lemma int_mul_exact_setup (n : Z) (M : positive) :
  0 < n < 2 ^ 53 -> 2 ^ 52 <= Zpos M < 2 ^ 53 ->
  exists s k rm,
    0 < s /\ 52 <= k <= 53 /\
    2 ^ (52 + k) <= n * s * Zpos M < 2 ^ (53 + k) /\
    - 2 ^ k <= 2 * (rm * 2 ^ k - n * s * Zpos M) <= 2 ^ k /\
    int_mul n (S754_finite false M (-53)) = Some ((rm * 2 ^ k) / (s * 2 ^ 53)).
Proof.
  intros Hn HM. destruct n as [|n|n]; try lia.
  pose proof (pow2_digits_range n 0 53 ltac:(change (2 ^ 0) with 1; lia) ltac:(lia)) as Hd.
  pose proof (digits2_pos_bounds n) as Hb.
  set (d := Zpos (digits2_pos n)) in *.
  unfold int_mul. rewrite (float_of_int_small n d eq_refl ltac:(lia)).
  assert (H0 : 0 < 2 ^ (53 - d)) by (apply Z.pow_pos_nonneg; lia).
  assert (E1 : 2 ^ 52 = 2 ^ (d - 1) * 2 ^ (53 - d))
    by (rewrite <- Z.pow_add_r by lia; f_equal; lia).
  assert (E2 : 2 ^ 53 = 2 ^ d * 2 ^ (53 - d))
    by (rewrite <- Z.pow_add_r by lia; f_equal; lia).
  assert (Hm1 : 2 ^ 52 <= Zpos n * 2 ^ (53 - d) < 2 ^ 53) by (rewrite E1, E2; nia).
  set (m1 := Z.to_pos (Zpos n * 2 ^ (53 - d))).
  assert (Em1 : Zpos m1 = Zpos n * 2 ^ (53 - d)) by (unfold m1; rewrite Z2Pos.id; lia).
  destruct (int_of_mul m1 M (d - 53)) as (k & Hk & HP & ->); [lia|lia|lia|].
  exists (2 ^ (53 - d)), k, (round_mant (Zpos m1 * Zpos M) k).
  rewrite Em1 in *.
  split; [lia|]. split; [lia|]. split; [exact HP|].
  split; [apply round_mant_bounds; lia|].
  do 2 f_equal. replace (53 - (d - 53)) with ((53 - d) + 53) by lia.
  rewrite Z.pow_add_r by lia. reflexivity.
Qed.

(** With [num * n = den * t + j], [0 <= j < den], and the product
    mantissa [n * s * M] where [den * M = num * 2^53 - 8]: the rounded
    product lies in [[t, t + 1)]. *)
Ltac floor_of_product n s k rm num den bound Hs Hk HP Hr :=
  let Hdm := fresh "Hdm" in
  let Hj := fresh "Hj" in
  let HA := fresh "HA" in
  let HJ := fresh "HJ" in
  let HT := fresh "HT" in
  let Hk' := fresh "Hk'" in
  f_equal; symmetry;
  pose proof (Z.div_mod (num * n) den ltac:(lia)) as Hdm;
  pose proof (Z.mod_pos_bound (num * n) den ltac:(lia)) as Hj;
  set (t := num * n / den) in *; set (j := (num * n) mod den) in *;
  assert (HA : n * s < bound * s) by (apply Z.mul_lt_mono_pos_r; lia);
  assert (HJ : 0 <= j * s <= (den - 1) * s) by nia;
  assert (HT : num * (n * s) = den * (t * s) + j * s) by nia;
  apply Z.div_unique with (rm * 2 ^ k - (s * 2 ^ 53) * t); [|lia];
  left;
  replace (s * 2 ^ 53 * t) with (2 ^ 53 * (t * s)) by lia;
  clearbody t j; clear Hdm;
  revert HA HJ HT HP Hr; generalize (n * s) (t * s) (j * s);
  intros A T J HA HJ HT HP Hr;
  assert (Hk' : k = 52 \/ k = 53) by lia;
  destruct Hk' as [-> | ->]; cbn [Z.add] in HP; lia.

(** Below [2^48] the binary64 product does not disturb the integer part:
    [int(n * 0.95)] is the floor of [19 n / 20]. *)
Lemma int_mul_0_95_floor (n : Z) : 0 <= n < 2 ^ 48 ->
  int_mul n lit_0_95 = Some (19 * n / 20).
Proof.
  intros Hn. destruct (Z.eq_dec n 0) as [->|Hn0]; [reflexivity|].
  unfold lit_0_95.
  destruct (int_mul_exact_setup n 8556839292003942 ltac:(lia) ltac:(lia))
    as (s & k & rm & Hs & Hk & HP & Hr & ->).
  floor_of_product n s k rm 19 20 (2 ^ 48) Hs Hk HP Hr.
Qed.

(** Below [2^46], [int(n * 0.99)] is the floor of [99 n / 100]. *)
Lemma int_mul_0_99_floor (n : Z) : 0 <= n < 2 ^ 46 ->
  int_mul n lit_0_99 = Some (99 * n / 100).
Proof.
  intros Hn. destruct (Z.eq_dec n 0) as [->|Hn0]; [reflexivity|].
  unfold lit_0_99.
  destruct (int_mul_exact_setup n 8917127262193582 ltac:(lia) ltac:(lia))
    as (s & k & rm & Hs & Hk & HP & Hr & ->).
  floor_of_product n s k rm 99 100 (2 ^ 46) Hs Hk HP Hr.
Qed.

End PercentileIndexExact.

(** ** Rounding to binary64 *)

Section Rounding.
Local Open Scope Q_scope.

Lemma pow2_pos (k : Z) : 0 < pow2 k.
Proof. apply Qpower_0_lt. reflexivity. Qed.

Lemma pow2_add (a b : Z) : pow2 (a + b) == pow2 a * pow2 b.
Proof. apply Qpower_plus. discriminate. Qed.

Lemma pow2_le (a b : Z) : (a <= b)%Z -> pow2 a <= pow2 b.
Proof. intros H. apply Qpower_le_compat_l; [exact H|discriminate]. Qed.

Lemma pow2_inject (k : Z) : (0 <= k)%Z -> pow2 k == inject_Z (2 ^ k).
Proof. intros H. symmetry. apply (Zpower_Qpower 2 k H). Qed.

Lemma pow2_succ (k : Z) : pow2 (k + 1) == 2 * pow2 k.
Proof. rewrite pow2_add. change (pow2 1) with 2. ring. Qed.

Lemma pow2_split (a b : Z) : pow2 a == pow2 (a - b) * pow2 b.
Proof. rewrite <- pow2_add. replace (a - b + b)%Z with a by lia. reflexivity. Qed.

(** [ilog2 a] is the exponent of the binade of [a]. *)
Lemma ilog2_spec (a : Q) :
  0 < a -> pow2 (ilog2 a) <= a /\ a < pow2 (ilog2 a + 1).
Proof.
  intros Ha. destruct a as [n d]. unfold ilog2. cbn [Qnum Qden].
  assert (Hn : (0 < n)%Z) by (unfold Qlt in Ha; cbn in Ha; lia).
  set (ln := Z.log2 n). set (ld := Z.log2 (Z.pos d)).
  destruct (Z.log2_spec n Hn) as [Hn1 Hn2]. fold ln in Hn1, Hn2.
  destruct (Z.log2_spec (Z.pos d) ltac:(lia)) as [Hd1 Hd2]. fold ld in Hd1, Hd2.
  assert (Hln : (0 <= ln)%Z) by apply Z.log2_nonneg.
  assert (Hld : (0 <= ld)%Z) by apply Z.log2_nonneg.
  assert (Ea : (n # d) * inject_Z (Z.pos d) == inject_Z n).
  { unfold Qeq, Qmult, inject_Z. cbn. lia. }
  assert (Qn1 : pow2 ln <= inject_Z n) by (rewrite pow2_inject by lia; rewrite <- Zle_Qle; exact Hn1).
  assert (Qn2 : inject_Z n < pow2 (ln + 1))
    by (rewrite (pow2_inject (ln + 1)) by lia; rewrite <- Zlt_Qlt; replace (ln + 1)%Z with (Z.succ ln) by lia; exact Hn2).
  assert (Qd1 : pow2 ld <= inject_Z (Z.pos d)) by (rewrite pow2_inject by lia; rewrite <- Zle_Qle; exact Hd1).
  assert (Qd2 : inject_Z (Z.pos d) < pow2 (ld + 1))
    by (rewrite (pow2_inject (ld + 1)) by lia; rewrite <- Zlt_Qlt; replace (ld + 1)%Z with (Z.succ ld) by lia; exact Hd2).
  assert (Hd0 : 0 < inject_Z (Z.pos d)) by reflexivity.
  set (k := (ln - ld)%Z).
  assert (E1 : pow2 (ln + 1) == pow2 (k + 1) * pow2 ld).
  { rewrite <- pow2_add. replace (k + 1 + ld)%Z with (ln + 1)%Z by (unfold k; lia). reflexivity. }
  assert (E2 : pow2 ln == pow2 (k - 1) * pow2 (ld + 1)).
  { rewrite <- pow2_add. replace (k - 1 + (ld + 1))%Z with ln by (unfold k; lia). reflexivity. }
  pose proof (pow2_pos (k + 1)) as P1. pose proof (pow2_pos (k - 1)) as P2.
  pose proof (pow2_pos ld) as P3. pose proof (pow2_pos (ld + 1)) as P4.
  assert (Hup : (n # d) < pow2 (k + 1)).
  { set (a := n # d) in *. set (D := inject_Z (Z.pos d)) in *. set (N := inject_Z n) in *.
    clearbody a D N. set (A := pow2 (k + 1)) in *. set (B := pow2 ld) in *.
    set (C := pow2 (ln + 1)) in *. clearbody A B C.
    destruct (Qlt_le_dec a A) as [H|H]; [exact H|]. exfalso. nra. }
  assert (Hlo : pow2 (k - 1) <= (n # d)).
  { set (a := n # d) in *. set (D := inject_Z (Z.pos d)) in *. set (N := inject_Z n) in *.
    clearbody a D N. set (A := pow2 (k - 1)) in *. set (B := pow2 (ld + 1)) in *.
    set (C := pow2 ln) in *. clearbody A B C.
    destruct (Qlt_le_dec a A) as [H|H]; [|exact H]. exfalso. nra. }
  destruct (decide (pow2 k <= n # d)) as [Hk|Hk].
  - split; [exact Hk|exact Hup].
  - split; [exact Hlo|]. replace (k - 1 + 1)%Z with k by lia. apply Qnot_le_lt, Hk.
Qed.

(** Rounding to an integer stays between the integers around. *)
Lemma round_half_even_floor (x : Q) :
  (Qfloor x <= round_half_even x <= Qfloor x + 1)%Z
  /\ (round_half_even x = (Qfloor x + 1)%Z -> inject_Z (Qfloor x) < x).
Proof.
  unfold round_half_even.
  destruct (Qcompare (x - inject_Z (Qfloor x)) (1 # 2)) eqn:E.
  - apply Qeq_alt in E. destruct (Z.even (Qfloor x)); (split; [lia|]); intros _; lra.
  - split; [lia|]. intros H. lia.
  - apply Qgt_alt in E. split; [lia|]. intros _. lra.
Qed.

Lemma round_half_even_le (x : Q) (z : Z) : x <= inject_Z z -> (round_half_even x <= z)%Z.
Proof.
  intros Hx. destruct (round_half_even_floor x) as [[_ H2] H3].
  pose proof (Qfloor_le x) as Hf.
  assert (Hfz : (Qfloor x <= z)%Z) by (rewrite Zle_Qle; lra).
  destruct (decide (round_half_even x = (Qfloor x + 1)%Z)) as [E|E]; [|lia].
  specialize (H3 E).
  assert (Hlt : (Qfloor x < z)%Z) by (rewrite Zlt_Qlt; lra). lia.
Qed.

Lemma round_half_even_ge (x : Q) (z : Z) : inject_Z z <= x -> (z <= round_half_even x)%Z.
Proof.
  intros Hx. destruct (round_half_even_floor x) as [[H1 _] _].
  pose proof (Qfloor_resp_le _ _ Hx) as Hf. rewrite Qfloor_Z in Hf. lia.
Qed.

(** The exponent of the last place and the scaled value. *)
Lemma ulp_exponent (a : Q) :
  0 < a ->
  let e := Z.max (ilog2 a - 52) float64_emin in
  (float64_emin <= e)%Z /\ a / pow2 e < pow2 53
  /\ ((float64_emin < e)%Z -> pow2 52 <= a / pow2 e).
Proof.
  intros Ha e. destruct (ilog2_spec a Ha) as [Hlo Hhi].
  pose proof (pow2_pos e) as He.
  split; [unfold e; lia|]. split.
  - apply Qlt_shift_div_r; [exact He|].
    rewrite <- pow2_add.
    eapply Qlt_le_trans; [exact Hhi|]. apply pow2_le. unfold e. lia.
  - intros Hgt. apply Qle_shift_div_l; [exact He|].
    rewrite <- pow2_add. eapply Qle_trans; [|exact Hlo].
    apply pow2_le. unfold e in *. lia.
Qed.

Lemma round_magnitude_nonneg (a : Q) : 0 < a -> 0 <= round_magnitude a.
Proof.
  intros Ha. unfold round_magnitude. set (e := Z.max _ _).
  pose proof (pow2_pos e) as He.
  assert (H0 : (0 <= round_half_even (a / pow2 e))%Z).
  { apply round_half_even_ge. apply Qle_shift_div_l; [exact He|]. change (inject_Z 0) with 0. lra. }
  apply Qmult_le_0_compat; [|lra]. change 0 with (inject_Z 0). rewrite <- Zle_Qle. exact H0.
Qed.

Lemma round_magnitude_format (a : Q) : 0 < a -> in_format (round_magnitude a).
Proof.
  intros Ha. unfold round_magnitude.
  destruct (ulp_exponent a Ha) as (He & Hlt & _). set (e := Z.max _ _) in *.
  exists (round_half_even (a / pow2 e)), e. split; [reflexivity|]. split; [|exact He].
  pose proof (pow2_pos e) as Hpe.
  assert (H0 : (0 <= round_half_even (a / pow2 e))%Z).
  { apply round_half_even_ge. apply Qle_shift_div_l; [exact Hpe|]. change (inject_Z 0) with 0. lra. }
  assert (H1 : (round_half_even (a / pow2 e) <= 2 ^ 53)%Z).
  { apply round_half_even_le. rewrite <- pow2_inject by lia. lra. }
  lia.
Qed.

(** Rounding does not cross a value of the format. *)
Lemma round_magnitude_le (a hi : Q) :
  0 < a -> a <= hi -> in_format hi -> round_magnitude a <= hi.
Proof.
  intros Ha Hle (m & eh & Ehi & Hm & Heh). unfold round_magnitude.
  destruct (ulp_exponent a Ha) as (He & Hlt & Hnorm). set (e := Z.max _ _) in *.
  pose proof (pow2_pos e) as Hpe.
  set (t := a / pow2 e) in *.
  assert (Et : a == t * pow2 e) by (unfold t; field; lra).
  destruct (decide (e <= eh)%Z) as [Hcase|Hcase].
  - assert (Ez : hi == inject_Z (m * 2 ^ (eh - e)) * pow2 e).
    { rewrite Ehi, (pow2_split eh e), inject_Z_mult, (pow2_inject (eh - e)) by lia. ring. }
    assert (Hz : (round_half_even t <= m * 2 ^ (eh - e))%Z).
    { apply round_half_even_le. set (z := inject_Z _) in *. clearbody z t. nra. }
    rewrite Zle_Qle in Hz. set (z := inject_Z (m * _)) in *. set (M := inject_Z (round_half_even t)) in *.
    clearbody z M t. nra.
  - assert (Hgt : (float64_emin < e)%Z) by lia. specialize (Hnorm Hgt).
    assert (Hhi : hi <= pow2 52 * pow2 e).
    { rewrite Ehi. rewrite <- pow2_add.
      assert (Hm' : inject_Z m <= pow2 53).
      { rewrite pow2_inject by lia. rewrite <- Zle_Qle. lia. }
      assert (Hp : pow2 53 * pow2 eh <= pow2 (52 + e)).
      { rewrite <- pow2_add. apply pow2_le. lia. }
      pose proof (pow2_pos eh) as Hpeh.
      set (P := pow2 eh) in *. set (X := pow2 (52 + e)) in *. set (Y := pow2 53) in *.
      set (Mq := inject_Z m) in *. clearbody P X Y Mq. nra. }
    assert (Hz : (round_half_even t <= 2 ^ 52)%Z).
    { apply round_half_even_le. rewrite <- pow2_inject by lia.
      set (P := pow2 52) in *. clearbody P t. nra. }
    rewrite Zle_Qle in Hz. rewrite <- pow2_inject in Hz by lia.
    set (P := pow2 52) in *. set (M := inject_Z (round_half_even t)) in *.
    clearbody P M t. nra.
Qed.

Lemma round_magnitude_ge (a lo : Q) :
  0 < lo -> lo <= a -> in_format lo -> lo <= round_magnitude a.
Proof.
  intros Hlo Hle (m & el & Elo & Hm & Hel). unfold round_magnitude.
  assert (Ha : 0 < a) by lra.
  destruct (ulp_exponent a Ha) as (He & Hlt & Hnorm). set (e := Z.max _ _) in *.
  pose proof (pow2_pos e) as Hpe.
  set (t := a / pow2 e) in *.
  assert (Et : a == t * pow2 e) by (unfold t; field; lra).
  destruct (decide (e <= el)%Z) as [Hcase|Hcase].
  - assert (Ez : lo == inject_Z (m * 2 ^ (el - e)) * pow2 e).
    { rewrite Elo, (pow2_split el e), inject_Z_mult, (pow2_inject (el - e)) by lia. ring. }
    assert (Hz : (m * 2 ^ (el - e) <= round_half_even t)%Z).
    { apply round_half_even_ge. set (z := inject_Z _) in *. clearbody z t. nra. }
    rewrite Zle_Qle in Hz. set (z := inject_Z (m * _)) in *. set (M := inject_Z (round_half_even t)) in *.
    clearbody z M t. nra.
  - assert (Hgt : (float64_emin < e)%Z) by lia. specialize (Hnorm Hgt).
    assert (Hlo' : lo <= pow2 52 * pow2 e).
    { rewrite Elo. rewrite <- pow2_add.
      assert (Hm' : inject_Z m <= pow2 53).
      { rewrite pow2_inject by lia. rewrite <- Zle_Qle. lia. }
      assert (Hp : pow2 53 * pow2 el <= pow2 (52 + e)).
      { rewrite <- pow2_add. apply pow2_le. lia. }
      pose proof (pow2_pos el) as Hpel.
      set (P := pow2 el) in *. set (X := pow2 (52 + e)) in *. set (Y := pow2 53) in *.
      set (Mq := inject_Z m) in *. clearbody P X Y Mq. nra. }
    assert (Hz : (2 ^ 52 <= round_half_even t)%Z).
    { apply round_half_even_ge. rewrite <- pow2_inject by lia. exact Hnorm. }
    rewrite Zle_Qle in Hz. rewrite <- pow2_inject in Hz by lia.
    set (P := pow2 52) in *. set (M := inject_Z (round_half_even t)) in *.
    clearbody P M t. nra.
Qed.

Lemma in_format_opp (q : Q) : in_format q -> in_format (- q).
Proof.
  intros (m & e & E & Hm & He). exists (- m)%Z, e.
  split; [rewrite E, inject_Z_opp; ring|]. split; [lia|exact He].
Qed.

Lemma in_format_double (q : Q) : in_format q -> in_format (q + q).
Proof.
  intros (m & e & E & Hm & He). exists m, (e + 1)%Z.
  split; [rewrite E, pow2_succ; ring|]. split; [exact Hm|lia].
Qed.

Lemma in_format_zero : in_format 0.
Proof. exists 0%Z, 0%Z. split; [reflexivity|]. split; [cbn; lia|unfold float64_emin; lia]. Qed.

Lemma in_format_eq (p q : Q) : p == q -> in_format p -> in_format q.
Proof. intros E (m & e & Ep & H). exists m, e. split; [rewrite <- E; exact Ep|exact H]. Qed.

(** [round64] by the sign of its argument. *)
Lemma round64_cases (q : Q) :
  (q == 0 /\ round64 q = Finite 0)
  \/ (0 < q /\ exists a, a == q /\ 0 < a
        /\ round64 q = if decide (pow2 1024 <= round_magnitude a)
                       then Infinite false else Finite (Qred (round_magnitude a)))
  \/ (q < 0 /\ exists a, a == - q /\ 0 < a
        /\ round64 q = if decide (pow2 1024 <= round_magnitude a)
                       then Infinite true else Finite (Qred (- round_magnitude a))).
Proof.
  unfold round64. pose proof (Qred_correct q) as E.
  destruct (Qred q) as [n d] eqn:Er. cbn [Qnum].
  destruct n as [|p|p].
  - left. split; [rewrite <- E; reflexivity|reflexivity].
  - right; left. assert (H : 0 < Z.pos p # d) by reflexivity.
    split; [rewrite <- E; exact H|]. exists (Z.pos p # d). split; [exact E|]. split; [reflexivity|reflexivity].
  - right; right. assert (H : Z.neg p # d < 0) by reflexivity.
    split; [rewrite <- E; exact H|]. exists (- (Z.neg p # d)).
    split; [rewrite E; reflexivity|]. split; [reflexivity|reflexivity].
Qed.

Lemma round_magnitude_proper_le (a b hi : Q) :
  a == b -> 0 < b -> b <= hi -> in_format hi -> round_magnitude a <= hi.
Proof. intros E Hb Hle Hf. apply round_magnitude_le; [rewrite E; exact Hb|rewrite E; exact Hle|exact Hf]. Qed.

(** Rounding a value that lies between two values of the format gives a
    result between them. *)
Lemma round64_between (q lo hi r : Q) :
  in_format lo -> in_format hi -> lo <= q <= hi ->
  round64 q = Finite r -> lo <= r <= hi.
Proof.
  intros Flo Fhi [Hlo Hhi] Hr.
  destruct (round64_cases q) as [[E0 E]|[(Hq & a & Ea & Ha & E)|(Hq & a & Ea & Ha & E)]];
    rewrite E in Hr.
  - injection Hr as <-. lra.
  - destruct (decide (pow2 1024 <= round_magnitude a)); [discriminate|].
    injection Hr as <-. rewrite Qred_correct.
    pose proof (round_magnitude_nonneg a Ha) as H0. split.
    + destruct (Qlt_le_dec 0 lo) as [Hp|Hn]; [|lra].
      apply round_magnitude_ge; [exact Hp|lra|exact Flo].
    + apply round_magnitude_le; [exact Ha|lra|exact Fhi].
  - destruct (decide (pow2 1024 <= round_magnitude a)); [discriminate|].
    injection Hr as <-. rewrite Qred_correct.
    pose proof (round_magnitude_nonneg a Ha) as H0. split.
    + assert (H : round_magnitude a <= - lo)
        by (apply round_magnitude_le; [exact Ha|lra|apply in_format_opp, Flo]).
      lra.
    + destruct (Qlt_le_dec hi 0) as [Hp|Hn]; [|lra].
      assert (H : - hi <= round_magnitude a)
        by (apply round_magnitude_ge; [lra|lra|apply in_format_opp, Fhi]).
      lra.
Qed.

(** Between two values of the format that are in range, the result is
    finite. *)
Lemma round64_finite (q lo hi : Q) :
  in_format lo -> in_format hi -> - pow2 1024 < lo -> hi < pow2 1024 ->
  lo <= q <= hi -> exists r, round64 q = Finite r.
Proof.
  intros Flo Fhi Rlo Rhi [Hlo Hhi].
  destruct (round64_cases q) as [[E0 E]|[(Hq & a & Ea & Ha & E)|(Hq & a & Ea & Ha & E)]];
    rewrite E.
  - eexists; reflexivity.
  - assert (H : round_magnitude a <= hi)
      by (apply round_magnitude_le; [exact Ha|lra|exact Fhi]).
    destruct (decide (pow2 1024 <= round_magnitude a)); [lra|]. eexists; reflexivity.
  - assert (H : round_magnitude a <= - lo)
      by (apply round_magnitude_le; [exact Ha|lra|apply in_format_opp, Flo]).
    destruct (decide (pow2 1024 <= round_magnitude a)); [lra|]. eexists; reflexivity.
Qed.

Lemma round64_proper (x y : Q) : x == y -> round64 x = round64 y.
Proof. intros E. unfold round64. rewrite (Qred_complete x y E). reflexivity. Qed.

(** A binary64 value is a value of the format, in range. *)
Lemma is_binary64_format (q : Q) :
  is_binary64 q -> in_format q /\ - pow2 1024 < q < pow2 1024.
Proof.
  unfold is_binary64. pose proof (pow2_pos 1024) as P.
  destruct (round64_cases q) as [[E0 E]|[(Hq & a & Ea & Ha & E)|(Hq & a & Ea & Ha & E)]];
    rewrite E.
  - intros _. split; [apply (in_format_eq 0); [symmetry; exact E0|apply in_format_zero]|split; lra].
  - destruct (decide (pow2 1024 <= round_magnitude a)) as [|Hlt]; [intros []|].
    cbn [float64_eq]. rewrite Qred_correct. intros Er. apply Qnot_le_lt in Hlt. split.
    + apply (in_format_eq _ _ Er), round_magnitude_format, Ha.
    + split; lra.
  - destruct (decide (pow2 1024 <= round_magnitude a)) as [|Hlt]; [intros []|].
    cbn [float64_eq]. rewrite Qred_correct. intros Er. apply Qnot_le_lt in Hlt. split.
    + apply (in_format_eq _ _ Er), in_format_opp, round_magnitude_format, Ha.
    + split; lra.
Qed.

(** Rounding a value between two binary64 values gives a finite result
    between them. *)
Lemma round64_bounds (q lo hi : Q) :
  is_binary64 lo -> is_binary64 hi -> lo <= q <= hi ->
  exists r, round64 q = Finite r /\ lo <= r <= hi.
Proof.
  intros Blo Bhi Hq.
  destruct (is_binary64_format lo Blo) as [Flo [Rlo _]].
  destruct (is_binary64_format hi Bhi) as [Fhi [_ Rhi]].
  destruct (round64_finite q lo hi Flo Fhi Rlo Rhi Hq) as [r Hr].
  exists r. split; [exact Hr|]. exact (round64_between q lo hi r Flo Fhi Hq Hr).
Qed.

(** A binary64 value rounds to itself. *)
Lemma round64_exact (q : Q) : is_binary64 q -> exists r, round64 q = Finite r /\ r == q.
Proof.
  unfold is_binary64. destruct (round64 q) as [r|s]; [|intros []].
  intros E. exists r. split; [reflexivity|exact E].
Qed.

(** On sample operands [round64] of the exact result is what the
    IEEE 754 operations of [SpecFloat] return: inexact quotients, an
    overflowing sum, an average, a tie in the subnormal range, a negative
    operand and the largest finite sum. *)
Example round64_matches_SpecFloat :
  let f (n : Z) := binary_normalize Float64.prec Float64.emax n 0%Z false in
  let add := SFadd Float64.prec Float64.emax in
  let div := SFdiv Float64.prec Float64.emax in
  spec_value (div (f 1%Z) (f 3%Z)) = Some (round64 (1 # 3))
  /\ spec_value (div (f 199%Z) (f 10%Z)) = Some (round64 (199 # 10))
  /\ spec_value (add (f (3 * 2 ^ 1022)%Z) (f (2 ^ 1023)%Z))
     = Some (float_add (inject_Z (3 * 2 ^ 1022)) (inject_Z (2 ^ 1023)))
  /\ spec_value (div (add (f 10%Z) (f 1000%Z)) (f 2%Z))
     = Some (float_div (float_add (10 # 1) (1000 # 1)) 2)
  /\ spec_value (div (S754_finite false 3 (-1074)%Z) (f 2%Z))
     = Some (float_div (Finite (3 * pow2 (-1074))) 2)
  /\ spec_value (div (f (-7)%Z) (f 3%Z)) = Some (round64 (- (7 # 3)))
  /\ spec_value (add (f (2 ^ 1023)%Z) (f (2 ^ 1023 - 2 ^ 970)%Z))
     = Some (float_add (inject_Z (2 ^ 1023)) (inject_Z (2 ^ 1023 - 2 ^ 970))).
Proof. vm_compute. repeat split; reflexivity. Qed.

Lemma float64_eq_refl (x : float64) : float64_eq x x.
Proof. destruct x; cbn; reflexivity. Qed.

(** The float average of two values of the format lies between them
    unless it is infinite. *)
Lemma float_average_between (a b md : Q) :
  in_format a -> in_format b -> a <= b ->
  float_div (float_add a b) 2 = Finite md -> a <= md <= b.
Proof.
  intros Fa Fb Hab. unfold float_add.
  destruct (round64 (a + b)) as [s|sg] eqn:Es; [|discriminate].
  cbn [float_div]. intros Hmd.
  assert (Hs : a + a <= s <= b + b).
  { apply (round64_between (a + b)); [apply in_format_double, Fa|apply in_format_double, Fb| |exact Es].
    split; lra. }
  apply (round64_between (s / 2) a b md Fa Fb); [|exact Hmd].
  destruct Hs as [Hs1 Hs2]. split.
  - apply Qle_shift_div_l; [reflexivity|]. lra.
  - apply Qle_shift_div_r; [reflexivity|]. lra.
Qed.

(** The float average is infinite only if the float sum is. *)
Lemma float_average_infinite (a b : Q) (sg : bool) :
  is_binary64 a -> is_binary64 b -> a <= b ->
  float_div (float_add a b) 2 = Infinite sg -> float_add a b = Infinite sg.
Proof.
  intros Ba Bb Hab. unfold float_add.
  destruct (round64 (a + b)) as [s|sg'] eqn:Es.
  - cbn [float_div]. intros Hmd. exfalso.
    destruct (is_binary64_format a Ba) as [Fa [Ra _]].
    destruct (is_binary64_format b Bb) as [Fb [_ Rb]].
    assert (Hs : a + a <= s <= b + b).
    { apply (round64_between (a + b)); [apply in_format_double, Fa|apply in_format_double, Fb| |exact Es].
      split; lra. }
    destruct (round64_finite (s / 2) a b Fa Fb Ra Rb) as [r Hr]; [|congruence].
    destruct Hs as [Hs1 Hs2]. split.
    + apply Qle_shift_div_l; [reflexivity|]. lra.
    + apply Qle_shift_div_r; [reflexivity|]. lra.
  - cbn [float_div]. assert (E : bool_decide (2 < 0) = false) by reflexivity.
    rewrite E, xorb_false_r. intros H. exact H.
Qed.

(** The float sum of two binary64 values below [2^1023] in magnitude is
    finite. *)
Lemma float_add_finite (a b : Q) :
  is_binary64 a -> is_binary64 b -> a <= b ->
  - pow2 1023 < a -> b < pow2 1023 ->
  exists s, float_add a b = Finite s.
Proof.
  intros Ba Bb Hab Ra Rb.
  destruct (is_binary64_format a Ba) as [Fa _].
  destruct (is_binary64_format b Bb) as [Fb _].
  pose proof (pow2_succ 1023) as E. change (1023 + 1)%Z with 1024%Z in E.
  apply (round64_finite (a + b) (a + a) (b + b));
    [apply in_format_double, Fa|apply in_format_double, Fb|lra|lra|split; lra].
Qed.

End Rounding.

(** ** Sorting, indexing and extrema *)

Section Builtins.
Local Open Scope Q_scope.

Lemma Qle_transitive : Transitive Qle.
Proof. intros x y z. apply Qle_trans. Qed.

Lemma Qle_total : Total Qle.
Proof. intros x y. destruct (Qlt_le_dec x y) as [H|H]; [left; apply Qlt_le_weak|right]; exact H. Qed.

(** [sorted] returns an ascending permutation of its argument. *)
Lemma sorted_perm (xs : list Q) : sorted xs ≡ₚ xs.
Proof. apply merge_sort_Permutation. Qed.

Lemma sorted_length (xs : list Q) : length (sorted xs) = length xs.
Proof. apply Permutation_length, sorted_perm. Qed.

Lemma sorted_strongly (xs : list Q) : StronglySorted Qle (sorted xs).
Proof. apply (@StronglySorted_merge_sort _ Qle _ Qle_transitive Qle_total). Qed.

Lemma sorted_elem (xs : list Q) (x : Q) : x ∈ sorted xs <-> x ∈ xs.
Proof. split; intros H; [rewrite <- (sorted_perm xs)|rewrite (sorted_perm xs)]; exact H. Qed.

(** In an ascending list a smaller index holds a smaller value. *)
Lemma strongly_sorted_lookup (l : list Q) (i j : nat) (a b : Q) :
  StronglySorted Qle l -> (i <= j)%nat -> l !! i = Some a -> l !! j = Some b -> a <= b.
Proof.
  intros Hs. revert i j. induction Hs as [|x l Hs IH Hall]; intros i j Hij Ha Hb.
  - rewrite lookup_nil in Ha. discriminate.
  - destruct i as [|i], j as [|j]; cbn in Ha, Hb.
    + injection Ha as <-. injection Hb as <-. apply Qle_refl.
    + injection Ha as <-. rewrite Forall_forall in Hall. apply Hall.
      eapply list_elem_of_lookup_2, Hb.
    + lia.
    + apply (IH i j); [lia|assumption..].
Qed.

(** Indexing with a nonnegative index below the length does not raise. *)
Lemma py_index_in_range {A} (xs : list A) (i : Z) :
  (0 <= i < Z.of_nat (length xs))%Z -> py_index xs i = xs !! Z.to_nat i /\ is_Some (xs !! Z.to_nat i).
Proof.
  intros Hi. unfold py_index. destruct (decide (0 <= i)%Z); [|lia].
  split; [reflexivity|]. apply lookup_lt_is_Some. lia.
Qed.

(** [min] and [max] return an element that bounds all the others. *)
Lemma py_min_spec (xs : list Q) :
  xs <> [] -> exists m, py_min xs = Some m /\ m ∈ xs /\ forall x, x ∈ xs -> m <= x.
Proof.
  destruct xs as [|x0 xs]; [congruence|]. intros _. cbn [py_min].
  eexists; split; [reflexivity|].
  assert (Hgen : forall (ys : list Q) (m : Q),
    let r := fold_left (fun m y => if decide (y < m) then y else m) ys m in
    (r = m \/ r ∈ ys) /\ r <= m /\ forall y, y ∈ ys -> r <= y).
  { induction ys as [|y ys IH]; intros m; cbn.
    - split; [left; reflexivity|]. split; [apply Qle_refl|]. intros y Hy. inversion Hy.
    - destruct (decide (y < m)) as [Hlt|Hge].
      + destruct (IH y) as (Hin & Hle & Hall). split; [|split].
        * right. destruct Hin as [->|Hin]; [left|right; exact Hin].
        * eapply Qle_trans; [exact Hle|]. apply Qlt_le_weak, Hlt.
        * intros z Hz. apply elem_of_cons in Hz as [->|Hz]; [exact Hle|apply Hall, Hz].
      + destruct (IH m) as (Hin & Hle & Hall). split; [|split].
        * destruct Hin as [->|Hin]; [left; reflexivity|right; right; exact Hin].
        * exact Hle.
        * intros z Hz. apply elem_of_cons in Hz as [->|Hz]; [|apply Hall, Hz].
          eapply Qle_trans; [exact Hle|]. apply Qnot_lt_le, Hge. }
  destruct (Hgen xs x0) as (Hin & Hle & Hall). split.
  - destruct Hin as [->|Hin]; [left|right; exact Hin].
  - intros z Hz. apply elem_of_cons in Hz as [->|Hz]; [exact Hle|apply Hall, Hz].
Qed.

Lemma py_max_spec (xs : list Q) :
  xs <> [] -> exists m, py_max xs = Some m /\ m ∈ xs /\ forall x, x ∈ xs -> x <= m.
Proof.
  destruct xs as [|x0 xs]; [congruence|]. intros _. cbn [py_max].
  eexists; split; [reflexivity|].
  assert (Hgen : forall (ys : list Q) (m : Q),
    let r := fold_left (fun m y => if decide (m < y) then y else m) ys m in
    (r = m \/ r ∈ ys) /\ m <= r /\ forall y, y ∈ ys -> y <= r).
  { induction ys as [|y ys IH]; intros m; cbn.
    - split; [left; reflexivity|]. split; [apply Qle_refl|]. intros y Hy. inversion Hy.
    - destruct (decide (m < y)) as [Hlt|Hge].
      + destruct (IH y) as (Hin & Hle & Hall). split; [|split].
        * right. destruct Hin as [->|Hin]; [left|right; exact Hin].
        * eapply Qle_trans; [|exact Hle]. apply Qlt_le_weak, Hlt.
        * intros z Hz. apply elem_of_cons in Hz as [->|Hz]; [exact Hle|apply Hall, Hz].
      + destruct (IH m) as (Hin & Hle & Hall). split; [|split].
        * destruct Hin as [->|Hin]; [left; reflexivity|right; right; exact Hin].
        * exact Hle.
        * intros z Hz. apply elem_of_cons in Hz as [->|Hz]; [|apply Hall, Hz].
          eapply Qle_trans; [|exact Hle]. apply Qnot_lt_le, Hge. }
  destruct (Hgen xs x0) as (Hin & Hle & Hall). split.
  - destruct Hin as [->|Hin]; [left|right; exact Hin].
  - intros z Hz. apply elem_of_cons in Hz as [->|Hz]; [exact Hle|apply Hall, Hz].
Qed.

End Builtins.

Section Aggregates.
Local Open Scope Q_scope.

(** A sum of [n] values between [lo] and [hi] lies between [n * lo] and
    [n * hi]. *)
Lemma fold_sum_bounds (xs : list Q) (lo hi a : Q) :
  (forall x, x ∈ xs -> lo <= x <= hi) ->
  a + inject_Z (Z.of_nat (length xs)) * lo <= fold_left Qplus xs a
  /\ fold_left Qplus xs a <= a + inject_Z (Z.of_nat (length xs)) * hi.
Proof.
  revert a. induction xs as [|x xs IH]; intros a Hb.
  - cbn. split; ring_simplify; apply Qle_refl.
  - cbn [fold_left length]. rewrite Nat2Z.inj_succ, <- Z.add_1_r, inject_Z_plus.
    destruct (Hb x) as [Hlo Hhi]; [left|].
    destruct (IH (a + x)) as [IH1 IH2]; [intros y Hy; apply Hb; right; exact Hy|].
    set (k := inject_Z (Z.of_nat (length xs))) in *. clearbody k.
    change (inject_Z 1) with 1.
    set (F := fold_left Qplus xs (a + x)) in *. clearbody F.
    split; nra.
Qed.

(** The exact mean lies between any bounds of the sample. *)
Lemma exact_mean_bounds (xs : list Q) (lo hi : Q) :
  xs <> [] -> (forall x, x ∈ xs -> lo <= x <= hi) ->
  lo <= py_sum xs / inject_Z (Z.of_nat (length xs)) <= hi.
Proof.
  intros Hne Hb.
  destruct (fold_sum_bounds xs lo hi 0 Hb) as [H1 H2].
  fold (py_sum xs) in H1, H2.
  set (n := inject_Z (Z.of_nat (length xs))) in *.
  assert (Hn : 0 < n).
  { unfold n. change 0 with (inject_Z 0). rewrite <- Zlt_Qlt.
    destruct xs; [congruence|cbn [length]; lia]. }
  split.
  - apply Qle_shift_div_l; [exact Hn|]. clearbody n. lra.
  - apply Qle_shift_div_r; [exact Hn|]. clearbody n. lra.
Qed.

(** The mean is the exact mean rounded once: it is finite and lies
    between any two binary64 bounds of the sample. *)
Lemma statistics_mean_bounds (xs : list Q) (lo hi : Q) :
  xs <> [] -> is_binary64 lo -> is_binary64 hi ->
  (forall x, x ∈ xs -> lo <= x <= hi) ->
  exists m, statistics_mean xs = Some (Finite m) /\ lo <= m <= hi.
Proof.
  intros Hne Blo Bhi Hb.
  destruct (round64_bounds _ lo hi Blo Bhi (exact_mean_bounds xs lo hi Hne Hb))
    as (m & Hm & Hmb).
  exists m. split; [|exact Hmb].
  unfold statistics_mean. destruct xs; [congruence|]. rewrite Hm. reflexivity.
Qed.

Lemma statistics_mean_is_Some (xs : list Q) : xs <> [] -> is_Some (statistics_mean xs).
Proof. intros Hne. destruct xs; [congruence|]. eexists; reflexivity. Qed.

(** The median by the parity of the sample size. *)
Lemma statistics_median_cases (xs : list Q) :
  xs <> [] ->
  let n := length xs in
  ((n mod 2 = 1)%nat
   /\ exists v, sorted xs !! (n / 2)%nat = Some v
        /\ statistics_median xs = Some (Finite v))
  \/ ((n mod 2 = 0)%nat
      /\ exists a b, sorted xs !! (n / 2 - 1)%nat = Some a
           /\ sorted xs !! (n / 2)%nat = Some b /\ a <= b
           /\ statistics_median xs = Some (float_div (float_add a b) 2)).
Proof.
  intros Hne n. unfold statistics_median. rewrite sorted_length. fold n.
  assert (Hn : n <> 0%nat) by (unfold n; destruct xs; [congruence|cbn; lia]).
  destruct (decide (n = 0%nat)); [congruence|].
  assert (Hhalf : (n / 2 < n)%nat) by (apply Nat.div_lt; lia).
  destruct (decide (n mod 2 = 1)%nat) as [Hodd|Heven].
  - left. split; [exact Hodd|].
    destruct (lookup_lt_is_Some_2 (sorted xs) (n / 2)%nat) as [v Hv];
      [rewrite sorted_length; exact Hhalf|].
    exists v. split; [exact Hv|]. rewrite Hv. reflexivity.
  - right.
    assert (Hmod : (n mod 2 = 0)%nat)
      by (pose proof (Nat.mod_upper_bound n 2 ltac:(lia)); lia).
    split; [exact Hmod|].
    assert (Hpos : (1 <= n / 2)%nat).
    { pose proof (Nat.div_mod_eq n 2) as E. lia. }
    destruct (lookup_lt_is_Some_2 (sorted xs) (n / 2 - 1)%nat) as [a Ha];
      [rewrite sorted_length; lia|].
    destruct (lookup_lt_is_Some_2 (sorted xs) (n / 2)%nat) as [b Hb];
      [rewrite sorted_length; exact Hhalf|].
    exists a, b. split; [exact Ha|]. split; [exact Hb|]. split.
    + apply (strongly_sorted_lookup (sorted xs) (n / 2 - 1) (n / 2));
        [apply sorted_strongly|lia|exact Ha|exact Hb].
    + rewrite Ha, Hb. reflexivity.
Qed.

Lemma statistics_median_is_Some (xs : list Q) : xs <> [] -> is_Some (statistics_median xs).
Proof.
  intros Hne.
  destruct (statistics_median_cases xs Hne)
    as [(_ & v & _ & ->)|(_ & a & b & _ & _ & _ & ->)]; eexists; reflexivity.
Qed.

(** A finite median lies between any bounds of a sample of binary64
    values. *)
Lemma statistics_median_bounds (xs : list Q) (lo hi md : Q) :
  xs <> [] -> Forall is_binary64 xs ->
  (forall x, x ∈ xs -> lo <= x <= hi) ->
  statistics_median xs = Some (Finite md) -> lo <= md <= hi.
Proof.
  intros Hne Hbin Hb Hmd.
  assert (Hel : forall i x, sorted xs !! i = Some x -> is_binary64 x /\ lo <= x <= hi).
  { intros i x Hi.
    assert (Hin : x ∈ xs) by (apply sorted_elem; eapply list_elem_of_lookup_2, Hi).
    split; [|apply Hb, Hin]. rewrite Forall_forall in Hbin. apply Hbin, Hin. }
  destruct (statistics_median_cases xs Hne)
    as [(_ & v & Hv & E)|(_ & a & b & Ha & Hb' & Hab & E)];
    rewrite E in Hmd; injection Hmd as Hmd.
  - subst md. apply (Hel _ _ Hv).
  - destruct (Hel _ _ Ha) as [Ba [Ha1 _]]. destruct (Hel _ _ Hb') as [Bb [_ Hb2]].
    destruct (float_average_between a b md) as [H1 H2];
      [apply is_binary64_format, Ba|apply is_binary64_format, Bb|exact Hab|exact Hmd|].
    split; lra.
Qed.

(** The median is infinite only for an even count whose two middle
    values have an infinite float sum. *)
Lemma statistics_median_infinite (xs : list Q) (sg : bool) :
  xs <> [] -> Forall is_binary64 xs ->
  statistics_median xs = Some (Infinite sg) ->
  (length xs mod 2 = 0)%nat
  /\ exists a b, sorted xs !! (length xs / 2 - 1)%nat = Some a
       /\ sorted xs !! (length xs / 2)%nat = Some b
       /\ float_add a b = Infinite sg.
Proof.
  intros Hne Hbin Hmd.
  assert (Hel : forall i x, sorted xs !! i = Some x -> is_binary64 x).
  { intros i x Hi. rewrite Forall_forall in Hbin. apply Hbin, sorted_elem.
    eapply list_elem_of_lookup_2, Hi. }
  destruct (statistics_median_cases xs Hne)
    as [(_ & v & Hv & E)|(Heven & a & b & Ha & Hb' & Hab & E)];
    rewrite E in Hmd; injection Hmd as Hmd; [discriminate|].
  split; [exact Heven|]. exists a, b. split; [exact Ha|]. split; [exact Hb'|].
  apply float_average_infinite; [apply (Hel _ _ Ha)|apply (Hel _ _ Hb')|exact Hab|exact Hmd].
Qed.

(** The median of binary64 values below [2^1023] in magnitude is finite. *)
Lemma statistics_median_finite (xs : list Q) :
  xs <> [] -> Forall is_binary64 xs ->
  (forall x, x ∈ xs -> - pow2 1023 < x < pow2 1023) ->
  exists md, statistics_median xs = Some (Finite md).
Proof.
  intros Hne Hbin Hr.
  destruct (statistics_median xs) as [[md|sg]|] eqn:E.
  - exists md. reflexivity.
  - exfalso.
    destruct (statistics_median_infinite xs sg Hne Hbin E) as (_ & a & b & Ha & Hb & Hadd).
    assert (Hin : forall i x, sorted xs !! i = Some x -> x ∈ xs)
      by (intros i x Hi; apply sorted_elem; eapply list_elem_of_lookup_2, Hi).
    rewrite Forall_forall in Hbin.
    destruct (float_add_finite a b) as [s Hs];
      [apply Hbin, (Hin _ _ Ha)|apply Hbin, (Hin _ _ Hb)| | | |congruence].
    + apply (strongly_sorted_lookup (sorted xs) (length xs / 2 - 1) (length xs / 2));
        [apply sorted_strongly|lia|exact Ha|exact Hb].
    + apply (Hr a), (Hin _ _ Ha).
    + apply (Hr b), (Hin _ _ Hb).
  - destruct (statistics_median_is_Some xs Hne) as [m Hm]. congruence.
Qed.

(** The mean of one value is that value rounded. *)
Lemma mean_singleton (x : Q) : statistics_mean [x] = Some (round64 x).
Proof.
  cbn [statistics_mean]. f_equal. apply round64_proper.
  unfold py_sum. cbn. field.
Qed.

End Aggregates.

(** ** The statistics aggregator *)

Section CalculateStats.
Import Float64.
Local Open Scope Q_scope.

(** A percentile of a non-empty sorted sample is the element at an index
    in range: [int(n * c)] for [n > 1], [0] for [n = 1]. *)
Lemma percentile_lookup (sl : list Q) (c : spec_float) :
  c = lit_0_95 \/ c = lit_0_99 ->
  (1 <= Z.of_nat (length sl) <= PY_SSIZE_T_MAX)%Z ->
  exists i v,
    percentile sl c = Some v /\ (0 <= i < Z.of_nat (length sl))%Z
    /\ sl !! Z.to_nat i = Some v
    /\ ((1 < Z.of_nat (length sl))%Z -> int_mul (Z.of_nat (length sl)) c = Some i)
    /\ (Z.of_nat (length sl) = 1%Z -> i = 0%Z).
Proof.
  intros Hc Hn. unfold percentile, PY_SSIZE_T_MAX in *.
  destruct (decide (1 < Z.of_nat (length sl))%Z) as [Hgt|Hle].
  - assert (Hn' : (0 < Z.of_nat (length sl) < 2 ^ 63)%Z) by (clear Hc; lia).
    destruct (int_mul_in_range _ c Hc Hn') as (i & Hi & Hr).
    rewrite Hi. cbn.
    destruct (py_index_in_range sl i Hr) as [-> [v Hv]].
    exists i, v. clear Hc. repeat split; intros; try assumption; lia.
  - destruct (py_index_in_range sl 0 ltac:(clear Hc; lia)) as [-> [v Hv]].
    exists 0%Z, v. clear Hc. repeat split; intros; try assumption; lia.
Qed.

(** What [calculate_stats] returns on a non-empty list, field by field. *)
Lemma calculate_stats_fields (latencies : list Q) :
  latencies <> [] -> (Z.of_nat (length latencies) <= PY_SSIZE_T_MAX)%Z ->
  exists s,
    calculate_stats latencies = Some s
    /\ statistics_mean latencies = Some (mean s)
    /\ statistics_median latencies = Some (median s)
    /\ percentile (sorted latencies) lit_0_95 = Some (p95 s)
    /\ percentile (sorted latencies) lit_0_99 = Some (p99 s)
    /\ py_min latencies = Some (min_val s)
    /\ py_max latencies = Some (max_val s).
Proof.
  intros Hne Hlen.
  assert (Hn : (1 <= Z.of_nat (length (sorted latencies)) <= PY_SSIZE_T_MAX)%Z).
  { rewrite sorted_length. destruct latencies; [congruence|cbn [length] in *; lia]. }
  destruct (py_min_spec latencies Hne) as (mn & Hmn & _ & Hlo).
  destruct (py_max_spec latencies Hne) as (mx & Hmx & _ & Hhi).
  destruct (statistics_mean_is_Some latencies Hne) as [me Hme].
  destruct (statistics_median_is_Some latencies Hne) as [md Hmd].
  destruct (percentile_lookup (sorted latencies) lit_0_95 (or_introl eq_refl) Hn)
    as (i & v & Hv & _).
  destruct (percentile_lookup (sorted latencies) lit_0_99 (or_intror eq_refl) Hn)
    as (j & w & Hw & _).
  exists (mkLatencyStats me md v w mn mx).
  unfold calculate_stats. destruct latencies; [congruence|].
  rewrite Hme, Hmd, Hv, Hw, Hmn, Hmx. cbn. repeat split; reflexivity.
Qed.

(** [calculate_stats] returns a record on every list. *)
Lemma calculate_stats_is_Some (latencies : list Q) :
  (Z.of_nat (length latencies) <= PY_SSIZE_T_MAX)%Z -> is_Some (calculate_stats latencies).
Proof.
  intros Hlen. destruct latencies as [|x xs] eqn:E; [eexists; reflexivity|].
  destruct (calculate_stats_fields (x :: xs) ltac:(congruence) Hlen) as (s & -> & _).
  eexists; reflexivity.
Qed.

End CalculateStats.

Section AggregatorClaims.
Import Float64.
Local Open Scope Q_scope.

(** C4. On an empty latency sequence [calculate_stats] returns, without
    raising, the record whose six fields are all zero. *)
Theorem calculate_stats_empty :
  calculate_stats [] = Some (mkLatencyStats (Finite 0) (Finite 0) 0 0 0 0).
Proof. reflexivity. Qed.

(** C10. [calculate_stats] is total: for every list a CPython process can
    hold it returns a record, and for a non-empty sample of size [n] the
    indices [int(n * 0.95)] and [int(n * 0.99)] are defined, nonnegative
    and strictly below [n]. *)
Theorem calculate_stats_total (latencies : list Q) :
  (Z.of_nat (length latencies) <= PY_SSIZE_T_MAX)%Z ->
  is_Some (calculate_stats latencies)
  /\ (latencies <> [] ->
      exists i95 i99,
        int_mul (Z.of_nat (length latencies)) lit_0_95 = Some i95
        /\ int_mul (Z.of_nat (length latencies)) lit_0_99 = Some i99
        /\ (0 <= i95 < Z.of_nat (length latencies))%Z
        /\ (0 <= i99 < Z.of_nat (length latencies))%Z
        /\ is_Some (sorted latencies !! Z.to_nat i95)
        /\ is_Some (sorted latencies !! Z.to_nat i99)).
Proof.
  intros Hlen. split; [apply calculate_stats_is_Some, Hlen|].
  intros Hne.
  assert (Hn : (0 < Z.of_nat (length latencies) < 2 ^ 63)%Z).
  { unfold PY_SSIZE_T_MAX in Hlen. destruct latencies; [congruence|cbn [length] in *; lia]. }
  destruct (int_mul_in_range _ lit_0_95 (or_introl eq_refl) Hn) as (i & Hi & Hri).
  destruct (int_mul_in_range _ lit_0_99 (or_intror eq_refl) Hn) as (j & Hj & Hrj).
  exists i, j. repeat split; try assumption; try lia.
  - apply lookup_lt_is_Some. rewrite sorted_length. lia.
  - apply lookup_lt_is_Some. rewrite sorted_length. lia.
Qed.

Lemma calculate_stats_total_witness :
  (Z.of_nat (length [3 # 2; 1 # 2; 5 # 1]) <= PY_SSIZE_T_MAX)%Z
  /\ is_Some (calculate_stats [3 # 2; 1 # 2; 5 # 1])
  /\ exists i95 i99,
       int_mul 3 lit_0_95 = Some i95 /\ int_mul 3 lit_0_99 = Some i99
       /\ (0 <= i95 < 3)%Z /\ (0 <= i99 < 3)%Z.
Proof.
  assert (H : (Z.of_nat (length [3 # 2; 1 # 2; 5 # 1]) <= PY_SSIZE_T_MAX)%Z)
    by (vm_compute; discriminate).
  split; [exact H|].
  destruct (calculate_stats_total [3 # 2; 1 # 2; 5 # 1] H) as [Hsome Hidx].
  split; [exact Hsome|].
  destruct (Hidx ltac:(discriminate)) as (i95 & i99 & H95 & H99 & Hr95 & Hr99 & _).
  exists i95, i99.
  split; [exact H95|]. split; [exact H99|]. split; [exact Hr95|exact Hr99].
Defined.

(** C3, counterexample.  The sample [1.5 * 2^1023, 2^1023] consists of
    two binary64 values; the float sum of its two middle values
    overflows, so the median is [inf], which is not below the maximum
    [1.5 * 2^1023]. *)
Lemma median_overflow_counterexample :
  let sample := [inject_Z (3 * 2 ^ 1022); inject_Z (2 ^ 1023)] in
  Forall is_binary64 sample
  /\ exists s,
       calculate_stats sample = Some s
       /\ median s = Infinite false
       /\ max_val s = inject_Z (3 * 2 ^ 1022)
       /\ ~ float64_le (median s) (Finite (max_val s)).
Proof.
  split.
  - apply (bool_decide_unpack
             (Forall is_binary64 [inject_Z (3 * 2 ^ 1022); inject_Z (2 ^ 1023)])).
    vm_compute. exact I.
  - eexists. split; [vm_compute; reflexivity|].
    split; [reflexivity|]. split; [reflexivity|]. intros H. exact H.
Qed.

(** C3, amended.  For a sample of [n >= 1] binary64 values the
    statistics satisfy [min <= mean <= max], [p99 <= max] and, when
    [n >= 2], [p95 <= p99]; the median satisfies [min <= median <= max]
    whenever it is finite, and it is infinite only when [n] is even and
    the float sum of the two middle values overflows, which cannot
    happen for values below [2^1023] in magnitude; for [n = 1] all six
    fields are the single sample value. *)
Theorem calculate_stats_ordered (latencies : list Q) :
  latencies <> [] -> (Z.of_nat (length latencies) <= PY_SSIZE_T_MAX)%Z ->
  Forall is_binary64 latencies ->
  exists s,
    calculate_stats latencies = Some s
    /\ (exists m, mean s = Finite m /\ min_val s <= m <= max_val s)
    /\ (forall md, median s = Finite md -> min_val s <= md <= max_val s)
    /\ (forall sg, median s = Infinite sg ->
          (length latencies mod 2 = 0)%nat
          /\ exists a b,
               sorted latencies !! (length latencies / 2 - 1)%nat = Some a
               /\ sorted latencies !! (length latencies / 2)%nat = Some b
               /\ float_add a b = Infinite sg)
    /\ ((forall x, x ∈ latencies -> - pow2 1023 < x < pow2 1023) ->
          exists md, median s = Finite md)
    /\ p99 s <= max_val s
    /\ ((2 <= length latencies)%nat -> p95 s <= p99 s)
    /\ (forall x, latencies = [x] ->
        float64_eq (mean s) (Finite x) /\ median s = Finite x /\ p95 s = x /\ p99 s = x
        /\ min_val s = x /\ max_val s = x).
Proof.
  intros Hne Hlen Hbin.
  destruct (calculate_stats_fields latencies Hne Hlen)
    as (s & Hs & Hme & Hmd & H95 & H99 & Hmn & Hmx).
  exists s. split; [exact Hs|].
  destruct (py_min_spec latencies Hne) as (mn & Hmn' & Hmin & Hlo).
  destruct (py_max_spec latencies Hne) as (mx & Hmx' & Hmax & Hhi).
  rewrite Hmn in Hmn'. injection Hmn' as <-.
  rewrite Hmx in Hmx'. injection Hmx' as <-.
  assert (Hb : forall x, x ∈ latencies -> min_val s <= x <= max_val s) by (split; auto).
  pose proof (proj1 (Forall_forall _ _) Hbin) as Hbin'.
  destruct (statistics_mean_bounds latencies _ _ Hne (Hbin' _ Hmin) (Hbin' _ Hmax) Hb)
    as (me & Hme' & Hmeb).
  rewrite Hme in Hme'. injection Hme' as Hme'.
  assert (Hn : (1 <= Z.of_nat (length (sorted latencies)) <= PY_SSIZE_T_MAX)%Z).
  { rewrite sorted_length. destruct latencies; [congruence|cbn [length] in *; lia]. }
  destruct (percentile_lookup (sorted latencies) lit_0_95 (or_introl eq_refl) Hn)
    as (i & v & Hv & Hi & Hiv & Hi1 & Hi0).
  destruct (percentile_lookup (sorted latencies) lit_0_99 (or_intror eq_refl) Hn)
    as (j & w & Hw & Hj & Hjw & Hj1 & Hj0).
  rewrite H95 in Hv. injection Hv as <-. rewrite H99 in Hw. injection Hw as <-.
  split; [exists me; split; [exact Hme'|exact Hmeb]|].
  split.
  { intros md Emd. apply (statistics_median_bounds latencies _ _ md Hne Hbin Hb).
    rewrite Hmd, Emd. reflexivity. }
  split.
  { intros sg Emd. apply (statistics_median_infinite latencies sg Hne Hbin).
    rewrite Hmd, Emd. reflexivity. }
  split.
  { intros Hr. destruct (statistics_median_finite latencies Hne Hbin Hr) as [md Emd].
    exists md. rewrite Hmd in Emd. injection Emd as Emd. exact Emd. }
  split; [|split].
  - apply Hhi, sorted_elem. eapply list_elem_of_lookup_2, Hjw.
  - intros H2. rewrite sorted_length in Hi1, Hj1, Hi, Hj.
    apply (strongly_sorted_lookup (sorted latencies) (Z.to_nat i) (Z.to_nat j));
      [apply sorted_strongly| |assumption..].
    apply Z2Nat.inj_le; [lia..|].
    apply (int_mul_95_le_99 (Z.of_nat (length latencies)));
      [unfold PY_SSIZE_T_MAX in Hlen; lia|apply Hi1; lia|apply Hj1; lia].
  - intros x ->. cbn in Hmn, Hmx.
    rewrite mean_singleton in Hme.
    change (Some (Finite x) = Some (median s)) in Hmd.
    change (Some x = Some (p95 s)) in H95.
    change (Some x = Some (p99 s)) in H99.
    split.
    + injection Hme as <-. apply (Hbin' x). left.
    + repeat split; congruence.
Qed.

Lemma calculate_stats_ordered_witness :
  exists s, calculate_stats [3 # 2; 1 # 2; 5 # 1] = Some s
    /\ p95 s <= p99 s /\ exists md, median s = Finite md.
Proof.
  destruct (calculate_stats_ordered [3 # 2; 1 # 2; 5 # 1])
    as (s & Hs & _ & _ & _ & Hfin & _ & H & _).
  - discriminate.
  - vm_compute. discriminate.
  - apply (bool_decide_unpack (Forall is_binary64 [3 # 2; 1 # 2; 5 # 1])).
    vm_compute. exact I.
  - exists s. split; [exact Hs|]. split; [apply H; cbn; lia|].
    apply Hfin. apply Forall_forall.
    apply (bool_decide_unpack
             (Forall (fun q => - pow2 1023 < q < pow2 1023) [3 # 2; 1 # 2; 5 # 1])).
    vm_compute. exact I.
Defined.

End AggregatorClaims.

Section PercentileClaims.
Import Float64.
Local Open Scope Q_scope.

(** The sample of [explain_metrics] yields the documented figures:
    mean 19.9 (the binary64 value nearest to it), median 10, P95 = 10
    and P99 = 1000. *)
Example explain_metrics_figures :
  exists s, calculate_stats one_outlier = Some s
    /\ mean s = round64 (199 # 10) /\ median s = Finite (10 # 1)
    /\ p95 s = 10 # 1 /\ p99 s = 1000 # 1
    /\ nearest_rank_value one_outlier 99 100 = Some (10 # 1).
Proof. eexists. split; [vm_compute; reflexivity|]. vm_compute. repeat split; congruence. Qed.

(** C1, counterexample. On the sample 1, 2, ..., 20 the nearest-rank
    method selects rank [ceil (20 * 0.95) = 19], the value 19, while
    [calculate_stats] returns [p95 = 20]. *)
Lemma p95_nearest_rank_counterexample :
  nearest_rank 20 95 100 = 19%Z
  /\ nearest_rank_value one_to_twenty 95 100 = Some (19 # 1)
  /\ p95 <$> calculate_stats one_to_twenty = Some (20 # 1)
  /\ ~ (20 # 1 == 19 # 1)
  /\ p95 <$> calculate_stats one_to_twenty <> nearest_rank_value one_to_twenty 95 100.
Proof.
  vm_compute. repeat split; congruence.
Qed.

(** The index of a percentile is [int(n * c)] also for [n = 1], where the
    code reads position 0 directly. *)
Lemma percentile_by_index (sl : list Q) (c : spec_float) :
  c = lit_0_95 \/ c = lit_0_99 ->
  (1 <= Z.of_nat (length sl) <= PY_SSIZE_T_MAX)%Z ->
  exists i v,
    percentile sl c = Some v
    /\ int_mul (Z.of_nat (length sl)) c = Some i
    /\ sl !! Z.to_nat i = Some v.
Proof.
  intros Hc Hn.
  destruct (percentile_lookup sl c Hc Hn) as (i & v & Hv & Hi & Hiv & Hi1 & Hi0).
  exists i, v. split; [exact Hv|]. split; [|exact Hiv].
  destruct (decide (1 < Z.of_nat (length sl))%Z) as [Hgt|Hle]; [exact (Hi1 Hgt)|].
  assert (E : Z.of_nat (length sl) = 1%Z) by (clear Hc; lia).
  rewrite E, (Hi0 E). destruct Hc as [-> | ->]; reflexivity.
Qed.

(** C1, amended. For a non-empty sample of size [n], [p95] and [p99] are
    the values at the 0-indexed positions [int(n * 0.95)] and
    [int(n * 0.99)] of the ascending-sorted sample; for [n] below [2^48]
    (resp. [2^46]) these are [floor (n * 0.95)] and [floor (n * 0.99)],
    that is the 1-indexed ranks [floor (n * 0.95) + 1] and
    [floor (n * 0.99) + 1].  They are the nearest-rank values whenever
    [n * 0.95] (resp. [n * 0.99]) is not an integer and the values one
    rank above otherwise; for a sample of size 1 both equal the sole
    value. *)
Theorem percentiles_floor_rank (latencies : list Q) :
  latencies <> [] -> (Z.of_nat (length latencies) <= PY_SSIZE_T_MAX)%Z ->
  let n := Z.of_nat (length latencies) in
  exists s i95 i99,
    calculate_stats latencies = Some s
    /\ int_mul n lit_0_95 = Some i95
    /\ int_mul n lit_0_99 = Some i99
    /\ sorted latencies !! Z.to_nat i95 = Some (p95 s)
    /\ sorted latencies !! Z.to_nat i99 = Some (p99 s)
    /\ ((n < 2 ^ 48)%Z -> i95 = (19 * n / 20)%Z)
    /\ ((n < 2 ^ 46)%Z -> i99 = (99 * n / 100)%Z)
    /\ ((n < 2 ^ 48)%Z -> (n mod 20 <> 0)%Z ->
        nearest_rank_value latencies 95 100 = Some (p95 s))
    /\ ((n < 2 ^ 46)%Z -> (n mod 100 <> 0)%Z ->
        nearest_rank_value latencies 99 100 = Some (p99 s))
    /\ ((n < 2 ^ 48)%Z -> (n mod 20 = 0)%Z ->
        sorted latencies !! Z.to_nat (nearest_rank n 95 100) = Some (p95 s))
    /\ ((n < 2 ^ 46)%Z -> (n mod 100 = 0)%Z ->
        sorted latencies !! Z.to_nat (nearest_rank n 99 100) = Some (p99 s))
    /\ (forall x, latencies = [x] -> p95 s = x /\ p99 s = x).
Proof.
  intros Hne Hmax n.
  destruct (calculate_stats_fields latencies Hne Hmax)
    as (s & Hs & _ & _ & H95 & H99 & _).
  assert (Hn : (1 <= n)%Z)
    by (unfold n; destruct latencies; [congruence|cbn [length] in *; lia]).
  assert (Hsl : (1 <= Z.of_nat (length (sorted latencies)) <= PY_SSIZE_T_MAX)%Z)
    by (rewrite sorted_length; fold n; split; [exact Hn|exact Hmax]).
  destruct (percentile_by_index (sorted latencies) lit_0_95 (or_introl eq_refl) Hsl)
    as (i95 & v95 & Hv95 & Hi95 & Hl95).
  destruct (percentile_by_index (sorted latencies) lit_0_99 (or_intror eq_refl) Hsl)
    as (i99 & v99 & Hv99 & Hi99 & Hl99).
  rewrite H95 in Hv95. injection Hv95 as <-.
  rewrite H99 in Hv99. injection Hv99 as <-.
  rewrite sorted_length in Hi95, Hi99. fold n in Hi95, Hi99.
  assert (En : Z.of_nat (length latencies) = n) by reflexivity.
  clearbody n. clear Hmax Hsl.
  assert (Hf95 : (n < 2 ^ 48)%Z -> i95 = (19 * n / 20)%Z).
  { intros Hlt. rewrite int_mul_0_95_floor in Hi95 by (clear -Hn Hlt; lia). congruence. }
  assert (Hf99 : (n < 2 ^ 46)%Z -> i99 = (99 * n / 100)%Z).
  { intros Hlt. rewrite int_mul_0_99_floor in Hi99 by (clear -Hn Hlt; lia). congruence. }
  exists s, i95, i99.
  split; [exact Hs|]. split; [exact Hi95|]. split; [exact Hi99|].
  split; [exact Hl95|]. split; [exact Hl99|].
  split; [exact Hf95|]. split; [exact Hf99|].
  split; [|split; [|split; [|split]]].
  - intros Hlt Hmod. unfold nearest_rank_value, nearest_rank.
    rewrite En, <- Hl95, (Hf95 Hlt). do 2 f_equal.
    clear -Hn Hmod. Z.div_mod_to_equations. lia.
  - intros Hlt Hmod. unfold nearest_rank_value, nearest_rank.
    rewrite En, <- Hl99, (Hf99 Hlt). do 2 f_equal.
    clear -Hn Hmod. Z.div_mod_to_equations. lia.
  - intros Hlt Hmod. unfold nearest_rank.
    rewrite <- Hl95, (Hf95 Hlt). do 2 f_equal.
    clear -Hn Hmod. Z.div_mod_to_equations. lia.
  - intros Hlt Hmod. unfold nearest_rank.
    rewrite <- Hl99, (Hf99 Hlt). do 2 f_equal.
    clear -Hn Hmod. Z.div_mod_to_equations. lia.
  - intros x E. subst latencies.
    change (Some x = Some (p95 s)) in H95. change (Some x = Some (p99 s)) in H99.
    split; congruence.
Qed.

Lemma percentiles_floor_rank_witness :
  exists s, calculate_stats one_to_twenty = Some s
    /\ sorted one_to_twenty !! 19%nat = Some (p95 s).
Proof.
  destruct (percentiles_floor_rank one_to_twenty)
    as (s & i95 & i99 & Hs & _ & _ & H & _ & Hf & _).
  - discriminate.
  - vm_compute. discriminate.
  - exists s. split; [exact Hs|].
    rewrite Hf in H by (vm_compute; reflexivity). exact H.
Defined.

End PercentileClaims.

(** ** The remote write and the write driver *)

Section WriteKey.
Local Open Scope Q_scope.

(** [write_key] by cases on what the request observes. *)
Lemma write_key_cases (start : Q) (post : post_outcome) :
  write_key start post =
    Some (if signals_success post
          then default FAILED (elapsed_of start post)
          else FAILED).
Proof.
  unfold write_key, signals_success, elapsed_of.
  destruct post as [[now resp]|]; cbn; [|reflexivity].
  destruct (decide (status resp = 200%Z)); [|reflexivity].
  destruct (body resp) as [data|]; cbn; [|reflexivity].
  destruct data; cbn; try reflexivity.
  destruct (truthy _); reflexivity.
Qed.

(** The truth value of a parsed JSON document is false exactly for the
    values Python counts as false. *)
Lemma truthy_false (v : json) : truthy v = false <-> python_false v.
Proof.
  unfold python_false. split.
  - destruct v as [|b|q|str|items|fields]; cbn; intros Hv.
    + left. reflexivity.
    + right; left. congruence.
    + right; right; left. exists q. split; [reflexivity|].
      apply Qeq_bool_iff. destruct (Qeq_bool q 0); [reflexivity|discriminate].
    + destruct str; [|discriminate]. right; right; right; left. reflexivity.
    + destruct items; [|discriminate]. right; right; right; right; left. reflexivity.
    + destruct fields; [|discriminate]. right; right; right; right; right. reflexivity.
  - intros [->|[->|[(q & -> & Hq)|[->|[->| ->]]]]]; cbn; try reflexivity.
    apply Qeq_bool_iff in Hq. rewrite Hq. reflexivity.
Qed.

(** C5, counterexample.  A response with status 200 whose body is
    [{"success": "false"}] does not explicitly signal success, yet
    [write_key] returns the elapsed duration and not the failure marker:
    a non-empty string is true. *)
Lemma write_key_truthy_counterexample :
  let post := Some (2, mkResponse 200 (Some (JObj [("success", JStr "false")]))) in
  ~ explicit_success post
  /\ write_key 1 post = Some (2 - 1)
  /\ ~ (2 - 1 == FAILED)
  /\ write_key 1 post <> Some FAILED.
Proof.
  split; [|split; [reflexivity|split; [intros H; discriminate H|intros H; discriminate H]]].
  intros (now & resp & fields & [= <- <-] & _ & [= <-] & Hs). discriminate Hs.
Qed.

(** C5, amended.  No exception leaves [write_key].  It returns the
    failure marker on a transport exception, on a status other than 200,
    on a body that does not decode or is not an object, and on an object
    whose [success] member is absent or is a value Python counts as
    false; on status 200 with any other [success] member, in particular
    with the JSON value [true], it returns the elapsed duration. *)
Theorem write_key_total (start : Q) (post : post_outcome) :
  exists v,
    write_key start post = Some v
    /\ (post = None -> v = FAILED)
    /\ (forall now resp, post = Some (now, resp) ->
          (status resp <> 200%Z -> v = FAILED)
          /\ (status resp = 200%Z -> body resp = None -> v = FAILED)
          /\ (status resp = 200%Z -> forall data, body resp = Some data ->
                (forall fields, data <> JObj fields) -> v = FAILED)
          /\ (status resp = 200%Z -> forall fields, body resp = Some (JObj fields) ->
                (obj_lookup fields "success" = None -> v = FAILED)
                /\ (forall member, obj_lookup fields "success" = Some member ->
                      (python_false member -> v = FAILED)
                      /\ (~ python_false member -> v = now - start))))
    /\ (explicit_success post ->
          exists now resp, post = Some (now, resp) /\ v = now - start).
Proof.
  destruct post as [[now resp]|].
  2:{ exists FAILED. split; [reflexivity|]. split; [reflexivity|].
      split; [intros ? ? [=]|]. intros (? & ? & ? & [=] & _). }
  unfold write_key. cbn [mbind option_bind try_except].
  destruct (decide (status resp = 200%Z)) as [Hst|Hst].
  2:{ exists FAILED. split; [reflexivity|]. split; [discriminate|]. split.
      - intros now' resp' [= <- <-]. repeat split; intros; (reflexivity || contradiction).
      - intros (? & ? & ? & [= <- <-] & Hok & _). contradiction. }
  destruct (body resp) as [data|] eqn:Hbody.
  2:{ exists FAILED. split; [reflexivity|]. split; [discriminate|]. split.
      - intros now' resp' [= <- <-]. rewrite Hbody.
        repeat split; intros; (reflexivity || discriminate).
      - intros (? & ? & ? & [= <- <-] & _ & Hb & _). congruence. }
  destruct data as [|b|q|str|items|fields];
    try (exists FAILED; split; [reflexivity|]; split; [discriminate|]; split;
         [intros now' resp' [= <- <-]; rewrite Hbody;
          repeat split; intros; (reflexivity || discriminate)
         |intros (? & ? & ? & [= <- <-] & _ & Hb & _); congruence]).
  cbn [json_get mbind option_bind].
  destruct (obj_lookup fields "success") as [member|] eqn:Hmem;
    cbn [default from_option id truthy try_except].
  - destruct (truthy member) eqn:Ht; cbn [try_except].
    + exists (now - start). split; [reflexivity|]. split; [discriminate|]. split.
      * intros now' resp' [= <- <-]. rewrite Hbody.
        split; [contradiction|]. split; [discriminate|]. split.
        -- intros _ data [= <-] Hno. exfalso. apply (Hno fields). reflexivity.
        -- intros _ fields' [= <-]. rewrite Hmem. split; [discriminate|].
           intros member' [= <-]. split; [|reflexivity].
           intros Hf. apply truthy_false in Hf. congruence.
      * intros _. exists now, resp. split; reflexivity.
    + exists FAILED. split; [reflexivity|]. split; [discriminate|]. split.
      * intros now' resp' [= <- <-]. rewrite Hbody.
        split; [reflexivity|]. split; [reflexivity|]. split; [reflexivity|].
        intros _ fields' [= <-]. rewrite Hmem. split; [reflexivity|].
        intros member' [= <-]. split; [reflexivity|].
        intros Hf. exfalso. apply Hf, truthy_false, Ht.
      * intros (? & ? & fields' & [= <- <-] & _ & Hb & Hs).
        rewrite Hbody in Hb. injection Hb as <-. rewrite Hmem in Hs.
        injection Hs as ->. discriminate Ht.
  - exists FAILED. split; [reflexivity|]. split; [discriminate|]. split.
    + intros now' resp' [= <- <-]. rewrite Hbody.
      split; [reflexivity|]. split; [reflexivity|]. split; [reflexivity|].
      intros _ fields' [= <-]. rewrite Hmem. split; [reflexivity|]. intros ? [=].
    + intros (? & ? & fields' & [= <- <-] & _ & Hb & Hs).
      rewrite Hbody in Hb. injection Hb as <-. congruence.
Qed.

(** The failure marker is negative, so the filter of line 117 drops it. *)
Lemma FAILED_negative : ~ 0 <= FAILED.
Proof. unfold FAILED. intros H. apply Qle_bool_iff in H. discriminate. Qed.

(** [gather] returns one result per task; filtering the nonnegative
    results keeps the durations of the successful writes. *)
Lemma gather_filter (obs : list observation) :
  Forall monotone_clock obs ->
  exists results,
    gather obs = Some results
    /\ length results = length obs
    /\ filter (fun latency => 0 <= latency) results = omap success_latency obs.
Proof.
  unfold gather. induction 1 as [|o obs Ho _ IH].
  - exists []. repeat split.
  - destruct IH as (results & Hg & Hlen & Hf).
    cbn [mapM]. rewrite write_key_cases, Hg. cbn.
    eexists. split; [reflexivity|]. split; [cbn; congruence|].
    unfold success_latency at 1.
    destruct (signals_success (obs_post o)) eqn:Hs.
    + destruct (obs_post o) as [[now resp]|] eqn:Hp; [|discriminate].
      cbn. specialize (Ho now resp Hp).
      destruct (decide (0 <= now - obs_start o)) as [_|Hneg]; [|exfalso; lra].
      f_equal. exact Hf.
    + cbn. destruct (decide (0 <= FAILED)) as [Hpos|_]; [|exact Hf].
      exfalso. exact (FAILED_negative Hpos).
Qed.

(** The driver creates [num_writes_per_key * len(keys)] tasks. *)
Lemma write_tasks_length (keys : list string) (num : nat) :
  length (write_tasks keys num) = (num * length keys)%nat.
Proof.
  unfold write_tasks. generalize 0%nat. induction num as [|num IH]; intros a; cbn; [reflexivity|].
  rewrite length_app, length_fmap, IH. reflexivity.
Qed.

(** With at least one slot the driver returns, with at most one latency
    per task. *)
Lemma run_concurrent_writes_returns (world : nat -> observation)
    (keys : list string) (num concurrency : nat) :
  (0 < concurrency)%nat ->
  exists latencies,
    run_concurrent_writes world keys num concurrency = Some latencies
    /\ (length latencies <= num * length keys)%nat.
Proof.
  intros Hc. unfold run_concurrent_writes, collect, gather.
  destruct concurrency as [|c]; [lia|].
  set (obs := imap _ _).
  destruct (mapM_is_Some_2 (fun o => write_key (obs_start o) (obs_post o)) obs)
    as [results Hr].
  { apply Forall_forall. intros o _. cbn. rewrite write_key_cases. eexists; reflexivity. }
  rewrite Hr. cbn. eexists. split; [reflexivity|].
  etransitivity; [apply length_filter|].
  rewrite <- (length_mapM _ _ _ Hr). unfold obs.
  rewrite length_imap, write_tasks_length. reflexivity.
Qed.

(** What [collect] keeps when the clock readings are in order. *)
Lemma collect_sample (obs : list observation) :
  Forall monotone_clock obs -> collect obs = Some (omap success_latency obs).
Proof.
  intros Hmono. unfold collect.
  destruct (gather_filter obs Hmono) as (results & -> & _ & Hf).
  cbn. f_equal. exact Hf.
Qed.

(** C6. The sample returned by [run_concurrent_writes] consists exactly
    of the elapsed durations of the writes classified as successes, in
    task order: each successful write contributes its duration and a
    failed write contributes nothing. *)
Theorem run_concurrent_writes_sample (world : nat -> observation)
    (keys : list string) (num concurrency : nat) :
  (0 < concurrency)%nat ->
  (forall idx, monotone_clock (world idx)) ->
  run_concurrent_writes world keys num concurrency =
    Some (omap success_latency
            (imap (fun idx _ => world idx) (write_tasks keys num))).
Proof.
  intros Hc Hmono. unfold run_concurrent_writes.
  destruct concurrency as [|c]; [lia|].
  apply collect_sample.
  apply Forall_forall. intros o Ho.
  apply elem_of_lookup_imap in Ho as (idx & t & -> & _). apply Hmono.
Qed.

Lemma run_concurrent_writes_sample_witness :
  (forall idx, monotone_clock (every_other_write idx))
  /\ run_concurrent_writes every_other_write ["k"] 3 2 = Some [0 + 1 - 0; 2 + 1 - 2].
Proof.
  assert (Hmono : forall idx, monotone_clock (every_other_write idx)).
  { intros idx now resp. unfold every_other_write.
    destruct (Nat.even idx); cbn; [|discriminate].
    intros [= <- _]. lra. }
  split; [exact Hmono|].
  rewrite (run_concurrent_writes_sample every_other_write ["k"] 3 2 ltac:(lia) Hmono).
  reflexivity.
Defined.

End WriteKey.

(** ** The consistency checker *)

Section ConsistencyFacts.
Context {V : Type} `{EqDecision V}.
Implicit Types (leader_data follower_data : @dump V).

(** One loop iteration updates the tally according to the class of the
    key. *)
Lemma tally_key_class follower_data (t : tally) (item : string * V) :
  tally_key follower_data t item =
    match class_of follower_data item with
    | Matching =>
        mkTally (S (matching_count_acc t)) (mismatched_values_acc t) (missing_keys_acc t)
    | Mismatched =>
        mkTally (matching_count_acc t) (mismatched_values_acc t ++ [item.1]) (missing_keys_acc t)
    | Missing =>
        mkTally (matching_count_acc t) (mismatched_values_acc t) (missing_keys_acc t ++ [item.1])
    end.
Proof.
  destruct item as [k v]. unfold tally_key, class_of. cbn.
  destruct (dump_get follower_data k) as [v'|]; [|reflexivity].
  destruct (decide (v = v')); reflexivity.
Qed.

(** The keys of a class, item by item. *)
Lemma keys_of_class_cons (c : key_class) (item : string * V) leader_data follower_data :
  keys_of_class c (item :: leader_data) follower_data =
    if decide (class_of follower_data item = c)
    then item.1 :: keys_of_class c leader_data follower_data
    else keys_of_class c leader_data follower_data.
Proof.
  unfold keys_of_class.
  rewrite (filter_cons (fun it => class_of follower_data it = c)).
  case_decide; reflexivity.
Qed.

(** The loop accumulates the number of matching keys and, in leader
    order, the mismatched and the missing keys. *)
Lemma tally_fold leader_data follower_data (t : tally) :
  let t' := fold_left (tally_key follower_data) leader_data t in
  matching_count_acc t' =
    (matching_count_acc t + length (keys_of_class Matching leader_data follower_data))%nat
  /\ mismatched_values_acc t' =
       mismatched_values_acc t ++ keys_of_class Mismatched leader_data follower_data
  /\ missing_keys_acc t' =
       missing_keys_acc t ++ keys_of_class Missing leader_data follower_data.
Proof.
  revert t. induction leader_data as [|item l IH]; intros t; cbn [fold_left].
  - unfold keys_of_class. cbn. rewrite !app_nil_r. repeat split; lia.
  - destruct (IH (tally_key follower_data t item)) as (H1 & H2 & H3).
    cbv zeta. rewrite H1, H2, H3, tally_key_class. clear IH H1 H2 H3.
    rewrite !keys_of_class_cons.
    destruct (class_of follower_data item) eqn:Hc; cbn [decide_rel];
      repeat case_decide; try congruence;
      cbn [matching_count_acc mismatched_values_acc missing_keys_acc length];
      rewrite <- ?app_assoc; repeat split; try reflexivity; lia.
Qed.

(** The three classes partition the leader items. *)
Lemma class_partition leader_data follower_data :
  (length (keys_of_class Matching leader_data follower_data)
   + length (keys_of_class Mismatched leader_data follower_data)
   + length (keys_of_class Missing leader_data follower_data))%nat
  = length leader_data.
Proof.
  induction leader_data as [|item l IH]; [reflexivity|].
  rewrite !keys_of_class_cons.
  destruct (class_of follower_data item); repeat case_decide; try congruence;
    cbn [length]; lia.
Qed.

(** The tally depends on the follower only through its lookups at leader
    keys. *)
Lemma tally_all_ext leader_data (f1 f2 : @dump V) :
  (forall k v, (k, v) ∈ leader_data -> dump_get f1 k = dump_get f2 k) ->
  tally_all leader_data f1 = tally_all leader_data f2.
Proof.
  unfold tally_all. generalize (mkTally 0 [] []).
  induction leader_data as [|[k v] l IH]; intros t Hag; [reflexivity|].
  cbn [fold_left].
  assert (Hk : tally_key f1 t (k, v) = tally_key f2 t (k, v)).
  { unfold tally_key. rewrite (Hag k v); [reflexivity|left]. }
  rewrite Hk. apply IH. intros k' v' Hin. apply (Hag k' v'). right. exact Hin.
Qed.

End ConsistencyFacts.

Section ConsistencyClaims.
Context {V : Type} `{EqDecision V}.
Implicit Types (leader_data follower_data : @dump V).

(** C2. The checker puts every leader key in exactly one of the classes
    matching, mismatched and missing: a key absent from the follower is
    missing, a key present in both dumps is matching or mismatched; the
    three counts of a follower record are the sizes of the classes and
    add up to the leader key count. *)
Theorem check_follower_partition :
  (forall (i : nat) leader_data follower_data,
     let r := check_follower i leader_data follower_data in
     matching_count r = length (keys_of_class Matching leader_data follower_data)
     /\ mismatched_values r = length (keys_of_class Mismatched leader_data follower_data)
     /\ missing_keys r = length (keys_of_class Missing leader_data follower_data)
     /\ (matching_count r + mismatched_values r + missing_keys r)%nat = length leader_data)
  /\ (forall follower_data (item : string * V),
        (class_of follower_data item = Missing <-> dump_get follower_data item.1 = None)
        /\ (class_of follower_data item = Matching
              <-> dump_get follower_data item.1 = Some item.2)
        /\ (class_of follower_data item = Mismatched
              <-> exists v', dump_get follower_data item.1 = Some v' /\ item.2 <> v'))
  /\ (forall leader_resp follower_resps (r : follower_report),
        let report := check_consistency (V:=V) leader_resp follower_resps in
        r ∈ followers report ->
        (matching_count r + mismatched_values r + missing_keys r)%nat = leader_keys report).
Proof.
  assert (Hfollower : forall (i : nat) leader_data follower_data,
     let r := check_follower i leader_data follower_data in
     matching_count r = length (keys_of_class Matching leader_data follower_data)
     /\ mismatched_values r = length (keys_of_class Mismatched leader_data follower_data)
     /\ missing_keys r = length (keys_of_class Missing leader_data follower_data)
     /\ (matching_count r + mismatched_values r + missing_keys r)%nat = length leader_data).
  { intros i leader_data follower_data r.
    destruct (tally_fold leader_data follower_data (mkTally 0 [] [])) as (H1 & H2 & H3).
    cbn in H1, H2, H3. fold (tally_all leader_data follower_data) in H1, H2, H3.
    unfold r, check_follower. cbn [matching_count mismatched_values missing_keys].
    rewrite H1, H2, H3. repeat split; try reflexivity.
    apply class_partition. }
  split; [exact Hfollower|]. split.
  - intros follower_data item. unfold class_of.
    destruct (dump_get follower_data item.1) as [v'|].
    + destruct (decide (item.2 = v')) as [->|Hne].
      * repeat split; try congruence. intros (v & [= <-] & Hv). congruence.
      * repeat split; try congruence. intros _. exists v'. split; [reflexivity|exact Hne].
    + repeat split; try congruence. intros (v & Hv & _). discriminate.
  - intros leader_resp follower_resps r report Hr. unfold report, check_consistency in *.
    cbn [followers leader_keys] in *.
    apply elem_of_lookup_imap in Hr as (i & resp & -> & _).
    apply Hfollower.
Qed.

(** C7. Two follower dumps that agree on every key of the leader dump
    get the same counts, the same example mismatched keys and the same
    consistency flag: follower keys absent from the leader are not seen
    by the check. *)
Theorem follower_extra_keys_invisible (i : nat) leader_data (f1 f2 : @dump V) :
  (forall k v, (k, v) ∈ leader_data -> dump_get f1 k = dump_get f2 k) ->
  let r1 := check_follower i leader_data f1 in
  let r2 := check_follower i leader_data f2 in
  matching_count r1 = matching_count r2
  /\ mismatched_values r1 = mismatched_values r2
  /\ missing_keys r1 = missing_keys r2
  /\ mismatched_examples r1 = mismatched_examples r2
  /\ matches_leader r1 = matches_leader r2.
Proof.
  intros Hag r1 r2. unfold r1, r2, check_follower.
  rewrite (tally_all_ext leader_data f1 f2 Hag). cbn. repeat split.
Qed.

End ConsistencyClaims.

(** Leader [{a:1, b:2, c:3}] against follower [{a:1, b:9}]: one matching
    key, one mismatched, one missing. *)
Example check_follower_abc :
  let r := check_follower 1 [("a", 1%nat); ("b", 2%nat); ("c", 3%nat)]
                            [("a", 1%nat); ("b", 9%nat)] in
  matching_count r = 1%nat /\ mismatched_values r = 1%nat /\ missing_keys r = 1%nat
  /\ mismatched_examples r = ["b"] /\ matches_leader r = false.
Proof. vm_compute. repeat split. Qed.

Lemma follower_extra_keys_invisible_witness :
  matching_count (check_follower 1 [("a", 1%nat); ("b", 2%nat)] [("a", 1%nat)])
  = matching_count (check_follower 1 [("a", 1%nat); ("b", 2%nat)] [("z", 7%nat); ("a", 1%nat)]).
Proof.
  refine (proj1 (follower_extra_keys_invisible 1 [("a", 1%nat); ("b", 2%nat)]
                   [("a", 1%nat)] [("z", 7%nat); ("a", 1%nat)] _)).
  intros k v Hin.
  apply elem_of_cons in Hin as [[= -> ->]|Hin]; [reflexivity|].
  apply elem_of_cons in Hin as [[= -> ->]|Hin]; [reflexivity|].
  inversion Hin.
Defined.

(** ** The quorum sweep *)

Section Sweep.

(** A sample of one campaign step has at most 100 values. *)
Lemma campaign_tasks_bound (latencies : list Q) :
  (length latencies <= NUM_WRITES_PER_KEY * length campaign_keys)%nat ->
  (Z.of_nat (length latencies) <= PY_SSIZE_T_MAX)%Z.
Proof.
  change (NUM_WRITES_PER_KEY * length campaign_keys)%nat with 100%nat.
  unfold PY_SSIZE_T_MAX. lia.
Qed.

(** One iteration: the value is tested iff [set_quorum] succeeded, and it
    gets an entry iff moreover the sample is not empty. *)
Lemma sweep_step_spec (st : sweep_state) (quorum : Z) (tr : trial) :
  exists st',
    sweep_step st quorum tr = Some st'
    /\ (forall q, q ∈ tested st' <->
          q ∈ tested st \/ (q = quorum /\ set_quorum (config_outcome tr) = true))
    /\ (forall q, is_Some (all_stats st' !! q) <->
          is_Some (all_stats st !! q) \/ (q = quorum /\ productive tr)).
Proof.
  unfold sweep_step, productive.
  destruct (set_quorum (config_outcome tr)) eqn:Hset; cbn [negb].
  2:{ exists st. split; [reflexivity|]. split; intros q; split; auto.
      - intros [H|[_ H]]; [exact H|discriminate].
      - intros [H|[_ [H _]]]; [exact H|discriminate]. }
  destruct (run_concurrent_writes_returns (writes tr) campaign_keys NUM_WRITES_PER_KEY
              CONCURRENT_WRITES ltac:(unfold CONCURRENT_WRITES; lia))
    as (latencies & Hrun & Hlen).
  rewrite Hrun. cbn.
  destruct latencies as [|x xs] eqn:El.
  - eexists. split; [reflexivity|]. cbn [tested all_stats]. split; intros q.
    + rewrite elem_of_app, list_elem_of_singleton. intuition.
    + split; [auto|]. intros [H|(_ & _ & l & Hl & Hne)]; [exact H|congruence].
  - destruct (calculate_stats_is_Some (x :: xs) (campaign_tasks_bound _ Hlen)) as [s Hs].
    rewrite Hs. cbn. eexists. split; [reflexivity|]. cbn [tested all_stats]. split; intros q.
    + rewrite elem_of_app, list_elem_of_singleton. intuition.
    + destruct (decide (q = quorum)) as [->|Hne].
      * rewrite lookup_insert_eq. split; [|eauto].
        intros _. right. split; [reflexivity|]. split; [reflexivity|].
        exists (x :: xs). split; [reflexivity|discriminate].
      * rewrite lookup_insert_ne by congruence. intuition.
Qed.

(** The sweep over any list of quorum values, from any state. *)
Lemma sweep_spec (world : nat -> trial) (quorums : list Z) :
  forall (iter : nat) (st : sweep_state),
  exists st',
    sweep st iter quorums world = Some st'
    /\ (forall q, q ∈ tested st' <->
          q ∈ tested st
          \/ exists i, quorums !! i = Some q
               /\ set_quorum (config_outcome (world (iter + i)%nat)) = true)
    /\ (forall q, is_Some (all_stats st' !! q) <->
          is_Some (all_stats st !! q)
          \/ exists i, quorums !! i = Some q /\ productive (world (iter + i)%nat)).
Proof.
  induction quorums as [|quorum qs IH]; intros iter st; cbn [sweep].
  - exists st. split; [reflexivity|]. split; intros q; split; auto.
    + intros [H|(i & Hi & _)]; [exact H|]. rewrite lookup_nil in Hi. discriminate.
    + intros [H|(i & Hi & _)]; [exact H|]. rewrite lookup_nil in Hi. discriminate.
  - destruct (sweep_step_spec st quorum (world iter)) as (st1 & -> & Ht1 & Hs1). cbn.
    destruct (IH (S iter) st1) as (st' & -> & Ht & Hs).
    exists st'. split; [reflexivity|]. split; intros q.
    + rewrite Ht, Ht1. split.
      * intros [[H|[-> H]]|(i & Hi & H)]; [left; exact H| |].
        -- right. exists 0%nat. rewrite Nat.add_0_r. split; [reflexivity|exact H].
        -- right. exists (S i). rewrite <- Nat.add_succ_comm. split; [exact Hi|exact H].
      * intros [H|(i & Hi & H)]; [left; left; exact H|].
        destruct i as [|i]; cbn in Hi.
        -- injection Hi as ->. rewrite Nat.add_0_r in H. left; right. split; [reflexivity|exact H].
        -- right. exists i. rewrite <- Nat.add_succ_comm in H. split; [exact Hi|exact H].
    + rewrite Hs, Hs1. split.
      * intros [[H|[-> H]]|(i & Hi & H)]; [left; exact H| |].
        -- right. exists 0%nat. rewrite Nat.add_0_r. split; [reflexivity|exact H].
        -- right. exists (S i). rewrite <- Nat.add_succ_comm. split; [exact Hi|exact H].
      * intros [H|(i & Hi & H)]; [left; left; exact H|].
        destruct i as [|i]; cbn in Hi.
        -- injection Hi as ->. rewrite Nat.add_0_r in H. left; right. split; [reflexivity|exact H].
        -- right. exists i. rewrite <- Nat.add_succ_comm in H. split; [exact Hi|exact H].
Qed.

(** The configured quorum values are pairwise distinct. *)
Lemma QUORUM_VALUES_NoDup : NoDup QUORUM_VALUES.
Proof. apply (bool_decide_unpack (NoDup QUORUM_VALUES)). vm_compute. exact I. Qed.

(** What the sweep leaves in [all_stats] and which values it tested. *)
Lemma quorum_sweep_spec (world : nat -> trial) :
  exists st,
    quorum_sweep world = Some st
    /\ (forall q, q ∈ tested st <->
          exists i, QUORUM_VALUES !! i = Some q
            /\ set_quorum (config_outcome (world i)) = true)
    /\ (forall q, is_Some (all_stats st !! q) <->
          exists i, QUORUM_VALUES !! i = Some q /\ productive (world i)).
Proof.
  unfold quorum_sweep.
  destruct (sweep_spec world QUORUM_VALUES 0 (mkSweep ∅ [])) as (st & Hrun & Ht & Hs).
  exists st. split; [exact Hrun|]. split.
  - intros q. rewrite Ht. cbn. split.
    + intros [H|H]; [inversion H|exact H].
    + intros H. right. exact H.
  - intros q. rewrite Hs. cbn. rewrite lookup_empty. split.
    + intros [[x H]|H]; [discriminate|exact H].
    + intros H. right. exact H.
Qed.

(** C8. The sweep always runs to its end and [run_analysis] returns its
    [all_stats].  A quorum value whose [set_quorum] fails gets no entry
    and is not tested, and the later values are still tested: the values
    tested are exactly those whose [set_quorum] succeeded, and
    [all_stats] has an entry exactly for the values whose workload
    returned at least one successful write. *)
Theorem run_analysis_entries {V : Type} `{EqDecision V} (world : nat -> trial)
    (leader_resp : option (Z * option (@dump V)))
    (follower_resps : list (option (Z * option (@dump V)))) :
  exists st,
    quorum_sweep world = Some st
    /\ run_analysis world leader_resp follower_resps
       = Some (all_stats st, check_consistency leader_resp follower_resps)
    /\ (forall q, q ∈ tested st <->
          exists i, QUORUM_VALUES !! i = Some q
            /\ set_quorum (config_outcome (world i)) = true)
    /\ (forall q, is_Some (all_stats st !! q) <->
          exists i, QUORUM_VALUES !! i = Some q /\ productive (world i))
    /\ (forall i q, QUORUM_VALUES !! i = Some q ->
          set_quorum (config_outcome (world i)) = false ->
          all_stats st !! q = None /\ q ∉ tested st).
Proof.
  destruct (quorum_sweep_spec world) as (st & Hrun & Ht & Hs).
  exists st. split; [exact Hrun|].
  split; [unfold run_analysis; rewrite Hrun; reflexivity|].
  split; [exact Ht|]. split; [exact Hs|].
  intros i q Hi Hfail. split.
  - apply eq_None_not_Some. rewrite Hs. intros (j & Hj & Hp & _).
    rewrite (NoDup_lookup _ _ _ _ QUORUM_VALUES_NoDup Hj Hi) in Hp. congruence.
  - rewrite Ht. intros (j & Hj & Hp).
    rewrite (NoDup_lookup _ _ _ _ QUORUM_VALUES_NoDup Hj Hi) in Hp. congruence.
Qed.

(** A refused [/config] request and a workload without a successful
    write leave no entry; the other quorum values are measured. *)
Example sample_campaign_sweep :
  (fun st => (tested st,
              (fun q => bool_decide (is_Some (all_stats st !! q))) <$> QUORUM_VALUES))
    <$> quorum_sweep sample_campaign
  = Some ([1; 3; 4; 5]%Z, [true; false; true; false; true]).
Proof. vm_compute. reflexivity. Qed.

End Sweep.

(** ** The concurrency limiter *)

Section Limiter.

(** How a change of one task changes a sum over the tasks. *)
Lemma sum_insert (w : task_state -> nat) (ts : list task_state) (i : nat)
    (t t' : task_state) :
  ts !! i = Some t ->
  (sum_list_with w (<[i := t']> ts) + w t)%nat = (sum_list_with w ts + w t')%nat.
Proof.
  revert i. induction ts as [|x ts IH]; intros i Hi.
  - rewrite lookup_nil in Hi. discriminate.
  - destruct i as [|i]; cbn in Hi.
    + injection Hi as ->. change (<[0%nat := t']> (t :: ts)) with (t' :: ts).
      cbn [sum_list_with]. lia.
    + change (<[S i := t']> (x :: ts)) with (x :: <[i := t']> ts).
      cbn [sum_list_with]. specialize (IH i Hi). lia.
Qed.

Lemma count_insert (p : task_state -> bool) (ts : list task_state) (i : nat)
    (t t' : task_state) :
  ts !! i = Some t ->
  (count p (<[i := t']> ts) + (if p t then 1 else 0))%nat
  = (count p ts + (if p t' then 1 else 0))%nat.
Proof. apply sum_insert. Qed.

Lemma count_le (p q : task_state -> bool) (ts : list task_state) :
  (forall t, p t = true -> q t = true) -> (count p ts <= count q ts)%nat.
Proof.
  intros Hpq. unfold count. induction ts as [|t ts IH]; [reflexivity|].
  cbn [sum_list_with]. specialize (Hpq t).
  destruct (p t), (q t); try lia; try (discriminate Hpq; reflexivity).
Qed.

Lemma count_init (p : task_state -> bool) {A} (l : list A) :
  p Waiting = false -> count p ((fun _ => Waiting) <$> l) = 0%nat.
Proof.
  intros Hp. unfold count. induction l as [|a l IH]; [reflexivity|].
  rewrite fmap_cons. cbn [sum_list_with]. rewrite Hp, IH. reflexivity.
Qed.

Lemma count_zero (p : task_state -> bool) (ts : list task_state) :
  Forall (fun t => p t = false) ts -> count p ts = 0%nat.
Proof.
  unfold count. induction 1 as [|t ts Ht _ IH]; [reflexivity|].
  cbn [sum_list_with]. rewrite Ht, IH. reflexivity.
Qed.

Lemma sum_positive (w : task_state -> nat) (ts : list task_state) :
  (0 < sum_list_with w ts)%nat -> exists i t, ts !! i = Some t /\ (0 < w t)%nat.
Proof.
  induction ts as [|x ts IH]; cbn [sum_list_with]; [lia|]. intros Hpos.
  destruct (decide (0 < w x)%nat) as [Hx|Hx].
  - exists 0%nat, x. split; [reflexivity|exact Hx].
  - destruct IH as (i & t & Hi & Ht); [lia|]. exists (S i), t. split; assumption.
Qed.

(** Time passing keeps a task well timed. *)
Lemma well_timed_mono (now now' : Q) (t : task_state) :
  now <= now' -> well_timed now t -> well_timed now' t.
Proof.
  intros Hle. destruct t; cbn; intros Ht; intuition (try lra).
Qed.

(** The invariant holds initially and every step preserves it. *)
Lemma driver_inv_init (t0 : Q) (c : nat) (keys : list string) (num : nat) :
  driver_inv c (driver_init t0 c keys num).
Proof.
  unfold driver_inv, driver_init. cbn [sem_value tasks clock]. split.
  - rewrite count_init by reflexivity. lia.
  - apply Forall_fmap, Forall_forall. intros x _. exact I.
Qed.

Lemma driver_inv_step (c : nat) (s s' : driver_state) :
  driver_inv c s -> step s s' -> driver_inv c s'.
Proof.
  intros [Hsem Htime] Hstep. destruct Hstep; unfold driver_inv; cbn [sem_value tasks clock] in *.
  - split; [exact Hsem|].
    eapply Forall_impl; [exact Htime|]. intros t. apply well_timed_mono. assumption.
  - pose proof (count_insert holds_slot ts i _ (Acquired now) H) as Hc. cbn [holds_slot] in Hc.
    split; [lia|]. apply Forall_insert; [exact Htime|]. cbn. lra.
  - pose proof (count_insert holds_slot ts i _ (Timing ta now) H) as Hc. cbn [holds_slot] in Hc.
    pose proof (Forall_lookup_1 _ _ _ _ Htime H) as Ht. cbn in Ht.
    split; [lia|]. apply Forall_insert; [exact Htime|]. cbn. lra.
  - pose proof (count_insert holds_slot ts i _ (Done ta start None now) H) as Hc. cbn [holds_slot] in Hc.
    pose proof (Forall_lookup_1 _ _ _ _ Htime H) as Ht. cbn in Ht.
    split; [lia|]. apply Forall_insert; [exact Htime|]. cbn.
    split; [lra|]. split; [lra|]. split; [lra|]. intros stop1 resp1 [=].
  - pose proof (count_insert holds_slot ts i _ (Done ta start (Some (now, resp)) now) H) as Hc.
    cbn [holds_slot] in Hc.
    pose proof (Forall_lookup_1 _ _ _ _ Htime H) as Ht. cbn in Ht.
    split; [lia|]. apply Forall_insert; [exact Htime|]. cbn.
    split; [lra|]. split; [lra|]. split; [lra|].
    intros stop1 resp1 [= <- <-]. split; lra.
  - pose proof (count_insert holds_slot ts i _ (ReadingBody ta start now resp) H) as Hc.
    cbn [holds_slot] in Hc.
    pose proof (Forall_lookup_1 _ _ _ _ Htime H) as Ht. cbn in Ht.
    split; [lia|]. apply Forall_insert; [exact Htime|]. cbn. lra.
  - pose proof (count_insert holds_slot ts i _ (Done ta start (Some (stop, resp)) now) H) as Hc.
    cbn [holds_slot] in Hc.
    pose proof (Forall_lookup_1 _ _ _ _ Htime H) as Ht. cbn in Ht.
    split; [lia|]. apply Forall_insert; [exact Htime|]. cbn.
    split; [lra|]. split; [lra|]. split; [lra|].
    intros stop1 resp1 [= <- <-]. split; lra.
Qed.

Lemma driver_inv_reachable (c : nat) (s0 s : driver_state) :
  driver_inv c s0 -> reachable s0 s -> driver_inv c s.
Proof.
  intros H0 Hr. induction Hr as [|s1 s2 s3 Hstep _ IH]; [exact H0|].
  apply IH. eapply driver_inv_step; eassumption.
Qed.

(** No deadlock: with at least one slot, an unfinished driver has a task
    that can pass its next suspension point. *)
Lemma driver_no_deadlock (c : nat) (s : driver_state) :
  (0 < c)%nat -> driver_inv c s -> (0 < work_left s)%nat ->
  exists s', step s s' /\ (work_left s' < work_left s)%nat.
Proof.
  intros Hc [Hsem _] Hwork. destruct s as [now v ts].
  unfold work_left in *. cbn [tasks sem_value] in *.
  destruct (decide (Exists (fun t => holds_slot t = true) ts)) as [Hex|Hnone].
  - apply Exists_exists in Hex as (t & Hin & Hholds).
    apply list_elem_of_lookup in Hin as [i Hi].
    destruct t as [|ta|ta start|ta start stop resp|]; try discriminate Hholds.
    + eexists. split; [exact (step_start now v ts i ta Hi)|]. cbn [tasks].
      pose proof (sum_insert remaining ts i _ (Timing ta now) Hi) as Hs.
      cbn [remaining] in Hs. lia.
    + eexists. split; [exact (step_transport_error now v ts i ta start Hi)|]. cbn [tasks].
      pose proof (sum_insert remaining ts i _ (Done ta start None now) Hi) as Hs.
      cbn [remaining] in Hs. lia.
    + eexists. split; [exact (step_body now v ts i ta start stop resp Hi)|]. cbn [tasks].
      pose proof (sum_insert remaining ts i _ (Done ta start (Some (stop, resp)) now) Hi) as Hs.
      cbn [remaining] in Hs. lia.
  - assert (Hall : Forall (fun t => holds_slot t = false) ts).
    { apply Forall_forall. intros t Hin. destruct (holds_slot t) eqn:E; [|reflexivity].
      exfalso. apply Hnone, Exists_exists. exists t. split; assumption. }
    rewrite (count_zero _ _ Hall) in Hsem.
    destruct (sum_positive remaining ts Hwork) as (i & t & Hi & Ht).
    assert (Hw : t = Waiting).
    { rewrite Forall_forall in Hall.
      specialize (Hall t (list_elem_of_lookup_2 _ _ _ Hi)).
      destruct t; cbn in *; try discriminate; try lia. reflexivity. }
    subst t. destruct v as [|v]; [lia|].
    eexists. split; [exact (step_acquire now v ts i Hi)|]. cbn [tasks].
    pose proof (sum_insert remaining ts i _ (Acquired now) Hi) as Hs.
    cbn [remaining] in Hs. lia.
Qed.

(** With at least one slot the driver can always run to completion. *)
Lemma driver_can_finish (c : nat) (s : driver_state) :
  (0 < c)%nat -> driver_inv c s ->
  exists s', reachable s s' /\ work_left s' = 0%nat.
Proof.
  intros Hc. remember (work_left s) as n eqn:En. revert s En.
  induction n as [n IH] using lt_wf_ind. intros s En Hinv.
  destruct (decide (work_left s = 0)%nat) as [Hz|Hnz].
  - exists s. split; [apply rtc_refl|exact Hz].
  - destruct (driver_no_deadlock c s Hc Hinv ltac:(lia)) as (s1 & Hstep & Hlt).
    destruct (IH (work_left s1) ltac:(lia) s1 eq_refl (driver_inv_step c s s1 Hinv Hstep))
      as (s' & Hr & Hdone).
    exists s'. split; [eapply rtc_l; eassumption|exact Hdone].
Qed.

End Limiter.

Section LimiterClaims.

(** A finished task hands [gather] an observation whose clock readings
    are in order, which is what the sample theorem of the driver assumes. *)
Lemma finished_task_monotone_clock (t0 : Q) (c : nat) (keys : list string) (num : nat)
    (s : driver_state) (t : task_state) (o : observation) :
  reachable (driver_init t0 c keys num) s ->
  t ∈ tasks s -> task_observation t = Some o -> monotone_clock o.
Proof.
  intros Hr Ht Ho.
  destruct (driver_inv_reachable c _ s (driver_inv_init t0 c keys num) Hr) as [_ Htime].
  rewrite Forall_forall in Htime. specialize (Htime t Ht).
  destruct t; try discriminate. injection Ho as <-.
  destruct Htime as (_ & _ & _ & Hpost).
  intros now resp Hp. cbn in *. apply (Hpost now resp Hp).
Qed.

(** When every task has finished, the driver returns the durations of the
    successful writes: the clock hypothesis of the sample theorem holds
    in every run. *)
Lemma driver_result_sample (t0 : Q) (c : nat) (keys : list string) (num : nat)
    (s : driver_state) (obs : list observation) :
  reachable (driver_init t0 c keys num) s ->
  mapM task_observation (tasks s) = Some obs ->
  driver_result s = Some (omap success_latency obs).
Proof.
  intros Hr Hobs. unfold driver_result. rewrite Hobs. cbn.
  apply collect_sample. apply Forall_forall. intros o Ho.
  apply mapM_Some_1 in Hobs.
  destruct (proj1 (list_elem_of_lookup obs o) Ho) as [i Hi].
  destruct (Forall2_lookup_r _ _ _ _ _ Hobs Hi) as (t & Ht & Hto).
  eapply finished_task_monotone_clock; [exact Hr| |exact Hto].
  eapply list_elem_of_lookup_2, Ht.
Qed.

(** A driver with no work left has an observation for every task, so
    [gather] completes. *)
Lemma finished_driver_observations (s : driver_state) :
  work_left s = 0%nat -> is_Some (mapM task_observation (tasks s)).
Proof.
  unfold work_left. intros Hz. apply mapM_is_Some_2, Forall_forall.
  intros t Hin. pose proof (sum_list_with_in t remaining (tasks s) Hin) as Hle.
  destruct t; cbn in *; try lia. eexists; reflexivity.
Qed.

(** C9. Whatever the number of tasks, in every state the driver can
    reach at most [c] tasks are in their timed region; a task reads
    [start] only once it holds a slot and computes [elapsed] before it
    releases the slot, so the measured interval lies within the interval
    during which the slot is held and the wait for a slot is not
    measured. *)
Theorem bounded_write_discipline (t0 : Q) (c : nat) (keys : list string) (num : nat)
    (s : driver_state) :
  reachable (driver_init t0 c keys num) s ->
  (count in_timed_region (tasks s) <= c)%nat
  /\ (sem_value s + count holds_slot (tasks s))%nat = c
  /\ (forall ta start, Timing ta start ∈ tasks s -> ta <= start)
  /\ (forall ta start stop resp,
        ReadingBody ta start stop resp ∈ tasks s -> ta <= start /\ start <= stop)
  /\ (forall ta start post tr, Done ta start post tr ∈ tasks s ->
        ta <= start /\ start <= tr
        /\ forall stop resp, post = Some (stop, resp) ->
             start <= stop /\ stop <= tr /\ stop - start <= tr - ta).
Proof.
  intros Hr.
  destruct (driver_inv_reachable c _ s (driver_inv_init t0 c keys num) Hr) as [Hsem Htime].
  rewrite Forall_forall in Htime.
  split; [|split; [exact Hsem|split; [|split]]].
  - pose proof (count_le in_timed_region holds_slot (tasks s)) as Hle.
    assert (Himp : forall t, in_timed_region t = true -> holds_slot t = true)
      by (intros []; cbn; congruence).
    specialize (Hle Himp). lia.
  - intros ta start Hin. specialize (Htime _ Hin). cbn in Htime. tauto.
  - intros ta start stop resp Hin. specialize (Htime _ Hin). cbn in Htime. tauto.
  - intros ta start post tr Hin. specialize (Htime _ Hin). cbn in Htime.
    destruct Htime as (H1 & H2 & _ & Hpost).
    split; [exact H1|]. split; [exact H2|].
    intros stop resp Hp. destruct (Hpost stop resp Hp) as [H3 H4].
    split; [exact H3|]. split; [exact H4|]. lra.
Qed.

Lemma bounded_write_discipline_witness :
  reachable (driver_init 0 1 ["k"] 1) (mkDriver 0 0 [Timing 0 0])
  /\ (count in_timed_region [Timing 0 0] <= 1)%nat.
Proof.
  assert (Hr : reachable (driver_init 0 1 ["k"] 1) (mkDriver 0 0 [Timing 0 0])).
  { eapply rtc_l; [exact (step_acquire 0 0 [Waiting] 0 eq_refl)|].
    eapply rtc_l; [exact (step_start 0 0 [Acquired 0] 0 0 eq_refl)|].
    apply rtc_refl. }
  split; [exact Hr|].
  exact (proj1 (bounded_write_discipline 0 1 ["k"] 1 _ Hr)).
Defined.

End LimiterClaims.

(** * Further properties *)

(** ** The aggregator on the sample as a multiset *)

Section AggregatorOrder.
Import Float64.
Local Open Scope Q_scope.

(** Counting the elements of a list that satisfy a predicate. *)
Lemma filter_all {A} (P : A -> Prop) `{forall x, Decision (P x)} (l : list A) :
  Forall P l -> filter P l = l.
Proof.
  induction 1 as [|x l Hx _ IH]; [reflexivity|].
  rewrite (filter_cons P), decide_True, IH by exact Hx. reflexivity.
Qed.

Lemma filter_none {A} (P : A -> Prop) `{forall x, Decision (P x)} (l : list A) :
  Forall (fun x => ~ P x) l -> filter P l = [].
Proof.
  induction 1 as [|x l Hx _ IH]; [reflexivity|].
  rewrite (filter_cons P), decide_False, IH by exact Hx. reflexivity.
Qed.

Lemma filter_length_mono {A} (P R : A -> Prop)
    `{forall x, Decision (P x)} `{forall x, Decision (R x)} (l : list A) :
  (forall x, P x -> R x) -> (length (filter P l) <= length (filter R l))%nat.
Proof.
  intros HPR. induction l as [|x l IH]; [reflexivity|].
  rewrite (filter_cons P), (filter_cons R).
  destruct (decide (P x)) as [HP|HP].
  - rewrite decide_True by (apply HPR, HP). cbn [length]. lia.
  - destruct (decide (R x)); cbn [length]; lia.
Qed.

(** In an ascending list, fewer than [i + 1] elements are below the
    element at index [i], and more than [i] are at most it. *)
Lemma sorted_count_below (l : list Q) (i : nat) (x : Q) :
  StronglySorted Qle l -> l !! i = Some x ->
  (length (filter (fun y => (y < x)%Q) l) <= i)%nat.
Proof.
  intros Hs Hi.
  rewrite <- (take_drop_middle l i x Hi).
  rewrite (filter_app (fun y => y < x)), (filter_cons (fun y => y < x)).
  rewrite decide_False by apply Qlt_irrefl.
  rewrite (filter_none (fun y => y < x) (drop (S i) l)).
  - rewrite app_nil_r. etransitivity; [apply length_filter|].
    rewrite length_take. lia.
  - apply Forall_forall. intros y Hy.
    apply list_elem_of_lookup in Hy as [j Hj]. rewrite lookup_drop in Hj.
    apply Qle_not_lt. eapply (strongly_sorted_lookup l i (S i + j)); eauto. lia.
Qed.

Lemma sorted_count_upto (l : list Q) (i : nat) (x : Q) :
  StronglySorted Qle l -> l !! i = Some x ->
  (i < length (filter (fun y => (y <= x)%Q) l))%nat.
Proof.
  intros Hs Hi.
  pose proof (lookup_lt_Some _ _ _ Hi) as Hlt.
  rewrite <- (take_drop (S i) l) at 1.
  rewrite (filter_app (fun y => y <= x)), length_app.
  rewrite (filter_all (fun y => y <= x) (take (S i) l)).
  - rewrite length_take. lia.
  - apply Forall_forall. intros y Hy.
    apply list_elem_of_lookup in Hy as [j Hj].
    pose proof (lookup_lt_Some _ _ _ Hj) as Hjl. rewrite length_take in Hjl.
    rewrite lookup_take_lt in Hj by lia.
    eapply (strongly_sorted_lookup l j i); eauto. lia.
Qed.

(** Two ascending arrangements of the same values agree, position by
    position, up to equality of rationals. *)
Lemma sorted_pointwise (l1 l2 : list Q) (i : nat) (a b : Q) :
  StronglySorted Qle l1 -> StronglySorted Qle l2 -> l1 ≡ₚ l2 ->
  l1 !! i = Some a -> l2 !! i = Some b -> a == b.
Proof.
  assert (Hhalf : forall l1 l2 a b,
    StronglySorted Qle l1 -> StronglySorted Qle l2 -> l1 ≡ₚ l2 ->
    l1 !! i = Some a -> l2 !! i = Some b -> ~ a < b).
  { clear. intros l1 l2 a b H1 H2 Hp Ha Hb Hlt.
    pose proof (sorted_count_upto l1 i a H1 Ha) as Hup.
    pose proof (sorted_count_below l2 i b H2 Hb) as Hbelow.
    pose proof (filter_length_mono (fun y => y <= a) (fun y => y < b) l1) as Hmono.
    assert (Hlen : length (filter (fun y => y < b) l1) = length (filter (fun y => y < b) l2)).
    { apply Permutation_length. apply (filter_Permutation (fun y => y < b)), Hp. }
    assert (Himp : forall y, y <= a -> y < b)
      by (intros y Hy; eapply Qle_lt_trans; [exact Hy|exact Hlt]).
    specialize (Hmono Himp). lia. }
  intros H1 H2 Hp Ha Hb.
  apply Qle_antisym; apply Qnot_lt_le.
  - apply (Hhalf l2 l1 b a); [assumption..|symmetry; assumption|assumption|assumption].
  - apply (Hhalf l1 l2 a b); assumption.
Qed.

Lemma sorted_perm_lookup (l l' : list Q) (i : nat) (a b : Q) :
  l ≡ₚ l' -> sorted l !! i = Some a -> sorted l' !! i = Some b -> a == b.
Proof.
  intros Hp. apply sorted_pointwise; try apply sorted_strongly.
  rewrite !sorted_perm. exact Hp.
Qed.

(** The last element of the sorted sample is the maximum. *)
Lemma sorted_last_max (l : list Q) (v mx : Q) :
  sorted l !! (length l - 1)%nat = Some v -> py_max l = Some mx -> v == mx.
Proof.
  intros Hv Hmx.
  assert (Hne : l <> []) by (intros ->; discriminate).
  destruct (py_max_spec l Hne) as (m & Hm & Hin & Hub).
  rewrite Hmx in Hm. injection Hm as <-.
  apply Qle_antisym.
  - apply Hub, sorted_elem. eapply list_elem_of_lookup_2, Hv.
  - apply sorted_elem in Hin. apply list_elem_of_lookup in Hin as [j Hj].
    pose proof (lookup_lt_Some _ _ _ Hj) as Hlt. rewrite sorted_length in Hlt.
    eapply (strongly_sorted_lookup (sorted l) j (length l - 1)); eauto using sorted_strongly.
    lia.
Qed.

(** The sum does not depend on the order of the summands. *)
Lemma fold_left_Qplus_foldr (l : list Q) (a : Q) :
  fold_left Qplus l a == a + foldr Qplus 0 l.
Proof.
  revert a. induction l as [|x l IH]; intros a; cbn.
  - ring.
  - rewrite IH. ring.
Qed.

Lemma py_sum_perm (l l' : list Q) : l ≡ₚ l' -> py_sum l == py_sum l'.
Proof.
  intros Hp. unfold py_sum. rewrite !fold_left_Qplus_foldr.
  apply Qplus_comp; [reflexivity|].
  induction Hp as [|x l l' _ IH|x y l|l l' l'' _ IH1 _ IH2]; cbn.
  - reflexivity.
  - rewrite IH. reflexivity.
  - ring.
  - rewrite IH1. exact IH2.
Qed.

Lemma statistics_mean_perm (l l' : list Q) (m m' : float64) :
  l ≡ₚ l' -> statistics_mean l = Some m -> statistics_mean l' = Some m' -> m = m'.
Proof.
  intros Hp Hm Hm'. unfold statistics_mean in *.
  destruct l as [|x l]; [discriminate|]. destruct l' as [|x' l']; [discriminate|].
  pose proof (Permutation_length Hp) as Hl. pose proof (py_sum_perm _ _ Hp) as Hsum.
  set (k := x :: l) in *. set (k' := x' :: l') in *.
  injection Hm as <-. injection Hm' as <-.
  apply round64_proper.
  change (S (length l)) with (length k). change (S (length l')) with (length k').
  rewrite Hl, Hsum. reflexivity.
Qed.

Lemma statistics_median_perm (l l' : list Q) (m m' : float64) :
  l ≡ₚ l' -> statistics_median l = Some m -> statistics_median l' = Some m' ->
  float64_eq m m'.
Proof.
  intros Hp. unfold statistics_median.
  rewrite !sorted_length, <- (Permutation_length Hp).
  set (n := length l).
  destruct (decide (n = 0%nat)); [discriminate|].
  destruct (decide (n mod 2 = 1)%nat).
  - destruct (sorted l !! (n / 2)%nat) as [a|] eqn:Ha; [|discriminate].
    destruct (sorted l' !! (n / 2)%nat) as [a'|] eqn:Ha'; [|discriminate].
    cbn. intros [= <-] [= <-]. cbn.
    exact (sorted_perm_lookup l l' _ a a' Hp Ha Ha').
  - destruct (sorted l !! (n / 2 - 1)%nat) as [a|] eqn:Ha; [|discriminate].
    destruct (sorted l !! (n / 2)%nat) as [b|] eqn:Hb; [|discriminate].
    destruct (sorted l' !! (n / 2 - 1)%nat) as [a'|] eqn:Ha'; [|discriminate].
    destruct (sorted l' !! (n / 2)%nat) as [b'|] eqn:Hb'; [|discriminate].
    cbn. intros [= <-] [= <-].
    pose proof (sorted_perm_lookup l l' _ a a' Hp Ha Ha') as Ea.
    pose proof (sorted_perm_lookup l l' _ b b' Hp Hb Hb') as Eb.
    unfold float_add.
    assert (E : round64 (a + b) = round64 (a' + b'))
      by (apply round64_proper; rewrite Ea, Eb; reflexivity).
    rewrite E. apply float64_eq_refl.
Qed.

Lemma percentile_perm (l l' : list Q) (c : spec_float) (v v' : Q) :
  l ≡ₚ l' -> percentile (sorted l) c = Some v -> percentile (sorted l') c = Some v' ->
  v == v'.
Proof.
  intros Hp. unfold percentile, py_index.
  rewrite !sorted_length, <- (Permutation_length Hp).
  destruct (decide (1 < Z.of_nat (length l))%Z).
  - destruct (int_mul _ c) as [i|]; [cbn|discriminate].
    destruct (decide (0 <= i)%Z); [apply sorted_perm_lookup, Hp|].
    destruct (decide (- Z.of_nat (length l) <= i)%Z); [|discriminate].
    apply sorted_perm_lookup, Hp.
  - destruct (decide (0 <= 0)%Z); [|lia]. apply sorted_perm_lookup, Hp.
Qed.

Lemma py_min_perm (l l' : list Q) (m m' : Q) :
  l ≡ₚ l' -> py_min l = Some m -> py_min l' = Some m' -> m == m'.
Proof.
  intros Hp Hm Hm'.
  assert (Hne : l <> []) by (intros ->; discriminate).
  assert (Hne' : l' <> []) by (intros ->; discriminate).
  destruct (py_min_spec l Hne) as (x & Hx & Hin & Hlb).
  destruct (py_min_spec l' Hne') as (x' & Hx' & Hin' & Hlb').
  rewrite Hm in Hx. injection Hx as <-. rewrite Hm' in Hx'. injection Hx' as <-.
  apply Qle_antisym.
  - apply Hlb. rewrite Hp. exact Hin'.
  - apply Hlb'. rewrite <- Hp. exact Hin.
Qed.

Lemma py_max_perm (l l' : list Q) (m m' : Q) :
  l ≡ₚ l' -> py_max l = Some m -> py_max l' = Some m' -> m == m'.
Proof.
  intros Hp Hm Hm'.
  assert (Hne : l <> []) by (intros ->; discriminate).
  assert (Hne' : l' <> []) by (intros ->; discriminate).
  destruct (py_max_spec l Hne) as (x & Hx & Hin & Hub).
  destruct (py_max_spec l' Hne') as (x' & Hx' & Hin' & Hub').
  rewrite Hm in Hx. injection Hx as <-. rewrite Hm' in Hx'. injection Hx' as <-.
  apply Qle_antisym.
  - apply Hub'. rewrite <- Hp. exact Hin.
  - apply Hub. rewrite Hp. exact Hin'.
Qed.

(** X1. The statistics do not depend on the order in which the latencies
    were collected: two samples with the same values in any order get
    the same mean and equal median, p95, p99, minimum and maximum. *)
Theorem calculate_stats_order_independent (latencies latencies' : list Q) :
  latencies ≡ₚ latencies' ->
  (Z.of_nat (length latencies) <= PY_SSIZE_T_MAX)%Z ->
  exists s s',
    calculate_stats latencies = Some s /\ calculate_stats latencies' = Some s'
    /\ mean s = mean s' /\ float64_eq (median s) (median s')
    /\ p95 s == p95 s' /\ p99 s == p99 s'
    /\ min_val s == min_val s' /\ max_val s == max_val s'.
Proof.
  intros Hp Hlen.
  destruct (decide (latencies = [])) as [->|Hne].
  - apply Permutation.Permutation_nil in Hp. subst latencies'.
    eexists _, _. split; [reflexivity|]. split; [reflexivity|].
    cbn [calculate_stats mean median p95 p99 min_val max_val float64_eq].
    repeat split; reflexivity.
  - assert (Hne' : latencies' <> []).
    { intros ->. apply Hne. symmetry in Hp. apply Permutation.Permutation_nil in Hp. exact Hp. }
    assert (Hlen' : (Z.of_nat (length latencies') <= PY_SSIZE_T_MAX)%Z)
      by (rewrite <- (Permutation_length Hp); exact Hlen).
    destruct (calculate_stats_fields latencies Hne Hlen)
      as (s & Hs & Hme & Hmd & H95 & H99 & Hmn & Hmx).
    destruct (calculate_stats_fields latencies' Hne' Hlen')
      as (s' & Hs' & Hme' & Hmd' & H95' & H99' & Hmn' & Hmx').
    exists s, s'. split; [exact Hs|]. split; [exact Hs'|].
    split; [eapply statistics_mean_perm; eassumption|].
    split; [eapply statistics_median_perm; eassumption|].
    split; [eapply percentile_perm; eassumption|].
    split; [eapply percentile_perm; eassumption|].
    split; [eapply py_min_perm; eassumption|eapply py_max_perm; eassumption].
Qed.

Lemma calculate_stats_order_independent_witness :
  exists s s',
    calculate_stats [3 # 1; 1 # 1; 2 # 1] = Some s
    /\ calculate_stats [1 # 1; 2 # 1; 3 # 1] = Some s'
    /\ p95 s == p95 s'.
Proof.
  destruct (calculate_stats_order_independent [3 # 1; 1 # 1; 2 # 1] [1 # 1; 2 # 1; 3 # 1])
    as (s & s' & Hs & Hs' & _ & _ & H & _).
  - change [3 # 1; 1 # 1; 2 # 1] with ([3 # 1] ++ [1 # 1; 2 # 1]).
    rewrite Permutation_app_comm. reflexivity.
  - vm_compute. discriminate.
  - exists s, s'. repeat split; assumption.
Defined.

End AggregatorOrder.

Section AggregatorValues.
Import Float64.
Local Open Scope Q_scope.

(** A percentile of a non-empty sample is one of its values. *)
Lemma percentile_elem (latencies : list Q) (c : spec_float) (v : Q) :
  c = lit_0_95 \/ c = lit_0_99 ->
  latencies <> [] -> (Z.of_nat (length latencies) <= PY_SSIZE_T_MAX)%Z ->
  percentile (sorted latencies) c = Some v -> v ∈ latencies.
Proof.
  intros Hc Hne Hlen Hv.
  assert (Hn : (1 <= Z.of_nat (length (sorted latencies)) <= PY_SSIZE_T_MAX)%Z).
  { rewrite sorted_length. clear Hc. destruct latencies; [congruence|cbn [length] in *; lia]. }
  destruct (percentile_lookup (sorted latencies) c Hc Hn) as (i & w & Hw & _ & Hiw & _).
  rewrite Hv in Hw. injection Hw as <-.
  apply sorted_elem. eapply list_elem_of_lookup_2, Hiw.
Qed.

(** X2. On a non-empty sample the minimum and the maximum are values of
    the sample that bound every other value, p95 and p99 are values of
    the sample (no interpolation), and so is the median of a sample of
    odd size. *)
Theorem calculate_stats_sample_values (latencies : list Q) :
  latencies <> [] -> (Z.of_nat (length latencies) <= PY_SSIZE_T_MAX)%Z ->
  exists s,
    calculate_stats latencies = Some s
    /\ min_val s ∈ latencies /\ max_val s ∈ latencies
    /\ (forall x, x ∈ latencies -> min_val s <= x <= max_val s)
    /\ p95 s ∈ latencies /\ p99 s ∈ latencies
    /\ ((length latencies mod 2 = 1)%nat ->
        exists v, median s = Finite v /\ v ∈ latencies).
Proof.
  intros Hne Hlen.
  destruct (calculate_stats_fields latencies Hne Hlen)
    as (s & Hs & _ & Hmd & H95 & H99 & Hmn & Hmx).
  exists s. split; [exact Hs|].
  destruct (py_min_spec latencies Hne) as (mn & Hmn' & Hmin & Hlo).
  destruct (py_max_spec latencies Hne) as (mx & Hmx' & Hmax & Hhi).
  rewrite Hmn in Hmn'. injection Hmn' as <-.
  rewrite Hmx in Hmx'. injection Hmx' as <-.
  split; [exact Hmin|]. split; [exact Hmax|].
  split; [intros x Hx; split; [apply Hlo|apply Hhi]; exact Hx|].
  split; [eapply (percentile_elem _ lit_0_95); eauto|].
  split; [eapply (percentile_elem _ lit_0_99); eauto|].
  intros Hodd.
  destruct (statistics_median_cases latencies Hne)
    as [(_ & v & Hv & E)|(Heven & _)]; [|cbv zeta in Heven; lia].
  exists v. split; [congruence|].
  apply sorted_elem. eapply list_elem_of_lookup_2, Hv.
Qed.

Lemma calculate_stats_sample_values_witness :
  exists s v, calculate_stats [3 # 1; 1 # 1; 2 # 1] = Some s
    /\ median s = Finite v /\ v ∈ [3 # 1; 1 # 1; 2 # 1].
Proof.
  destruct (calculate_stats_sample_values [3 # 1; 1 # 1; 2 # 1])
    as (s & Hs & _ & _ & _ & _ & _ & H).
  - discriminate.
  - vm_compute. discriminate.
  - destruct (H eq_refl) as (v & Hv & Hin).
    exists s, v. split; [exact Hs|]. split; [exact Hv|exact Hin].
Defined.

(** In a sample of at most 100 values the index of p99 is the last one,
    and in a sample of at most 20 values so is the index of p95. *)
Lemma percentile_small_last (latencies : list Q) :
  latencies <> [] ->
  ((length latencies <= 100)%nat ->
     percentile (sorted latencies) lit_0_99 = sorted latencies !! (length latencies - 1)%nat)
  /\ ((length latencies <= 20)%nat ->
        percentile (sorted latencies) lit_0_95
        = sorted latencies !! (length latencies - 1)%nat).
Proof.
  intros Hne.
  assert (Hn1 : (1 <= length latencies)%nat) by (destruct latencies; [congruence|cbn; lia]).
  set (n := Z.of_nat (length latencies)).
  split; intros Hlen.
  - assert (Hsl : (1 <= Z.of_nat (length (sorted latencies)) <= PY_SSIZE_T_MAX)%Z)
      by (rewrite sorted_length; unfold PY_SSIZE_T_MAX; lia).
    destruct (percentile_by_index (sorted latencies) lit_0_99 (or_intror eq_refl) Hsl)
      as (i & v & Hv & Hi & Hl).
    rewrite sorted_length in Hi. fold n in Hi.
    assert (Hn : (1 <= n <= 100)%Z) by (unfold n; lia).
    rewrite int_mul_0_99_floor in Hi by (clear -Hn; lia). injection Hi as <-.
    rewrite Hv, <- Hl. f_equal.
    assert (E : (99 * n / 100 = n - 1)%Z) by (clear -Hn; Z.div_mod_to_equations; lia).
    rewrite E. unfold n. lia.
  - assert (Hsl : (1 <= Z.of_nat (length (sorted latencies)) <= PY_SSIZE_T_MAX)%Z)
      by (rewrite sorted_length; unfold PY_SSIZE_T_MAX; lia).
    destruct (percentile_by_index (sorted latencies) lit_0_95 (or_introl eq_refl) Hsl)
      as (i & v & Hv & Hi & Hl).
    rewrite sorted_length in Hi. fold n in Hi.
    assert (Hn : (1 <= n <= 20)%Z) by (unfold n; lia).
    rewrite int_mul_0_95_floor in Hi by (clear -Hn; lia). injection Hi as <-.
    rewrite Hv, <- Hl. f_equal.
    assert (E : (19 * n / 20 = n - 1)%Z) by (clear -Hn; Z.div_mod_to_equations; lia).
    rewrite E. unfold n. lia.
Qed.

(** X3. With at most 100 latencies, the size of one campaign step, p99
    is the maximum of the sample; with at most 20, so is p95. *)
Theorem small_sample_percentile_is_max (latencies : list Q) :
  latencies <> [] -> (length latencies <= 100)%nat ->
  exists s,
    calculate_stats latencies = Some s
    /\ p99 s == max_val s
    /\ ((length latencies <= 20)%nat -> p95 s == max_val s).
Proof.
  intros Hne Hlen.
  assert (Hmax : (Z.of_nat (length latencies) <= PY_SSIZE_T_MAX)%Z)
    by (unfold PY_SSIZE_T_MAX; lia).
  destruct (calculate_stats_fields latencies Hne Hmax)
    as (s & Hs & _ & _ & H95 & H99 & _ & Hmx).
  destruct (percentile_small_last latencies Hne) as [Hlast99 Hlast95].
  exists s. split; [exact Hs|]. split.
  - apply (sorted_last_max latencies); [|exact Hmx].
    rewrite <- (Hlast99 Hlen). exact H99.
  - intros H20. apply (sorted_last_max latencies); [|exact Hmx].
    rewrite <- (Hlast95 H20). exact H95.
Qed.

Lemma small_sample_percentile_is_max_witness :
  exists s, calculate_stats one_to_twenty = Some s /\ p95 s == max_val s.
Proof.
  destruct (small_sample_percentile_is_max one_to_twenty) as (s & Hs & _ & H).
  - discriminate.
  - vm_compute. lia.
  - exists s. split; [exact Hs|]. apply H. vm_compute. lia.
Defined.

(** The statistics that are read off the sample lie in any interval
    that contains the sample. *)
Lemma calculate_stats_within (latencies : list Q) (lo hi : Q) (s : LatencyStats) :
  latencies <> [] -> (Z.of_nat (length latencies) <= PY_SSIZE_T_MAX)%Z ->
  (forall x, x ∈ latencies -> lo <= x <= hi) ->
  calculate_stats latencies = Some s ->
  lo <= p95 s <= hi /\ lo <= p99 s <= hi
  /\ lo <= min_val s <= hi /\ lo <= max_val s <= hi.
Proof.
  intros Hne Hlen Hb Hs.
  destruct (calculate_stats_fields latencies Hne Hlen)
    as (s' & Hs' & _ & _ & H95 & H99 & Hmn & Hmx).
  rewrite Hs in Hs'. injection Hs' as <-.
  destruct (py_min_spec latencies Hne) as (mn & Hmn' & Hmin & _).
  destruct (py_max_spec latencies Hne) as (mx & Hmx' & Hmax & _).
  rewrite Hmn in Hmn'. injection Hmn' as <-.
  rewrite Hmx in Hmx'. injection Hmx' as <-.
  split; [apply Hb; eapply (percentile_elem _ lit_0_95); eauto|].
  split; [apply Hb; eapply (percentile_elem _ lit_0_99); eauto|].
  split; apply Hb; assumption.
Qed.

End AggregatorValues.

(** ** The write driver: task order and results *)

Section DriverFacts.
Local Open Scope Q_scope.

(** The nested loops of lines 107-110 lay the tasks out repetition by
    repetition. *)
Lemma write_tasks_lookup_from (keys : list string) (num a i j : nat) (key : string) :
  (i < num)%nat -> keys !! j = Some key ->
  (x ← seq a num; (fun key => (key, x)) <$> keys) !! (i * length keys + j)%nat
  = Some (key, (a + i)%nat).
Proof.
  revert a i. induction num as [|num IH]; intros a i Hi Hj; [lia|].
  cbn [seq]. rewrite bind_cons. destruct i as [|i].
  - rewrite lookup_app_l.
    + rewrite list_lookup_fmap. cbn. rewrite Hj, Nat.add_0_r. reflexivity.
    + rewrite length_fmap. cbn. eapply lookup_lt_Some, Hj.
  - rewrite lookup_app_r by (rewrite length_fmap; cbn; lia).
    rewrite length_fmap.
    replace (S i * length keys + j - length keys)%nat with (i * length keys + j)%nat
      by (cbn; lia).
    rewrite (IH (S a) i) by (lia || exact Hj). do 2 f_equal. lia.
Qed.

Lemma write_tasks_elem_from (keys : list string) (num a : nat) (t : string * nat) :
  t ∈ (x ← seq a num; (fun key => (key, x)) <$> keys) ->
  t.1 ∈ keys /\ (a <= t.2 < a + num)%nat.
Proof.
  intros Ht. apply list_elem_of_bind in Ht as (x & Ht & Hx).
  apply list_elem_of_fmap in Ht as (key & -> & Hkey).
  apply elem_of_seq in Hx. cbn. split; [exact Hkey|lia].
Qed.

(** X4. The driver creates the tasks repetition by repetition: task
    number [i * len(keys) + j] writes the [j]-th key for the [i]-th time,
    so the [num_writes_per_key * len(keys)] tasks cover every key
    [num_writes_per_key] times and nothing else. *)
Theorem write_tasks_order (keys : list string) (num i j : nat) (key : string) :
  (i < num)%nat -> keys !! j = Some key ->
  write_tasks keys num !! (i * length keys + j)%nat = Some (key, i)
  /\ (i * length keys + j < length (write_tasks keys num))%nat
  /\ length (write_tasks keys num) = (num * length keys)%nat
  /\ (forall t, t ∈ write_tasks keys num -> t.1 ∈ keys /\ (t.2 < num)%nat).
Proof.
  intros Hi Hj.
  assert (Hl : write_tasks keys num !! (i * length keys + j)%nat = Some (key, i)).
  { unfold write_tasks. rewrite (write_tasks_lookup_from keys num 0 i j key Hi Hj).
    reflexivity. }
  split; [exact Hl|]. split; [eapply lookup_lt_Some, Hl|].
  split; [apply write_tasks_length|].
  intros t Ht. destruct (write_tasks_elem_from keys num 0 t Ht) as [Hk Hn].
  split; [exact Hk|lia].
Qed.

Lemma write_tasks_order_witness :
  write_tasks ["a"; "b"] 3 !! 5%nat = Some ("b", 2%nat).
Proof.
  exact (proj1 (write_tasks_order ["a"; "b"] 3 2 1 "b" ltac:(lia) eq_refl)).
Defined.

(** A nonnegative result of [write_key] is the duration of a write that
    signalled success. *)
Lemma write_key_nonneg (start : Q) (post : post_outcome) (v : Q) :
  write_key start post = Some v -> 0 <= v ->
  signals_success post = true /\ elapsed_of start post = Some v.
Proof.
  rewrite write_key_cases. intros [= <-] Hv.
  destruct (signals_success post) eqn:Hs.
  - split; [reflexivity|].
    destruct post as [[now resp]|]; [reflexivity|discriminate Hs].
  - exfalso. exact (FAILED_negative Hv).
Qed.

(** X5. [write_key] always returns a value.  Whatever the clock does, a
    result that is not negative is the measured duration of a write
    classified as a success, and a write not classified as a success
    returns the failure marker; when the clock does not go backwards the
    converse holds as well, so the sign of the result tells success from
    failure. *)
Theorem write_key_sign (start : Q) (post : post_outcome) :
  exists v,
    write_key start post = Some v
    /\ (0 <= v -> signals_success post = true /\ elapsed_of start post = Some v)
    /\ (signals_success post = false -> v = FAILED)
    /\ ((forall now resp, post = Some (now, resp) -> start <= now) ->
        (signals_success post = true -> 0 <= v)
        /\ (v == FAILED -> signals_success post = false)).
Proof.
  destruct (write_key start post) as [v|] eqn:Hw;
    [|rewrite write_key_cases in Hw; discriminate].
  exists v. split; [reflexivity|].
  split; [apply (write_key_nonneg start post v Hw)|].
  split.
  { intros Hs. rewrite write_key_cases, Hs in Hw. injection Hw as <-. reflexivity. }
  intros Hclock.
  assert (Hpos : signals_success post = true -> 0 <= v).
  { intros Hs. rewrite write_key_cases, Hs in Hw. injection Hw as <-.
    destruct post as [[now resp]|]; [|discriminate Hs]. cbn.
    specialize (Hclock now resp eq_refl). lra. }
  split; [exact Hpos|].
  intros Hv. destruct (signals_success post); [|reflexivity].
  specialize (Hpos eq_refl). unfold FAILED in Hv. lra.
Qed.

Lemma write_key_sign_witness :
  exists v, write_key 0 (obs_post (acknowledged 0)) = Some v /\ 0 <= v.
Proof.
  destruct (write_key_sign 0 (obs_post (acknowledged 0))) as (v & Hv & _ & _ & Hs).
  exists v. split; [exact Hv|]. apply Hs; [|reflexivity].
  intros now resp [= <- _]. lra.
Defined.

(** What [collect] returns, without any assumption on the clock. *)
Lemma collect_results (obs : list observation) :
  exists latencies,
    collect obs = Some latencies
    /\ (length latencies <= length obs)%nat
    /\ forall x, x ∈ latencies ->
         0 <= x /\ exists idx o, obs !! idx = Some o /\ success_latency o = Some x.
Proof.
  unfold collect, gather.
  destruct (mapM_is_Some_2 (fun o => write_key (obs_start o) (obs_post o)) obs)
    as [results Hr].
  { apply Forall_forall. intros o _. cbn. rewrite write_key_cases. eexists; reflexivity. }
  rewrite Hr. cbn. eexists. split; [reflexivity|].
  split.
  - etransitivity; [apply length_filter|]. rewrite <- (length_mapM _ _ _ Hr). reflexivity.
  - intros x Hx. apply list_elem_of_filter in Hx as [Hpos Hx].
    split; [exact Hpos|].
    apply mapM_Some_1 in Hr.
    destruct (proj1 (list_elem_of_lookup results x) Hx) as [idx Hidx].
    destruct (Forall2_lookup_r _ _ _ _ _ Hr Hidx) as (o & Ho & Hw).
    exists idx, o. split; [exact Ho|].
    destruct (write_key_nonneg _ _ _ Hw Hpos) as [Hs He].
    unfold success_latency. rewrite Hs. exact He.
Qed.

(** X6. With at least one slot [run_concurrent_writes] returns, whatever
    the store answers and whatever the clock reads: at most one latency
    per task, none of them negative, and each of them the duration
    measured by a task whose write signalled success. *)
Theorem run_concurrent_writes_results (world : nat -> observation)
    (keys : list string) (num concurrency : nat) :
  (0 < concurrency)%nat ->
  exists latencies,
    run_concurrent_writes world keys num concurrency = Some latencies
    /\ (length latencies <= num * length keys)%nat
    /\ forall x, x ∈ latencies ->
         0 <= x
         /\ exists idx, (idx < num * length keys)%nat
              /\ success_latency (world idx) = Some x.
Proof.
  intros Hc. unfold run_concurrent_writes.
  destruct concurrency as [|c]; [lia|].
  destruct (collect_results (imap (fun idx _ => world idx) (write_tasks keys num)))
    as (latencies & Hrun & Hlen & Hel).
  rewrite length_imap, write_tasks_length in Hlen.
  exists latencies.
  split; [destruct (write_tasks keys num); exact Hrun|].
  split; [exact Hlen|].
  intros x Hx. destruct (Hel x Hx) as (Hpos & idx & o & Ho & Hs).
  split; [exact Hpos|]. exists idx.
  pose proof (lookup_lt_Some _ _ _ Ho) as Hlt.
  rewrite length_imap, write_tasks_length in Hlt. split; [exact Hlt|].
  rewrite list_lookup_imap in Ho.
  destruct (write_tasks keys num !! idx); [|discriminate].
  cbn in Ho. injection Ho as <-. exact Hs.
Qed.

Lemma run_concurrent_writes_results_witness :
  exists latencies,
    run_concurrent_writes every_other_write ["k"] 3 2 = Some latencies
    /\ (length latencies <= 3)%nat.
Proof.
  destruct (run_concurrent_writes_results every_other_write ["k"] 3 2 ltac:(lia))
    as (latencies & Hrun & Hlen & _).
  exists latencies. split; [exact Hrun|exact Hlen].
Defined.

End DriverFacts.

(** ** The concurrency limiter: runs of the driver *)

Section LimiterRuns.
Local Open Scope Q_scope.

(** No step creates or drops a task. *)
Lemma step_length (s s' : driver_state) :
  step s s' -> length (tasks s') = length (tasks s).
Proof. intros Hstep. destruct Hstep; cbn [tasks]; rewrite ?length_insert; reflexivity. Qed.

Lemma reachable_length (s s' : driver_state) :
  reachable s s' -> length (tasks s') = length (tasks s).
Proof.
  intros Hr. induction Hr as [|s1 s2 s3 Hstep _ IH]; [reflexivity|].
  rewrite IH. apply step_length, Hstep.
Qed.

(** A step changes one task at most, never a finished one, and neither
    the clock nor the work done goes back. *)
Lemma step_progress (s s' : driver_state) :
  step s s' ->
  clock s <= clock s' /\ (work_left s' <= work_left s)%nat
  /\ forall i ta start post tr,
       tasks s !! i = Some (Done ta start post tr) ->
       tasks s' !! i = Some (Done ta start post tr).
Proof.
  intros Hstep. unfold work_left.
  destruct Hstep; cbn [clock tasks];
    (split; [lra|]);
    try (split; [reflexivity|intros ? ? ? ? ? Hd; exact Hd]);
    match goal with
    | Hi : ?l !! ?k = Some ?t |- context [<[?k := ?t']> ?l] =>
        split;
        [pose proof (sum_insert remaining l k t t' Hi) as Hs; cbn [remaining] in Hs; lia
        |intros j ? ? ? ? Hd; destruct (decide (k = j)) as [->|Hne];
         [congruence|rewrite list_lookup_insert_ne by exact Hne; exact Hd]]
    end.
Qed.

(** With no slot no task ever leaves the queue of the semaphore. *)
Lemma zero_slots_step (s s' : driver_state) :
  sem_value s = 0%nat -> Forall (fun t => t = Waiting) (tasks s) -> step s s' ->
  sem_value s' = 0%nat /\ tasks s' = tasks s.
Proof.
  intros Hv Hw Hstep. rewrite Forall_forall in Hw.
  destruct Hstep; cbn [sem_value tasks] in *;
    try (split; [exact Hv|reflexivity]);
    try discriminate Hv;
    match goal with
    | Hi : _ !! _ = Some _ |- _ =>
        specialize (Hw _ (list_elem_of_lookup_2 _ _ _ Hi)); discriminate Hw
    end.
Qed.

Lemma zero_slots_reachable (s s' : driver_state) :
  sem_value s = 0%nat -> Forall (fun t => t = Waiting) (tasks s) -> reachable s s' ->
  sem_value s' = 0%nat /\ tasks s' = tasks s.
Proof.
  intros Hv Hw Hr. induction Hr as [s|s1 s2 s3 Hstep _ IH]; [split; [exact Hv|reflexivity]|].
  destruct (zero_slots_step s1 s2 Hv Hw Hstep) as [Hv2 Ht2].
  rewrite <- Ht2. apply IH; [exact Hv2|rewrite Ht2; exact Hw].
Qed.

Lemma init_all_waiting (t0 : Q) (c : nat) (keys : list string) (num : nat) :
  Forall (fun t => t = Waiting) (tasks (driver_init t0 c keys num)).
Proof. cbn [driver_init tasks]. apply Forall_fmap, Forall_forall. intros x _. reflexivity. Qed.

(** A driver with no work left has only finished tasks. *)
Lemma finished_all_done (s : driver_state) :
  work_left s = 0%nat -> Forall (fun t => holds_slot t = false) (tasks s).
Proof.
  unfold work_left. intros Hz. apply Forall_forall. intros t Hin.
  pose proof (sum_list_with_in t remaining (tasks s) Hin) as Hle.
  destruct t; cbn in *; try lia; reflexivity.
Qed.

(** Dropping the failed writes does not lengthen the list. *)
Lemma omap_length_le {A B} (f : A -> option B) (l : list A) :
  (length (omap f l) <= length l)%nat.
Proof.
  induction l as [|a l IH]; [reflexivity|]. cbn. destruct (f a); cbn; lia.
Qed.

(** The world a list of observations stands for. *)
Lemma imap_observations {A} (obs : list observation) (l : list A) :
  length l = length obs ->
  imap (fun idx _ => default (mkObservation 0 None) (obs !! idx)) l = obs.
Proof.
  intros Hlen. apply list_eq. intros i. rewrite list_lookup_imap.
  destruct (l !! i) as [a|] eqn:Hl; cbn.
  - destruct (lookup_lt_is_Some_2 obs i) as [o Ho];
      [rewrite <- Hlen; eapply lookup_lt_Some, Hl|].
    rewrite Ho. reflexivity.
  - symmetry. apply lookup_ge_None. rewrite <- Hlen. apply lookup_ge_None, Hl.
Qed.

(** X7. A semaphore created with no slot: no task ever leaves the wait
    for a slot, in whatever state the driver reaches, so with at least
    one task [gather] never completes and [run_concurrent_writes] yields
    no value. *)
Theorem zero_slots_never_start (t0 : Q) (keys : list string) (num : nat)
    (s : driver_state) (world : nat -> observation) :
  reachable (driver_init t0 0 keys num) s ->
  (0 < num * length keys)%nat ->
  Forall (fun t => t = Waiting) (tasks s)
  /\ sem_value s = 0%nat
  /\ (0 < work_left s)%nat
  /\ driver_result s = None
  /\ run_concurrent_writes world keys num 0 = None.
Proof.
  intros Hr Hpos.
  destruct (zero_slots_reachable (driver_init t0 0 keys num) s eq_refl
              (init_all_waiting t0 0 keys num) Hr)
    as [Hv Ht].
  pose proof (write_tasks_length keys num) as Hlen.
  assert (Hw : Forall (fun t => t = Waiting) (tasks s))
    by (rewrite Ht; apply init_all_waiting).
  split; [exact Hw|]. split; [exact Hv|].
  unfold work_left, driver_result, run_concurrent_writes.
  rewrite Ht. cbn [driver_init tasks].
  destruct (write_tasks keys num) as [|t ts]; [cbn in Hlen; lia|].
  cbn. split; [lia|]. split; reflexivity.
Qed.

Lemma zero_slots_never_start_witness :
  driver_result (driver_init 0 0 ["k"] 1) = None
  /\ run_concurrent_writes every_other_write ["k"] 1 0 = None.
Proof.
  destruct (zero_slots_never_start 0 ["k"] 1 (driver_init 0 0 ["k"] 1) every_other_write)
    as (_ & _ & _ & H1 & H2).
  - apply rtc_refl.
  - cbn. lia.
  - split; [exact H1|exact H2].
Defined.

(** X8. A completed run of the interleaved tasks: every slot is back in
    the semaphore, no task was created or lost, and what the driver
    returns is what the sequential description of [run_concurrent_writes]
    returns in a world whose clock does not go backwards. *)
Theorem completed_run_result (t0 : Q) (c : nat) (keys : list string) (num : nat)
    (s : driver_state) :
  reachable (driver_init t0 c keys num) s ->
  work_left s = 0%nat ->
  sem_value s = c
  /\ length (tasks s) = (num * length keys)%nat
  /\ exists world latencies,
       (forall idx, monotone_clock (world idx))
       /\ driver_result s = Some latencies
       /\ run_concurrent_writes world keys num c = Some latencies.
Proof.
  intros Hr Hdone.
  destruct (driver_inv_reachable c _ s (driver_inv_init t0 c keys num) Hr) as [Hsem _].
  rewrite (count_zero _ _ (finished_all_done s Hdone)) in Hsem.
  split; [lia|].
  assert (Hlen : length (tasks s) = length (write_tasks keys num)).
  { rewrite (reachable_length _ _ Hr). cbn [driver_init tasks]. apply length_fmap. }
  split; [rewrite Hlen; apply write_tasks_length|].
  destruct (finished_driver_observations s Hdone) as [obs Hobs].
  exists (fun idx => default (mkObservation 0 None) (obs !! idx)), (omap success_latency obs).
  assert (Hmono : forall o, o ∈ obs -> monotone_clock o).
  { intros o Ho. pose proof (mapM_Some_1 _ _ _ Hobs) as HF.
    destruct (proj1 (list_elem_of_lookup obs o) Ho) as [i Hi].
    destruct (Forall2_lookup_r _ _ _ _ _ HF Hi) as (t & Ht & Hto).
    eapply finished_task_monotone_clock; [exact Hr| |exact Hto].
    eapply list_elem_of_lookup_2, Ht. }
  split; [|split].
  - intros idx. destruct (obs !! idx) as [o|] eqn:Ho; cbn.
    + apply Hmono. eapply list_elem_of_lookup_2, Ho.
    + intros now resp [=].
  - apply (driver_result_sample t0 c keys num s obs Hr Hobs).
  - unfold run_concurrent_writes.
    rewrite imap_observations
      by (rewrite <- Hlen; apply (length_mapM _ _ _ Hobs)).
    assert (Hcollect : collect obs = Some (omap success_latency obs)).
    { apply collect_sample, Forall_forall. exact Hmono. }
    destruct c as [|c']; [|exact Hcollect].
    destruct (write_tasks keys num) as [|t ts] eqn:Et; [exact Hcollect|].
    exfalso.
    assert (Hpos : (0 < num * length keys)%nat)
      by (rewrite <- write_tasks_length, Et; cbn; lia).
    destruct (zero_slots_reachable (driver_init t0 0 keys num) s eq_refl
              (init_all_waiting t0 0 keys num) Hr)
      as [_ Ht].
    unfold work_left in Hdone. rewrite Ht in Hdone. cbn [driver_init tasks] in Hdone.
    rewrite Et in Hdone. cbn in Hdone. lia.
Qed.

Lemma completed_run_result_witness :
  sem_value (mkDriver 0 1 [Done 0 0 None 0]) = 1%nat.
Proof.
  refine (proj1 (completed_run_result 0 1 ["k"] 1 (mkDriver 0 1 [Done 0 0 None 0]) _ eq_refl)).
  eapply rtc_l; [exact (step_acquire 0 0 [Waiting] 0 eq_refl)|].
  eapply rtc_l; [exact (step_start 0 0 [Acquired 0] 0 0 eq_refl)|].
  eapply rtc_l; [exact (step_transport_error 0 0 [Timing 0 0] 0 0 0 eq_refl)|].
  apply rtc_refl.
Defined.

(** X9. With at least one slot the driver cannot get stuck: from every
    state it reaches, the run can be brought to completion, and [gather]
    then hands back a list with at most one latency per task. *)
Theorem driver_always_completes (t0 : Q) (c : nat) (keys : list string) (num : nat)
    (s : driver_state) :
  (0 < c)%nat ->
  reachable (driver_init t0 c keys num) s ->
  exists s' latencies,
    reachable s s' /\ work_left s' = 0%nat
    /\ driver_result s' = Some latencies
    /\ (length latencies <= num * length keys)%nat.
Proof.
  intros Hc Hr.
  pose proof (driver_inv_reachable c _ s (driver_inv_init t0 c keys num) Hr) as Hinv.
  destruct (driver_can_finish c s Hc Hinv) as (s' & Hr' & Hdone).
  assert (Hr0 : reachable (driver_init t0 c keys num) s')
    by (eapply rtc_trans; eassumption).
  destruct (finished_driver_observations s' Hdone) as [obs Hobs].
  exists s', (omap success_latency obs).
  split; [exact Hr'|]. split; [exact Hdone|].
  split; [apply (driver_result_sample t0 c keys num s' obs Hr0 Hobs)|].
  etransitivity; [apply omap_length_le|].
  rewrite <- (length_mapM _ _ _ Hobs), (reachable_length _ _ Hr0).
  cbn [driver_init tasks]. rewrite length_fmap, write_tasks_length. reflexivity.
Qed.

Lemma driver_always_completes_witness :
  exists s' latencies,
    reachable (driver_init 0 1 ["k"] 1) s' /\ driver_result s' = Some latencies.
Proof.
  destruct (driver_always_completes 0 1 ["k"] 1 (driver_init 0 1 ["k"] 1) ltac:(lia))
    as (s' & latencies & Hr & _ & Hres & _).
  - apply rtc_refl.
  - exists s', latencies. split; [exact Hr|exact Hres].
Defined.

(** X10. Progress is one-way: along any run the clock does not go back,
    the number of suspension points still to pass does not grow, and a
    task that has returned keeps the clock readings and the response it
    returned with, so [gather] sees each write exactly as it ended. *)
Theorem finished_writes_are_final (s s' : driver_state) :
  reachable s s' ->
  clock s <= clock s' /\ (work_left s' <= work_left s)%nat
  /\ forall i ta start post tr,
       tasks s !! i = Some (Done ta start post tr) ->
       tasks s' !! i = Some (Done ta start post tr).
Proof.
  intros Hr. induction Hr as [s|s1 s2 s3 Hstep _ IH].
  - split; [lra|]. split; [reflexivity|]. intros i ta start post tr Hd. exact Hd.
  - destruct (step_progress s1 s2 Hstep) as (Hc & Hw & Hd).
    destruct IH as (Hc' & Hw' & Hd').
    split; [lra|]. split; [lia|].
    intros i ta start post tr Hi. apply Hd', Hd, Hi.
Qed.

Lemma finished_writes_are_final_witness :
  tasks (mkDriver 0 0 [Done 0 0 None 0; Acquired 0]) !! 0%nat = Some (Done 0 0 None 0).
Proof.
  refine (proj2 (proj2 (finished_writes_are_final
                          (mkDriver 0 1 [Done 0 0 None 0; Waiting])
                          (mkDriver 0 0 [Done 0 0 None 0; Acquired 0]) _))
            0%nat 0 0 None 0 eq_refl).
  eapply rtc_l; [exact (step_acquire 0 0 [Done 0 0 None 0; Waiting] 1 eq_refl)|].
  apply rtc_refl.
Defined.

End LimiterRuns.

(** ** The consistency checker: reports *)

Section ConsistencyReports.
Context {V : Type} `{EqDecision V}.
Implicit Types (leader_data follower_data : @dump V).

(** The tally at the end of the loop, class by class. *)
Lemma tally_all_classes leader_data follower_data :
  tally_all leader_data follower_data =
    mkTally (length (keys_of_class Matching leader_data follower_data))
            (keys_of_class Mismatched leader_data follower_data)
            (keys_of_class Missing leader_data follower_data).
Proof.
  destruct (tally_fold leader_data follower_data (mkTally 0 [] [])) as (H1 & H2 & H3).
  cbn in H1, H2, H3. fold (tally_all leader_data follower_data) in H1, H2, H3.
  destruct (tally_all leader_data follower_data) as [a b c]. cbn in *. congruence.
Qed.

(** The record of a follower, class by class. *)
Lemma check_follower_classes (i : nat) leader_data follower_data :
  check_follower i leader_data follower_data =
    let mismatched := keys_of_class Mismatched leader_data follower_data in
    let missing := keys_of_class Missing leader_data follower_data in
    mkFollowerReport ("f" +:+ pretty i) (length follower_data)
      (bool_decide (length mismatched = 0%nat) && bool_decide (length missing = 0%nat))
      (length (keys_of_class Matching leader_data follower_data))
      (length mismatched) (length missing) (take 3 mismatched).
Proof. unfold check_follower. rewrite tally_all_classes. reflexivity. Qed.

Lemma keys_of_class_nil (c : key_class) leader_data follower_data :
  keys_of_class c leader_data follower_data = []
  <-> forall item, item ∈ leader_data -> class_of follower_data item <> c.
Proof.
  induction leader_data as [|item l IH].
  - split; [intros _ item Hin; inversion Hin|reflexivity].
  - rewrite keys_of_class_cons. case_decide as Hc.
    + split; [discriminate|]. intros Hall. exfalso. apply (Hall item); [left|exact Hc].
    + rewrite IH. split.
      * intros Hall it Hin. apply elem_of_cons in Hin as [->|Hin]; [exact Hc|apply Hall, Hin].
      * intros Hall it Hin. apply Hall. right. exact Hin.
Qed.

Lemma keys_of_class_elem (c : key_class) leader_data follower_data (k : string) :
  k ∈ keys_of_class c leader_data follower_data
  <-> exists v, (k, v) ∈ leader_data /\ class_of follower_data (k, v) = c.
Proof.
  unfold keys_of_class. rewrite list_elem_of_fmap. split.
  - intros ([k' v] & -> & Hin). apply list_elem_of_filter in Hin as [Hc Hin].
    exists v. split; [exact Hin|exact Hc].
  - intros (v & Hin & Hc). exists (k, v). split; [reflexivity|].
    apply list_elem_of_filter. split; [exact Hc|exact Hin].
Qed.

Lemma class_of_matching follower_data (item : string * V) :
  class_of follower_data item = Matching <-> dump_get follower_data item.1 = Some item.2.
Proof.
  unfold class_of. destruct (dump_get follower_data item.1) as [v'|]; [|split; discriminate].
  destruct (decide (item.2 = v')) as [->|Hne]; split; congruence.
Qed.

Lemma class_of_mismatched follower_data (item : string * V) :
  class_of follower_data item = Mismatched
  <-> exists v', dump_get follower_data item.1 = Some v' /\ item.2 <> v'.
Proof.
  unfold class_of. destruct (dump_get follower_data item.1) as [v'|].
  - destruct (decide (item.2 = v')) as [He|Hne].
    + split; [discriminate|]. intros (v & [= <-] & Hv). contradiction.
    + split; [|reflexivity]. intros _. exists v'. split; [reflexivity|exact Hne].
  - split; [discriminate|]. intros (v & Hv & _). discriminate.
Qed.

Lemma class_of_empty (item : string * V) : class_of [] item = Missing.
Proof. reflexivity. Qed.

(** Against an empty follower dump every leader key is missing. *)
Lemma keys_of_class_empty_follower (c : key_class) leader_data :
  keys_of_class c leader_data [] = if decide (c = Missing) then leader_data.*1 else [].
Proof.
  induction leader_data as [|item l IH]; [destruct (decide _); reflexivity|].
  rewrite keys_of_class_cons, IH, class_of_empty.
  destruct c; cbn [decide_rel]; repeat case_decide; try congruence; reflexivity.
Qed.

(** The consistency flag says that no key is mismatched or missing. *)
Lemma matches_leader_classes (i : nat) leader_data follower_data :
  matches_leader (check_follower i leader_data follower_data) = true
  <-> forall item, item ∈ leader_data -> class_of follower_data item = Matching.
Proof.
  rewrite check_follower_classes. cbn [matches_leader].
  rewrite andb_true_iff, !bool_decide_eq_true, !length_zero_iff_nil, !keys_of_class_nil.
  split.
  - intros [H1 H2] item Hin. specialize (H1 item Hin). specialize (H2 item Hin).
    destruct (class_of follower_data item); congruence.
  - intros Hall. split; intros item Hin; rewrite (Hall item Hin); discriminate.
Qed.

(** [d.get(k)] on a dump whose keys are distinct. *)
Lemma dump_get_elem (d : @dump V) (k : string) (v : V) :
  NoDup d.*1 -> (dump_get d k = Some v <-> (k, v) ∈ d).
Proof.
  induction d as [|[k' v'] d IH]; intros Hnd.
  - split; [discriminate|intros Hin; inversion Hin].
  - rewrite fmap_cons in Hnd. apply NoDup_cons in Hnd as [Hnotin Hnd]. cbn [dump_get fst] in *.
    rewrite elem_of_cons. case_decide as Hk.
    + subst k'. split.
      * intros [= ->]. left. reflexivity.
      * intros [[= ->]|Hin]; [reflexivity|].
        exfalso. apply Hnotin. apply list_elem_of_fmap. exists (k, v). split; [reflexivity|exact Hin].
    + rewrite (IH Hnd). split; [intros Hin; right; exact Hin|].
      intros [[= -> _]|Hin]; [congruence|exact Hin].
Qed.

Lemma dump_get_perm (d d' : @dump V) (k : string) :
  NoDup d.*1 -> d ≡ₚ d' -> dump_get d k = dump_get d' k.
Proof.
  intros Hnd Hp.
  assert (Hnd' : NoDup d'.*1) by (rewrite <- Hp; exact Hnd).
  destruct (dump_get d k) as [v|] eqn:E.
  - symmetry. apply (dump_get_elem d' k v Hnd'). rewrite <- Hp.
    apply (dump_get_elem d k v Hnd), E.
  - destruct (dump_get d' k) as [v'|] eqn:E'; [|reflexivity].
    apply (dump_get_elem d' k v' Hnd') in E'. rewrite <- Hp in E'.
    apply (dump_get_elem d k v' Hnd) in E'. congruence.
Qed.

Lemma keys_of_class_perm (c : key_class) leader_data (leader_data' : @dump V) follower_data :
  leader_data ≡ₚ leader_data' ->
  keys_of_class c leader_data follower_data ≡ₚ keys_of_class c leader_data' follower_data.
Proof.
  intros Hp. unfold keys_of_class. apply fmap_Permutation.
  apply (filter_Permutation (fun item => class_of follower_data item = c)), Hp.
Qed.

Lemma keys_of_class_ext (c : key_class) leader_data (f1 f2 : @dump V) :
  (forall k, dump_get f1 k = dump_get f2 k) ->
  keys_of_class c leader_data f1 = keys_of_class c leader_data f2.
Proof.
  intros Hag. induction leader_data as [|item l IH]; [reflexivity|].
  rewrite !keys_of_class_cons, IH.
  assert (Hc : class_of f1 item = class_of f2 item) by (unfold class_of; rewrite Hag; reflexivity).
  rewrite Hc. reflexivity.
Qed.

(** A dump request that fails, is refused or does not decode. *)
Lemma get_all_data_failed (resp : option (Z * option (@dump V))) :
  resp = None \/ (exists st d, resp = Some (st, d) /\ (st <> 200%Z \/ d = None)) ->
  get_all_data resp = [].
Proof.
  intros [->|(st & d & -> & Hbad)]; [reflexivity|]. cbn.
  destruct d as [d|]; [|reflexivity].
  case_decide; [|reflexivity]. destruct Hbad; [contradiction|discriminate].
Qed.

(** X11. A follower is reported consistent exactly when it holds every
    item of the leader with an equal value, which is also exactly when
    its matching count is the leader key count. *)
Theorem matches_leader_iff (i : nat) leader_data follower_data :
  let r := check_follower i leader_data follower_data in
  (matches_leader r = true
     <-> forall k v, (k, v) ∈ leader_data -> dump_get follower_data k = Some v)
  /\ (matches_leader r = true <-> matching_count r = length leader_data)
  /\ (matches_leader r = true <-> mismatched_values r = 0%nat /\ missing_keys r = 0%nat).
Proof.
  intros r. unfold r. split; [|split].
  - rewrite matches_leader_classes. split.
    + intros Hall k v Hin. apply (class_of_matching follower_data (k, v)), Hall, Hin.
    + intros Hall [k v] Hin. apply class_of_matching, Hall, Hin.
  - pose proof (class_partition leader_data follower_data) as Hpart.
    rewrite check_follower_classes. cbn [matches_leader matching_count].
    rewrite andb_true_iff, !bool_decide_eq_true. lia.
  - rewrite check_follower_classes. cbn [matches_leader mismatched_values missing_keys].
    rewrite andb_true_iff, !bool_decide_eq_true. reflexivity.
Qed.

(** X12. When the dump of the leader cannot be read (the request fails,
    the status is not 200 or the body does not decode), the report has a
    leader key count of zero and every follower is reported consistent
    with all its counts zero, whatever it holds. *)
Theorem unreadable_leader_report (leader_resp : option (Z * option (@dump V)))
    (follower_resps : list (option (Z * option (@dump V)))) :
  leader_resp = None
    \/ (exists st d, leader_resp = Some (st, d) /\ (st <> 200%Z \/ d = None)) ->
  let report := check_consistency leader_resp follower_resps in
  leader_keys report = 0%nat
  /\ length (followers report) = length follower_resps
  /\ forall r, r ∈ followers report ->
       matches_leader r = true /\ matching_count r = 0%nat
       /\ mismatched_values r = 0%nat /\ missing_keys r = 0%nat
       /\ mismatched_examples r = [].
Proof.
  intros Hfail report. unfold report, check_consistency.
  rewrite (get_all_data_failed leader_resp Hfail). cbn [leader_keys followers length].
  split; [reflexivity|]. split; [apply length_imap|].
  intros r Hr. apply elem_of_lookup_imap in Hr as (n & resp & -> & _).
  repeat split.
Qed.

(** X13. A follower whose dump cannot be read is compared as an empty
    dict: its record has no key, every leader key is counted as missing,
    and it is reported consistent only if the leader dump is empty too. *)
Theorem unreadable_follower_record (leader_resp : option (Z * option (@dump V)))
    (follower_resps : list (option (Z * option (@dump V))))
    (n : nat) (resp : option (Z * option (@dump V))) :
  follower_resps !! n = Some resp ->
  resp = None \/ (exists st d, resp = Some (st, d) /\ (st <> 200%Z \/ d = None)) ->
  let report := check_consistency leader_resp follower_resps in
  exists r,
    followers report !! n = Some r
    /\ follower r = "f" +:+ pretty (S n)
    /\ keys r = 0%nat
    /\ missing_keys r = leader_keys report
    /\ matching_count r = 0%nat /\ mismatched_values r = 0%nat
    /\ mismatched_examples r = []
    /\ (matches_leader r = true <-> leader_keys report = 0%nat).
Proof.
  intros Hn Hfail report. unfold report, check_consistency. cbn [followers leader_keys].
  set (leader_data := get_all_data leader_resp).
  exists (check_follower (S n) leader_data (get_all_data resp)).
  split; [rewrite list_lookup_imap, Hn; reflexivity|].
  rewrite (get_all_data_failed resp Hfail), check_follower_classes.
  assert (Hmissing : keys_of_class Missing leader_data [] = leader_data.*1)
    by (rewrite keys_of_class_empty_follower; reflexivity).
  assert (Hmatching : keys_of_class Matching leader_data [] = [])
    by (rewrite keys_of_class_empty_follower; reflexivity).
  assert (Hmismatched : keys_of_class Mismatched leader_data [] = [])
    by (rewrite keys_of_class_empty_follower; reflexivity).
  cbv zeta. rewrite Hmissing, Hmatching, Hmismatched, (length_fmap fst leader_data).
  cbn [follower keys missing_keys matching_count mismatched_values mismatched_examples
       matches_leader length take].
  split; [reflexivity|]. split; [reflexivity|]. split; [reflexivity|].
  split; [reflexivity|]. split; [reflexivity|]. split; [reflexivity|].
  rewrite andb_true_iff, !bool_decide_eq_true. intuition.
Qed.

(** X14. The example keys of a record are the first three mismatched
    keys in the order of the leader dump: there are min(3, mismatched)
    of them, and each is a leader key that the follower holds with
    another value. *)
Theorem mismatched_examples_first_three (i : nat) leader_data follower_data :
  let r := check_follower i leader_data follower_data in
  mismatched_examples r = take 3 (keys_of_class Mismatched leader_data follower_data)
  /\ length (mismatched_examples r) = Nat.min 3 (mismatched_values r)
  /\ (mismatched_examples r = [] <-> mismatched_values r = 0%nat)
  /\ forall k, k ∈ mismatched_examples r ->
       exists v v', (k, v) ∈ leader_data /\ dump_get follower_data k = Some v' /\ v <> v'.
Proof.
  intros r. unfold r. rewrite check_follower_classes.
  cbn [mismatched_examples mismatched_values].
  split; [reflexivity|]. split; [apply length_take|]. split.
  - destruct (keys_of_class Mismatched leader_data follower_data) as [|k l];
      cbn; split; (reflexivity || discriminate).
  - intros k Hk. apply elem_of_take in Hk as (n & Hk & _).
    apply list_elem_of_lookup_2, keys_of_class_elem in Hk as (v & Hin & Hc).
    apply class_of_mismatched in Hc as (v' & Hv' & Hne).
    exists v, v'. split; [exact Hin|]. split; [exact Hv'|exact Hne].
Qed.

(** The leader keys that the follower holds. *)
Lemma present_keys_length leader_data follower_data :
  (length (keys_of_class Matching leader_data follower_data)
   + length (keys_of_class Mismatched leader_data follower_data))%nat
  = length (filter (fun item => is_Some (dump_get follower_data item.1)) leader_data).
Proof.
  induction leader_data as [|item l IH]; [reflexivity|].
  rewrite !keys_of_class_cons.
  rewrite (filter_cons (fun it : string * V => is_Some (dump_get follower_data it.1)) item l).
  unfold class_of. destruct (dump_get follower_data item.1) as [v'|] eqn:E.
  - destruct (decide (is_Some (Some v'))) as [_|Hn]; [|exfalso; apply Hn; eexists; reflexivity].
    destruct (decide (item.2 = v')); repeat case_decide; try congruence; cbn [length];
      (apply (f_equal S) in IH; etransitivity; [|exact IH]; lia).
  - destruct (decide (is_Some (@None V))) as [[? Hn]|_]; [discriminate|].
    repeat case_decide; try congruence. exact IH.
Qed.

Lemma dump_get_key (d : @dump V) (k : string) (v : V) : dump_get d k = Some v -> k ∈ d.*1.
Proof.
  induction d as [|[k' v'] d IH]; [discriminate|]. cbn [dump_get].
  rewrite fmap_cons. cbn [fst]. case_decide as Hk.
  - intros _. subst k'. left.
  - intros H1. right. apply IH, H1.
Qed.

(** A leader dump with distinct keys has at most as many keys in common
    with a follower as the follower has keys. *)
Lemma present_keys_bound leader_data follower_data :
  NoDup leader_data.*1 ->
  (length (keys_of_class Matching leader_data follower_data)
   + length (keys_of_class Mismatched leader_data follower_data)
   <= length follower_data)%nat.
Proof.
  intros Hnd. rewrite present_keys_length.
  set (present := filter (fun item => is_Some (dump_get follower_data item.1)) leader_data).
  rewrite <- (length_fmap fst present), <- (length_fmap fst follower_data).
  apply submseteq_length, NoDup_submseteq.
  - eapply sublist_NoDup; [exact Hnd|]. apply fmap_sublist, sublist_filter.
  - intros k Hk. apply list_elem_of_fmap in Hk as ([k' v] & -> & Hin).
    apply list_elem_of_filter in Hin as [[v' Hv'] _]. exact (dump_get_key _ _ _ Hv').
Qed.

(** X15. For a leader dump with distinct keys, as a dict has, every
    record of the report counts at most as many common keys as the
    follower holds ([matching + mismatched <= keys]) and accounts for
    every leader key; so a follower with fewer keys than the leader is
    reported inconsistent, with at least the difference counted as
    missing.  The records are named [f1], [f2], ... without repetition. *)
Theorem follower_counts_bounded (leader_resp : option (Z * option (@dump V)))
    (follower_resps : list (option (Z * option (@dump V)))) :
  NoDup (get_all_data leader_resp).*1 ->
  let report := check_consistency leader_resp follower_resps in
  NoDup (follower <$> followers report)
  /\ forall r, r ∈ followers report ->
       (matching_count r + mismatched_values r <= keys r)%nat
       /\ (matching_count r + mismatched_values r + missing_keys r)%nat = leader_keys report
       /\ (leader_keys report - keys r <= missing_keys r)%nat
       /\ ((keys r < leader_keys report)%nat -> matches_leader r = false).
Proof.
  intros Hnd report. unfold report, check_consistency. cbn [leader_keys followers].
  set (leader_data := get_all_data leader_resp) in *.
  split.
  - apply NoDup_alt. intros n m name Hn Hm.
    rewrite list_lookup_fmap, list_lookup_imap in Hn, Hm.
    destruct (follower_resps !! n) as [rn|]; [|discriminate].
    destruct (follower_resps !! m) as [rm|]; [|discriminate].
    cbn in Hn, Hm.
    assert (Hname : "f" +:+ pretty (S n) = "f" +:+ pretty (S m)) by congruence.
    cbn in Hname. injection Hname as Hname.
    pose proof (pretty_nat_inj _ _ Hname) as Hnm. lia.
  - intros r Hr. apply elem_of_lookup_imap in Hr as (n & resp & -> & _).
    set (follower_data := get_all_data resp).
    pose proof (present_keys_bound leader_data follower_data Hnd) as Hle.
    pose proof (class_partition leader_data follower_data) as Hpart.
    rewrite check_follower_classes.
    cbn [matching_count mismatched_values missing_keys keys matches_leader].
    split; [exact Hle|]. split; [exact Hpart|]. split; [lia|].
    intros Hlt. apply andb_false_iff. right. apply bool_decide_eq_false. lia.
Qed.

(** X16. A dump is compared as a dict: reordering the items of the
    leader dump or of the follower dump changes no count of the record
    and not its consistency flag. *)
Theorem check_follower_order_irrelevant (i : nat) leader_data (leader_data' : @dump V)
    follower_data (follower_data' : @dump V) :
  leader_data ≡ₚ leader_data' ->
  follower_data ≡ₚ follower_data' ->
  NoDup follower_data.*1 ->
  let r := check_follower i leader_data follower_data in
  let r' := check_follower i leader_data' follower_data' in
  follower r = follower r' /\ keys r = keys r'
  /\ matching_count r = matching_count r'
  /\ mismatched_values r = mismatched_values r'
  /\ missing_keys r = missing_keys r'
  /\ matches_leader r = matches_leader r'
  /\ (leader_data = leader_data' -> r = r').
Proof.
  intros Hl Hf Hnd r r'. unfold r, r'. rewrite !check_follower_classes.
  assert (Hag : forall k, dump_get follower_data k = dump_get follower_data' k)
    by (intros k; apply dump_get_perm; assumption).
  assert (Hlen : forall c,
            length (keys_of_class c leader_data follower_data)
            = length (keys_of_class c leader_data' follower_data')).
  { intros c. rewrite (keys_of_class_ext c leader_data _ _ Hag).
    apply Permutation_length, keys_of_class_perm, Hl. }
  cbn [follower keys matching_count mismatched_values missing_keys matches_leader].
  rewrite !Hlen, (Permutation_length Hf).
  split; [reflexivity|]. split; [reflexivity|]. split; [reflexivity|].
  split; [reflexivity|]. split; [reflexivity|]. split; [reflexivity|].
  intros <-. cbv zeta. rewrite !(keys_of_class_ext _ leader_data _ _ Hag). reflexivity.
Qed.

(** X17. Against a follower dump with distinct keys, the follower is
    reported consistent exactly when every item of the leader dump is an
    item of the follower dump; keys that only the follower holds do not
    matter. *)
Theorem matches_leader_inclusion (i : nat) leader_data follower_data :
  NoDup follower_data.*1 ->
  (matches_leader (check_follower i leader_data follower_data) = true
   <-> forall item, item ∈ leader_data -> item ∈ follower_data).
Proof.
  intros Hnd. rewrite matches_leader_classes. split.
  - intros Hall [k v] Hin. apply (dump_get_elem follower_data k v Hnd).
    apply (class_of_matching follower_data (k, v)), Hall, Hin.
  - intros Hall [k v] Hin. apply class_of_matching.
    apply (dump_get_elem follower_data k v Hnd), Hall, Hin.
Qed.

End ConsistencyReports.

Lemma follower_counts_bounded_witness :
  Forall (fun r => matches_leader r = false)
    (followers (check_consistency (Some (200%Z, Some [("a", 1%nat); ("b", 2%nat)]))
                  [Some (200%Z, Some [("a", 1%nat)])])).
Proof.
  destruct (follower_counts_bounded (Some (200%Z, Some [("a", 1%nat); ("b", 2%nat)]))
              [Some (200%Z, Some [("a", 1%nat)])]) as [_ H].
  - apply (bool_decide_unpack (NoDup ["a"; "b"])). vm_compute. exact I.
  - apply Forall_forall. intros r Hr.
    destruct (H r Hr) as (_ & _ & _ & Hf). apply Hf.
    apply list_elem_of_singleton in Hr. subst r. vm_compute. lia.
Defined.

Lemma unreadable_leader_report_witness :
  matches_leader (check_follower 1 (get_all_data None) [("a", 1%nat)]) = true.
Proof.
  refine (proj1 (proj2 (proj2 (unreadable_leader_report (V:=nat) None
                                 [Some (200%Z, Some [("a", 1%nat)])] (or_introl eq_refl)))
                   _ _)).
  apply (list_elem_of_lookup_2 _ 0%nat). reflexivity.
Defined.

Lemma unreadable_follower_record_witness :
  exists r,
    followers (check_consistency (Some (200%Z, Some [("a", 1%nat)])) [Some (503%Z, None)])
      !! 0%nat = Some r
    /\ missing_keys r = 1%nat.
Proof.
  destruct (unreadable_follower_record (Some (200%Z, Some [("a", 1%nat)]))
              [Some (503%Z, None)] 0 (Some (503%Z, None)) eq_refl)
    as (r & Hr & _ & _ & Hm & _).
  - right. exists 503%Z, None. split; [reflexivity|]. left. discriminate.
  - exists r. split; [exact Hr|exact Hm].
Defined.

Lemma check_follower_order_irrelevant_witness :
  matching_count (check_follower 1 [("a", 1%nat); ("b", 2%nat)] [("a", 1%nat); ("b", 9%nat)])
  = matching_count (check_follower 1 [("b", 2%nat); ("a", 1%nat)] [("b", 9%nat); ("a", 1%nat)]).
Proof.
  refine (proj1 (proj2 (proj2 (check_follower_order_irrelevant 1
            [("a", 1%nat); ("b", 2%nat)] [("b", 2%nat); ("a", 1%nat)]
            [("a", 1%nat); ("b", 9%nat)] [("b", 9%nat); ("a", 1%nat)] _ _ _)))).
  - apply perm_swap.
  - apply perm_swap.
  - apply (bool_decide_unpack (NoDup ["a"; "b"])). vm_compute. exact I.
Defined.

Lemma matches_leader_inclusion_witness :
  matches_leader (check_follower 1 [("a", 1%nat)] [("z", 7%nat); ("a", 1%nat)]) = true.
Proof.
  apply (matches_leader_inclusion 1 [("a", 1%nat)] [("z", 7%nat); ("a", 1%nat)]).
  - apply (bool_decide_unpack (NoDup ["z"; "a"])). vm_compute. exact I.
  - intros item Hin. apply list_elem_of_singleton in Hin as ->. right. left.
Defined.


(** ** The quorum sweep: what is recorded *)

Section SweepContents.
Import Float64.
Local Open Scope Q_scope.

(** The workload of one campaign step returns at most 100 latencies,
    none of them negative. *)
Lemma campaign_sample (tr : trial) :
  exists latencies,
    run_concurrent_writes (writes tr) campaign_keys NUM_WRITES_PER_KEY CONCURRENT_WRITES
      = Some latencies
    /\ (length latencies <= 100)%nat
    /\ Forall (fun x => 0 <= x) latencies.
Proof.
  unfold run_concurrent_writes.
  destruct (collect_results
              (imap (fun idx _ => writes tr idx) (write_tasks campaign_keys NUM_WRITES_PER_KEY)))
    as (latencies & Hrun & Hlen & Hel).
  rewrite length_imap, write_tasks_length in Hlen.
  exists latencies. split; [exact Hrun|]. split; [exact Hlen|].
  apply Forall_forall. intros x Hx. apply (Hel x Hx).
Qed.

(** The three ways an iteration of the sweep ends. *)
Lemma sweep_step_cases (st : sweep_state) (quorum : Z) (tr : trial) :
  exists latencies,
    run_concurrent_writes (writes tr) campaign_keys NUM_WRITES_PER_KEY CONCURRENT_WRITES
      = Some latencies
    /\ (length latencies <= 100)%nat
    /\ Forall (fun x => 0 <= x) latencies
    /\ ((set_quorum (config_outcome tr) = false /\ sweep_step st quorum tr = Some st)
        \/ (set_quorum (config_outcome tr) = true /\ latencies = []
            /\ sweep_step st quorum tr
               = Some (mkSweep (all_stats st) (tested st ++ [quorum])))
        \/ (set_quorum (config_outcome tr) = true /\ latencies <> []
            /\ exists s,
                 calculate_stats latencies = Some s
                 /\ sweep_step st quorum tr
                    = Some (mkSweep (<[quorum := s]> (all_stats st))
                                    (tested st ++ [quorum])))).
Proof.
  destruct (campaign_sample tr) as (latencies & Hrun & Hlen & Hpos).
  exists latencies. split; [exact Hrun|]. split; [exact Hlen|]. split; [exact Hpos|].
  unfold sweep_step. rewrite Hrun.
  destruct (set_quorum (config_outcome tr)); cbn [negb]; [|left; split; reflexivity].
  right. cbn. destruct latencies as [|x xs].
  - left. repeat split.
  - right. split; [reflexivity|]. split; [discriminate|].
    destruct (calculate_stats_is_Some (x :: xs)) as [s Hs];
      [unfold PY_SSIZE_T_MAX; lia|].
    exists s. split; [exact Hs|]. rewrite Hs. reflexivity.
Qed.

(** The sweep does not touch the entry of a value it does not iterate
    over. *)
Lemma sweep_untouched (world : nat -> trial) (quorums : list Z) (q : Z) :
  q ∉ quorums ->
  forall (iter : nat) (st st' : sweep_state),
    sweep st iter quorums world = Some st' -> all_stats st' !! q = all_stats st !! q.
Proof.
  induction quorums as [|quorum qs IH]; intros Hq iter st st' Hrun; cbn [sweep] in Hrun.
  - injection Hrun as <-. reflexivity.
  - apply not_elem_of_cons in Hq as [Hne Hq].
    destruct (sweep_step st quorum (world iter)) as [st1|] eqn:Hstep; [|discriminate].
    cbn in Hrun. rewrite (IH Hq _ _ _ Hrun).
    destruct (sweep_step_cases st quorum (world iter))
      as (l & _ & _ & _ & [[_ E]|[(_ & _ & E)|(_ & _ & s & _ & E)]]);
      rewrite E in Hstep; injection Hstep as <-; cbn [all_stats]; try reflexivity.
    apply lookup_insert_ne. congruence.
Qed.

(** Every entry found after the sweep was there before or was computed
    by [calculate_stats] from the sample of an iteration. *)
Lemma sweep_entry_origin (world : nat -> trial) (quorums : list Z) (q : Z) (s : LatencyStats) :
  forall (iter : nat) (st st' : sweep_state),
    sweep st iter quorums world = Some st' ->
    all_stats st' !! q = Some s ->
    all_stats st !! q = Some s
    \/ exists i latencies,
         quorums !! i = Some q
         /\ set_quorum (config_outcome (world (iter + i)%nat)) = true
         /\ run_concurrent_writes (writes (world (iter + i)%nat)) campaign_keys
              NUM_WRITES_PER_KEY CONCURRENT_WRITES = Some latencies
         /\ (length latencies <= 100)%nat
         /\ Forall (fun x => 0 <= x) latencies
         /\ latencies <> []
         /\ calculate_stats latencies = Some s.
Proof.
  induction quorums as [|quorum qs IH]; intros iter st st' Hrun Hs; cbn [sweep] in Hrun.
  - injection Hrun as <-. left. exact Hs.
  - destruct (sweep_step st quorum (world iter)) as [st1|] eqn:Hstep; [|discriminate].
    cbn in Hrun. destruct (IH _ _ _ Hrun Hs) as [H1|(i & l & Hi & Hset & Hl & Hrest)].
    + destruct (sweep_step_cases st quorum (world iter))
        as (l & Hl & Hlen & Hpos & [[_ E]|[(_ & _ & E)|(Hset & Hne & s1 & Hs1 & E)]]);
        rewrite E in Hstep; injection Hstep as <-; cbn [all_stats] in H1;
        try (left; exact H1).
      destruct (decide (q = quorum)) as [->|Hq].
      * rewrite lookup_insert_eq in H1. injection H1 as ->.
        right. exists 0%nat, l. rewrite Nat.add_0_r. repeat split; assumption.
      * rewrite lookup_insert_ne in H1 by congruence. left. exact H1.
    + right. exists (S i), l. rewrite <- Nat.add_succ_comm.
      split; [exact Hi|]. split; [exact Hset|]. split; [exact Hl|exact Hrest].
Qed.

(** With pairwise distinct quorum values the entry computed in an
    iteration is still there at the end. *)
Lemma sweep_entry_recorded (world : nat -> trial) (quorums : list Z) :
  NoDup quorums ->
  forall (iter : nat) (st st' : sweep_state) (i : nat) (q : Z) (latencies : list Q),
    sweep st iter quorums world = Some st' ->
    quorums !! i = Some q ->
    set_quorum (config_outcome (world (iter + i)%nat)) = true ->
    run_concurrent_writes (writes (world (iter + i)%nat)) campaign_keys
      NUM_WRITES_PER_KEY CONCURRENT_WRITES = Some latencies ->
    latencies <> [] ->
    all_stats st' !! q = calculate_stats latencies.
Proof.
  induction 1 as [|quorum qs Hnotin Hnd IH];
    intros iter st st' i q latencies Hrun Hi Hset Hl Hne; [rewrite lookup_nil in Hi; discriminate|].
  cbn [sweep] in Hrun.
  destruct (sweep_step st quorum (world iter)) as [st1|] eqn:Hstep; [|discriminate].
  cbn in Hrun. destruct i as [|i]; cbn in Hi.
  - injection Hi as ->. rewrite Nat.add_0_r in Hset, Hl.
    rewrite (sweep_untouched world qs q Hnotin _ _ _ Hrun).
    destruct (sweep_step_cases st q (world iter))
      as (l & Hl' & _ & _ & [[Hset' _]|[(_ & Hnil & _)|(_ & _ & s & Hs & E)]]);
      [congruence|congruence|].
    rewrite E in Hstep. injection Hstep as <-. cbn [all_stats].
    rewrite lookup_insert_eq. congruence.
  - rewrite <- Nat.add_succ_comm in Hset, Hl.
    exact (IH (S iter) st1 st' i q latencies Hrun Hi Hset Hl Hne).
Qed.

(** The values tested are appended in the order of the list swept. *)
Lemma sweep_tested (world : nat -> trial) (quorums : list Z) :
  forall (iter : nat) (st st' : sweep_state),
    sweep st iter quorums world = Some st' ->
    exists l, tested st' = tested st ++ l /\ l `sublist_of` quorums.
Proof.
  induction quorums as [|quorum qs IH]; intros iter st st' Hrun; cbn [sweep] in Hrun.
  - injection Hrun as <-. exists []. split; [rewrite app_nil_r; reflexivity|constructor].
  - destruct (sweep_step st quorum (world iter)) as [st1|] eqn:Hstep; [|discriminate].
    cbn in Hrun. destruct (IH _ _ _ Hrun) as (l & Ht & Hsub).
    destruct (sweep_step_cases st quorum (world iter))
      as (l0 & _ & _ & _ & [[_ E]|[(_ & _ & E)|(_ & _ & s & _ & E)]]);
      rewrite E in Hstep; injection Hstep as <-; cbn [tested] in Ht.
    + exists l. split; [exact Ht|]. apply sublist_cons_r. left. exact Hsub.
    + exists (quorum :: l). split; [rewrite Ht, <- app_assoc; reflexivity|].
      constructor. exact Hsub.
    + exists (quorum :: l). split; [rewrite Ht, <- app_assoc; reflexivity|].
      constructor. exact Hsub.
Qed.

(** X18. What [all_stats] holds when the sweep ends: the entry of a
    quorum value is the record [calculate_stats] computed from the sample
    of that value's own iteration, and there is no other entry. *)
Theorem all_stats_contents (world : nat -> trial) :
  exists st,
    quorum_sweep world = Some st
    /\ forall q s,
         all_stats st !! q = Some s <->
         exists i latencies,
           QUORUM_VALUES !! i = Some q
           /\ set_quorum (config_outcome (world i)) = true
           /\ run_concurrent_writes (writes (world i)) campaign_keys
                NUM_WRITES_PER_KEY CONCURRENT_WRITES = Some latencies
           /\ latencies <> []
           /\ calculate_stats latencies = Some s.
Proof.
  destruct (quorum_sweep_spec world) as (st & Hrun & _).
  exists st. split; [exact Hrun|]. unfold quorum_sweep in Hrun.
  intros q s. split.
  - intros Hs.
    destruct (sweep_entry_origin world QUORUM_VALUES q s 0 _ st Hrun Hs)
      as [Hempty|(i & l & Hi & Hset & Hl & _ & _ & Hne & Hcalc)].
    + cbn in Hempty. rewrite lookup_empty in Hempty. discriminate.
    + exists i, l. cbn in Hset, Hl. repeat split; assumption.
  - intros (i & l & Hi & Hset & Hl & Hne & Hcalc).
    rewrite <- Hcalc.
    exact (sweep_entry_recorded world QUORUM_VALUES QUORUM_VALUES_NoDup 0 _ st i q l
             Hrun Hi Hset Hl Hne).
Qed.

(** X19. Every record the campaign stores is the summary of the
    sample of its quorum value's iteration, a sample of between 1 and
    100 latencies none of which is negative; hence
    [0 <= min <= p95 <= p99], and its p99 is its maximum: with 100
    writes per quorum value the p99 of the campaign is the slowest
    successful write. *)
Theorem recorded_stats_wellformed (world : nat -> trial) :
  exists st,
    quorum_sweep world = Some st
    /\ forall q s,
         all_stats st !! q = Some s ->
         exists i latencies,
           QUORUM_VALUES !! i = Some q
           /\ run_concurrent_writes (writes (world i)) campaign_keys
                NUM_WRITES_PER_KEY CONCURRENT_WRITES = Some latencies
           /\ (1 <= length latencies <= 100)%nat
           /\ Forall (fun x => 0 <= x) latencies
           /\ calculate_stats latencies = Some s
           /\ 0 <= min_val s /\ min_val s <= p95 s /\ p95 s <= p99 s
           /\ p99 s == max_val s /\ max_val s ∈ latencies.
Proof.
  destruct (quorum_sweep_spec world) as (st & Hrun & _).
  exists st. split; [exact Hrun|]. unfold quorum_sweep in Hrun.
  intros q s Hs.
  destruct (sweep_entry_origin world QUORUM_VALUES q s 0 _ st Hrun Hs)
    as [Hempty|(i & l & Hi & _ & Hl & Hlen & Hpos & Hne & Hcalc)].
  { cbn in Hempty. rewrite lookup_empty in Hempty. discriminate. }
  exists i, l. split; [exact Hi|]. split; [exact Hl|].
  split; [split; [destruct l; [congruence|cbn; lia]|exact Hlen]|].
  split; [exact Hpos|]. split; [exact Hcalc|].
  assert (Hmax : (Z.of_nat (length l) <= PY_SSIZE_T_MAX)%Z)
    by (unfold PY_SSIZE_T_MAX; lia).
  destruct (calculate_stats_fields l Hne Hmax)
    as (s' & Hs' & _ & _ & _ & H99 & Hmn & Hmx).
  rewrite Hcalc in Hs'. injection Hs' as <-.
  destruct (py_max_spec l Hne) as (mx & Hmx' & Hmaxin & Hhi).
  rewrite Hmx in Hmx'. injection Hmx' as <-.
  rewrite Forall_forall in Hpos.
  destruct (calculate_stats_within l 0 (max_val s) s Hne Hmax) as (_ & _ & Hmn0 & _);
    [intros x Hx; split; [apply Hpos, Hx|apply Hhi, Hx]|exact Hcalc|].
  destruct (calculate_stats_within l (min_val s) (max_val s) s Hne Hmax)
    as (H95b & _ & _ & _).
  { destruct (py_min_spec l Hne) as (mn & Hmn' & _ & Hlo).
    rewrite Hmn in Hmn'. injection Hmn' as <-.
    intros x Hx. split; [apply Hlo, Hx|apply Hhi, Hx]. }
  { exact Hcalc. }
  assert (E99 : p99 s == max_val s).
  { apply (sorted_last_max l); [|exact Hmx].
    rewrite <- (proj1 (percentile_small_last l Hne) Hlen). exact H99. }
  split; [apply Hmn0|]. split; [apply H95b|]. split; [rewrite E99; apply H95b|].
  split; [exact E99|exact Hmaxin].
Qed.

(** X20. The values whose workload was run are recorded in the order
    of [QUORUM_VALUES], each at most once, and only a value whose
    workload was run can have an entry in [all_stats]. *)
Theorem tested_in_order (world : nat -> trial) :
  exists st,
    quorum_sweep world = Some st
    /\ tested st `sublist_of` QUORUM_VALUES
    /\ NoDup (tested st)
    /\ (length (tested st) <= 5)%nat
    /\ forall q, is_Some (all_stats st !! q) -> q ∈ tested st.
Proof.
  destruct (quorum_sweep_spec world) as (st & Hrun & Ht & Hs).
  exists st. split; [exact Hrun|]. unfold quorum_sweep in Hrun.
  destruct (sweep_tested world QUORUM_VALUES 0 _ st Hrun) as (l & Hl & Hsub).
  cbn in Hl. subst l.
  split; [exact Hsub|].
  split; [exact (sublist_NoDup _ _ QUORUM_VALUES_NoDup Hsub)|].
  split; [apply (sublist_length _ _ Hsub)|].
  intros q Hq. apply Hs in Hq as (i & Hi & Hset & _). apply Ht. exists i. split; assumption.
Qed.

End SweepContents.
